(** * The freeing-bump heap allocator of the runtime package, and the
      median of the slot-timing module

    A shallow embedding of [runtime/allocator.go] (constructor, [allocate],
    [deallocate], [bump], the heap accessors and the size-class arithmetic)
    and of [median] from the babe package, followed by the properties the
    specification states about them.

    Conventions.  A [uint32] is a [Z] kept in [0, 2^32) by [uint32], which
    is written wherever the Go arithmetic can wrap.  The wasm memory is a
    [list byte]; every index or slice expression that Go bounds-checks ends
    in [Panic] when it is out of range.  The allocator is a record threaded
    through a small state monad whose outcomes are a value, a returned
    [error], or a run-time panic; the state that comes with an outcome is
    the state the Go object is left in. *)

From Stdlib Require Import ZArith Lia Bool String.
From Stdlib.Strings Require Import Byte.
From stdpp Require Import base tactics option list sorting.

Local Open Scope Z_scope.

(** ** Machine integers *)

Definition uint32 (z : Z) : Z := z mod 2 ^ 32.
Definition uint64 (z : Z) : Z := z mod 2 ^ 64.

Definition byte_to_Z (b : byte) : Z := Z.of_N (Byte.to_N b).

Definition uint8 (z : Z) : byte :=
  match Byte.of_N (Z.to_N (z mod 256)) with
  | Some b => b
  | None => x00
  end.

(** ** Constants of the package *)

Definition ALIGNMENT : Z := 8.
Definition N : Z := 22.
Definition MAX_POSSIBLE_ALLOCATION : Z := 16777216.

(** ** Size classes *)

(** [get_item_size_from_index]: [1 << 3 << index] on Go's [uint]
    (64 bits wide here). *)
Definition get_item_size_from_index (index : Z) : Z :=
  uint64 (Z.shiftl (Z.shiftl 1 3) index).

(** One statement [v |= v >> s] of [nextPowerOf2GT8]. *)
Definition smear (s v : Z) : Z := Z.lor v (Z.shiftr v s).

Definition nextPowerOf2GT8 (v : Z) : Z :=
  if v <? 8 then 8
  else
    let v := uint32 (v - 1) in
    let v := smear 1 v in
    let v := smear 2 v in
    let v := smear 4 v in
    let v := smear 8 v in
    let v := smear 16 v in
    uint32 (v + 1).

(** [bits.TrailingZeros32] of the Go standard library, by its documented
    behaviour: the number of trailing zero bits of [x], and 32 for 0. *)
Fixpoint tz_scan (fuel : nat) (i : Z) (x : Z) : Z :=
  match fuel with
  | O => i
  | S fuel' => if Z.testbit x i then i else tz_scan fuel' (i + 1) x
  end.

Definition TrailingZeros32 (x : Z) : Z := tz_scan 32 0 x.

(** ** Little-endian words ([encoding/binary]) *)

Definition LittleEndian_Uint32 (b : list byte) : Z :=
  match b with
  | b0 :: b1 :: b2 :: b3 :: _ =>
      Z.lor (Z.lor (Z.lor (byte_to_Z b0) (Z.shiftl (byte_to_Z b1) 8))
                   (Z.shiftl (byte_to_Z b2) 16))
            (Z.shiftl (byte_to_Z b3) 24)
  | _ => 0
  end.

Definition LittleEndian_PutUint32 (v : Z) : list byte :=
  [uint8 v; uint8 (Z.shiftr v 8); uint8 (Z.shiftr v 16); uint8 (Z.shiftr v 24)].

(** ** The allocator object *)

Record FreeingBumpHeapAllocator := mkFBHA {
  bumper : Z;
  heads : list Z;
  heap : list byte;
  max_heap_size : Z;
  ptr_offset : Z;
  total_size : Z
}.

Definition with_bumper (b : Z) (a : FreeingBumpHeapAllocator) :=
  mkFBHA b (heads a) (heap a) (max_heap_size a) (ptr_offset a) (total_size a).
Definition with_heads (h : list Z) (a : FreeingBumpHeapAllocator) :=
  mkFBHA (bumper a) h (heap a) (max_heap_size a) (ptr_offset a) (total_size a).
Definition with_heap (m : list byte) (a : FreeingBumpHeapAllocator) :=
  mkFBHA (bumper a) (heads a) m (max_heap_size a) (ptr_offset a) (total_size a).
Definition with_total_size (t : Z) (a : FreeingBumpHeapAllocator) :=
  mkFBHA (bumper a) (heads a) (heap a) (max_heap_size a) (ptr_offset a) t.

(** ** Outcomes and the state monad *)

Inductive outcome (A : Type) : Type :=
| Val (a : A)
| Err (e : string)
| Panic.
Arguments Val {A} a.
Arguments Err {A} e.
Arguments Panic {A}.

Definition M (A : Type) : Type :=
  FreeingBumpHeapAllocator -> outcome A * FreeingBumpHeapAllocator.

Definition ret {A} (a : A) : M A := fun s => (Val a, s).
Definition throw {A} (e : string) : M A := fun s => (Err e, s).
Definition bind {A B} (m : M A) (k : A -> M B) : M B :=
  fun s =>
    match m s with
    | (Val a, s') => k a s'
    | (Err e, s') => (Err e, s')
    | (Panic, s') => (Panic, s')
    end.
Definition gets {A} (f : FreeingBumpHeapAllocator -> A) : M A :=
  fun s => (Val (f s), s).
Definition modify (f : FreeingBumpHeapAllocator -> FreeingBumpHeapAllocator)
  : M unit := fun s => (Val tt, f s).

Notation "'let*' x := m 'in' k" := (bind m (fun x => k))
  (at level 10, x name, m at level 100, k at level 200).
Notation "'do' m 'then' k" := (bind m (fun _ => k))
  (at level 10, m at level 100, k at level 200).

(** ** Error values *)

Definition err_size_too_large : string := "Error: size to large".
Definition err_out_of_space : string := "Error: allocator out of space".
Definition err_invalid_pointer : string := "Invalid pointer for deallocation".

(** ** Array and heap accessors *)

(** [fbha.heads[i]], an index expression into a [[N]uint32]. *)
Definition heads_get (i : Z) : M Z :=
  fun s =>
    if (0 <=? i) && (i <? N) then
      match heads s !! Z.to_nat i with
      | Some h => (Val h, s)
      | None => (Panic, s)
      end
    else (Panic, s).

(** [fbha.heads[i] = v]. *)
Definition heads_set (i : Z) (v : Z) : M unit :=
  fun s =>
    if (0 <=? i) && (i <? N) && (i <? Z.of_nat (length (heads s))) then
      (Val tt, with_heads (<[Z.to_nat i := v]> (heads s)) s)
    else (Panic, s).

Definition heap_len (s : FreeingBumpHeapAllocator) : Z :=
  Z.of_nat (length (heap s)).

(** [set_heap]: [Data()[ptr_offset+ptr] = value]. *)
Definition set_heap (ptr : Z) (value : byte) : M unit :=
  fun s =>
    let a := uint32 (ptr_offset s + ptr) in
    if a <? heap_len s then
      (Val tt, with_heap (<[Z.to_nat a := value]> (heap s)) s)
    else (Panic, s).

(** [get_heap_byte]: [Data()[ptr_offset+ptr]]. *)
Definition get_heap_byte (ptr : Z) : M byte :=
  fun s =>
    let a := uint32 (ptr_offset s + ptr) in
    match heap s !! Z.to_nat a with
    | Some b => (Val b, s)
    | None => (Panic, s)
    end.

(** Writing the bytes [bs] into the heap from address [a] on. *)
Fixpoint store_bytes (a : nat) (bs : list byte) (m : list byte) : list byte :=
  match bs with
  | [] => m
  | b :: bs' => store_bytes (S a) bs' (<[a := b]> m)
  end.

(** [set_heap_4bytes]: [copy(Data()[lo:hi], value)] with
    [lo = ptr_offset+ptr] and [hi = ptr_offset+ptr+4], both [uint32]; the
    slice expression panics unless [lo <= hi <= len]. *)
Definition set_heap_4bytes (ptr : Z) (value : list byte) : M unit :=
  fun s =>
    let lo := uint32 (ptr_offset s + ptr) in
    let hi := uint32 (uint32 (ptr_offset s + ptr) + 4) in
    if (lo <=? hi) && (hi <=? heap_len s) then
      (Val tt,
       with_heap (store_bytes (Z.to_nat lo)
                    (take (Z.to_nat (hi - lo)) value) (heap s)) s)
    else (Panic, s).

(** [get_heap_4bytes]: the slice [Data()[lo:hi]]. *)
Definition get_heap_4bytes (ptr : Z) : M (list byte) :=
  fun s =>
    let lo := uint32 (ptr_offset s + ptr) in
    let hi := uint32 (uint32 (ptr_offset s + ptr) + 4) in
    if (lo <=? hi) && (hi <=? heap_len s) then
      (Val (take (Z.to_nat (hi - lo)) (drop (Z.to_nat lo) (heap s))), s)
    else (Panic, s).

(** ** [bump] *)

Definition bump (n : Z) : M Z :=
  let* res := gets bumper in
  do modify (fun s => with_bumper (uint32 (bumper s + n)) s) then
  ret res.

(** ** [newAllocator] *)

Definition newAllocator (mem : list byte) (ptr_offset : Z)
  : FreeingBumpHeapAllocator :=
  let current_size := uint32 (Z.of_nat (length mem)) in
  let heap_size := uint32 (current_size - ptr_offset) in
  let padding := ptr_offset mod ALIGNMENT in
  let ptr_offset :=
    if negb (padding =? 0) then uint32 (ptr_offset + (ALIGNMENT - padding))
    else ptr_offset in
  {| bumper := 0;
     heads := replicate (Z.to_nat N) 0;
     heap := mem;
     max_heap_size := heap_size;
     ptr_offset := ptr_offset;
     total_size := 0 |}.

(** ** [allocate] *)

(** The loop [for i := uint32(1); i <= 8; i++ { set_heap(ptr-i, 255) }],
    with [n] iterations left and the counter at [i]. *)
Fixpoint write_sentinels (n : nat) (i : Z) (ptr : Z) : M unit :=
  match n with
  | O => ret tt
  | S n' =>
      do set_heap (uint32 (ptr - i)) xff then
      write_sentinels n' (i + 1) ptr
  end.

(** The two branches of [allocate] that produce [ptr]. *)
Definition take_from_free_list (list_index item : Z) : M Z :=
  let* four_bytes := get_heap_4bytes item in
  do heads_set list_index (LittleEndian_Uint32 four_bytes) then
  ret (uint32 (item + 8)).

Definition take_from_bump (item_size : Z) : M Z :=
  let* res := bump (uint32 (item_size + 8)) in
  ret (uint32 (res + 8)).

Definition allocate (size : Z) : M Z :=
  if MAX_POSSIBLE_ALLOCATION <? size then throw err_size_too_large
  else
    let item_size := nextPowerOf2GT8 size in
    let* total := gets total_size in
    let* limit := gets max_heap_size in
    if limit <? uint32 (item_size + 8 + total) then throw err_out_of_space
    else
      let list_index := TrailingZeros32 item_size - 3 in
      let* head := heads_get list_index in
      let* ptr :=
        (if negb (head =? 0) then take_from_free_list list_index head
         else take_from_bump item_size) in
      do write_sentinels 8 1 ptr then
      do set_heap (uint32 (ptr - 8)) (uint8 list_index) then
      do modify (fun s =>
                   with_total_size (uint32 (total_size s + item_size + 8)) s) then
      let* ofs := gets ptr_offset in
      ret (uint32 (ofs + ptr)).

(** ** [deallocate] *)

Definition deallocate (pointer : Z) : M unit :=
  let* ofs := gets ptr_offset in
  let ptr := uint32 (pointer - ofs) in
  if ptr <? 8 then throw err_invalid_pointer
  else
    let* list_index := get_heap_byte (uint32 (ptr - 8)) in
    let list_index := byte_to_Z list_index in
    let* tail := heads_get list_index in
    do heads_set list_index (uint32 (ptr - 8)) then
    let bTail := LittleEndian_PutUint32 tail in
    do set_heap_4bytes (uint32 (ptr - 8)) bTail then
    let item_size := get_item_size_from_index list_index in
    do modify (fun s =>
                 with_total_size
                   (uint32 (total_size s - uint32 (item_size + 8))) s) then
    ret tt.

(** ** The median of the slot-timing module *)

(** [sort.Slice(l, func(i, j int) bool { return l[i] < l[j] })]: the
    library sorts the slice in increasing order. *)
Definition sort_Slice (l : list Z) : list Z := merge_sort Z.le l.

Definition err_empty_list : string := "Arrival times list is empty!".

(** [median]; [m/2] is Go's integer division on a non-negative [int],
    an index expression out of range panics, and the sum of two [uint64]
    wraps. *)
Definition median (l : list Z) : outcome Z :=
  let l := sort_Slice l in
  let m := Z.of_nat (length l) in
  if m =? 0 then Err err_empty_list
  else if m mod 2 =? 0 then
    match l !! Z.to_nat (m / 2 - 1), l !! Z.to_nat (m / 2 + 1) with
    | Some a, Some b => Val (uint64 (a + b) / 2)
    | _, _ => Panic
    end
  else
    match l !! Z.to_nat (m / 2) with
    | Some x => Val x
    | None => Panic
    end.

(** ** [slotOffset] of the slot-timing module *)

Definition err_slot_offset : string :=
  "Slot end time less than or equal to slot start time!".

(** [slotOffset]: the subtraction is on [uint64] and is made before the
    comparison. *)
Definition slotOffset (start end_ : Z) : outcome Z :=
  let os := uint64 (end_ - start) in
  if end_ <=? start then Err err_slot_offset else Val os.

(** ** Sequences of calls *)

Inductive op : Type :=
| Allocate (size : Z)
| Deallocate (pointer : Z).

(** A heap of [n] zero bytes. *)
Definition zero_mem (n : nat) : list byte := replicate n x00.

(** ** Notions used by the properties *)

(** [filled w m x]: no bit of [x] above [m] is set and the [w] bits from
    [m] downwards are all set. *)
Definition filled (w m x : Z) : Prop :=
  (forall i, m < i -> Z.testbit x i = false) /\
  (forall i, 0 <= i -> m - w < i <= m -> Z.testbit x i = true).

(** The size class of a request: what [allocate] computes as
    [list_index] from [item_size]. *)
Definition class_index (size : Z) : Z :=
  TrailingZeros32 (nextPowerOf2GT8 size) - 3.

(** The bytes a block of a request takes: payload and header. *)
Definition block_bytes (size : Z) : Z := nextPowerOf2GT8 size + 8.

(** A computation that never returns an [error] value. *)
Definition never_errs {A} (m : M A) : Prop :=
  forall s e s', m s <> (Err e, s').

(** The free-list link kept in the first four bytes of a block at heap
    address [a]. *)
Definition read_link (m : list byte) (a : Z) : Z :=
  LittleEndian_Uint32 (take 4 (drop (Z.to_nat a) m)).

(** The heap address [set_heap] is given for [ptr - k]. *)
Definition hdr_addr (s : FreeingBumpHeapAllocator) (ptr k : Z) : Z :=
  uint32 (ptr_offset s + uint32 (ptr - k)).

(** The part of [allocate] after its two checks. *)
Definition allocate_body (size : Z) : M Z :=
  let item_size := nextPowerOf2GT8 size in
  let list_index := TrailingZeros32 item_size - 3 in
  let* head := heads_get list_index in
  let* ptr :=
    (if negb (head =? 0) then take_from_free_list list_index head
     else take_from_bump item_size) in
  do write_sentinels 8 1 ptr then
  do set_heap (uint32 (ptr - 8)) (uint8 list_index) then
  do modify (fun s =>
               with_total_size (uint32 (total_size s + item_size + 8)) s) then
  let* ofs := gets ptr_offset in
  ret (uint32 (ofs + ptr)).

(** The part of [deallocate] after its check. *)
Definition deallocate_body (ptr : Z) : M unit :=
  let* list_index := get_heap_byte (uint32 (ptr - 8)) in
  let list_index := byte_to_Z list_index in
  let* tail := heads_get list_index in
  do heads_set list_index (uint32 (ptr - 8)) then
  let bTail := LittleEndian_PutUint32 tail in
  do set_heap_4bytes (uint32 (ptr - 8)) bTail then
  let item_size := get_item_size_from_index list_index in
  do modify (fun s =>
               with_total_size
                 (uint32 (total_size s - uint32 (item_size + 8))) s) then
  ret tt.

(** The base offset is aligned, the cursor is a multiple of 8, the heap
    is at most [2^32 - 2^24 - 16] bytes long, and the cursor is at most
    one largest block past the end of the heap. *)
Record geom (s : FreeingBumpHeapAllocator) : Prop := {
  g_off : 0 <= ptr_offset s < 2 ^ 32;
  g_off8 : ptr_offset s mod 8 = 0;
  g_bumper : 0 <= bumper s;
  g_bumper8 : bumper s mod 8 = 0;
  g_len : heap_len s + 2 ^ 24 + 16 <= 2 ^ 32;
  g_reach : bumper s = 0 \/ ptr_offset s + bumper s <= heap_len s + 2 ^ 24
}.

(** A live allocation is recorded as the pointer [allocate] returned and
    the size that was requested; a block is the offset of its header in
    the usable region together with its size class. *)
Definition entry_block (off : Z) (e : Z * Z) : Z * Z :=
  (e.1 - off - 8, class_index e.2).

Definition weight (b : Z * Z) : Z := 8 * 2 ^ b.2 + 8.

Fixpoint sumZ {A} (f : A -> Z) (l : list A) : Z :=
  match l with
  | [] => 0
  | x :: l' => f x + sumZ f l'
  end.

(** The sum, over the live allocations, of the rounded size plus the
    header. *)
Definition live_bytes (live : list (Z * Z)) : Z :=
  sumZ (fun e => block_bytes e.2) live.

(** [chain m off h c]: following the links in the heap [m] from the
    head [h] visits exactly the blocks [c] and ends with a zero link. *)
Fixpoint chain (m : list byte) (off : Z) (h : Z) (c : list Z) : Prop :=
  match c with
  | [] => h = 0
  | x :: c' => h = x /\ x <> 0 /\ chain m off (read_link m (off + x)) c'
  end.

Record block_ok (s : FreeingBumpHeapAllocator) (b : Z * Z) : Prop := {
  b_lo : 0 <= b.1 < bumper s;
  b_al : b.1 mod 8 = 0;
  b_in : ptr_offset s + b.1 + 8 <= heap_len s;
  b_ix : 0 <= b.2 < N
}.

Record inv (s : FreeingBumpHeapAllocator) (live free : list (Z * Z))
  : Prop := {
  i_geom : geom s;
  i_heads : length (heads s) = Z.to_nat N;
  i_blocks :
    Forall (block_ok s) ((entry_block (ptr_offset s) <$> live) ++ free);
  i_nodup : NoDup (((entry_block (ptr_offset s) <$> live) ++ free).*1);
  i_size : Forall (fun e => e.2 <= MAX_POSSIBLE_ALLOCATION) live;
  i_hdr :
    Forall (fun e => heap s !! Z.to_nat (e.1 - 8)
                     = Some (uint8 (class_index e.2))) live;
  i_chain :
    forall i, 0 <= i < N ->
      exists h c,
        heads s !! Z.to_nat i = Some h /\
        chain (heap s) (ptr_offset s) h c /\
        NoDup c /\ forall x, x ∈ c -> (x, i) ∈ free;
  i_total : total_size s = live_bytes live;
  i_weight : live_bytes live + sumZ weight free <= bumper s
}.

(** Calls in sequence.  [run_live] follows the live allocations: a
    returning [allocate] adds its pointer, [deallocate] is only called
    on a live pointer and removes it, an [allocate] that returns an
    error is skipped, and a panic ends the run. *)
Fixpoint lookup_live (p : Z) (live : list (Z * Z)) : option Z :=
  match live with
  | [] => None
  | e :: live' => if e.1 =? p then Some e.2 else lookup_live p live'
  end.

Fixpoint remove_live (p : Z) (live : list (Z * Z)) : list (Z * Z) :=
  match live with
  | [] => []
  | e :: live' => if e.1 =? p then live' else e :: remove_live p live'
  end.

Fixpoint run_live (ops : list op) (s : FreeingBumpHeapAllocator)
    (live : list (Z * Z)) : option (FreeingBumpHeapAllocator * list (Z * Z)) :=
  match ops with
  | [] => Some (s, live)
  | Allocate size :: ops' =>
      match allocate size s with
      | (Val p, s') => run_live ops' s' ((p, size) :: live)
      | (Err _, s') => run_live ops' s' live
      | (Panic, _) => None
      end
  | Deallocate p :: ops' =>
      match lookup_live p live with
      | Some _ =>
          match deallocate p s with
          | (Val _, s') => run_live ops' s' (remove_live p live)
          | _ => None
          end
      | None => None
      end
  end.

(** The pointers returned by the [allocate] calls of an arbitrary
    sequence of calls, which stops at the first panic. *)
Fixpoint returned_pointers (ops : list op) (s : FreeingBumpHeapAllocator)
  : list Z :=
  match ops with
  | [] => []
  | Allocate size :: ops' =>
      match allocate size s with
      | (Val p, s') => p :: returned_pointers ops' s'
      | (Err _, s') => returned_pointers ops' s'
      | (Panic, _) => []
      end
  | Deallocate p :: ops' =>
      match deallocate p s with
      | (Val _, s') => returned_pointers ops' s'
      | (Err _, s') => returned_pointers ops' s'
      | (Panic, _) => []
      end
  end.

(** The final state of an arbitrary sequence of calls; a panic ends the
    program. *)
Fixpoint run (ops : list op) (s : FreeingBumpHeapAllocator)
  : option FreeingBumpHeapAllocator :=
  match ops with
  | [] => Some s
  | Allocate size :: ops' =>
      match allocate size s with
      | (Panic, _) => None
      | (_, s') => run ops' s'
      end
  | Deallocate p :: ops' =>
      match deallocate p s with
      | (Panic, _) => None
      | (_, s') => run ops' s'
      end
  end.

Record cursor_inv (s : FreeingBumpHeapAllocator) : Prop := {
  c_geom : geom s;
  c_heads : Forall (fun h => 0 <= h < 2 ^ 32) (heads s)
}.

(** A heap whose first byte, read as a size class, is 22. *)
Definition corrupt_mem : list byte := x16 :: zero_mem 63.

(** ** Heaps close to 4 GiB *)

(** A zero heap of 65535 wasm pages of 64 KiB: [2^32 - 2^16] bytes. *)
Definition big_mem : list byte := replicate (Z.to_nat (2 ^ 32 - 2 ^ 16)) x00.

(** The cursor after bump allocations of the given sizes, starting at
    [c]. *)
Fixpoint bumped (c : Z) (sizes : list Z) : Z :=
  match sizes with
  | [] => c
  | size :: sizes' => bumped (uint32 (c + block_bytes size)) sizes'
  end.

(** The tests that make each of these allocations return from the bump
    path when every block so far is live, on a heap of [L] bytes with
    base offset 0: the size check, the cursor at least at [lo], the
    header inside the heap, and the space check of [allocate]. *)
Fixpoint bumps_ok (lo L c : Z) (sizes : list Z) : bool :=
  match sizes with
  | [] => true
  | size :: sizes' =>
      (size <=? MAX_POSSIBLE_ALLOCATION) && (lo <=? c) && (c + 8 <=? L)
      && (uint32 (nextPowerOf2GT8 size + 8 + c) <=? L)
      && bumps_ok lo L (uint32 (c + block_bytes size)) sizes'
  end.

(** An allocator with base offset 0 over [L] bytes in which nothing was
    ever freed: cursor and bytes in use are both [c]. *)
Record bump_state (L c : Z) (s : FreeingBumpHeapAllocator) : Prop := {
  bs_bumper : bumper s = c;
  bs_total : total_size s = c;
  bs_heads : heads s = replicate (Z.to_nat N) 0;
  bs_off : ptr_offset s = 0;
  bs_max : max_heap_size s = L;
  bs_len : heap_len s = L
}.

(** The blocks that take the cursor from 16 to [2^32 - 2^24 - 8]. *)
Definition fill_sizes : list Z :=
  replicate 254 16777216 ++
  [8388608; 4194304; 2097152; 1048576; 524288; 262144; 131072; 65536;
   32768; 16384; 8192; 4096; 1024; 512; 256; 64; 32; 8].

Arguments uint32 : simpl never.
Arguments uint64 : simpl never.
Arguments nextPowerOf2GT8 : simpl never.
Arguments TrailingZeros32 : simpl never.
Arguments get_item_size_from_index : simpl never.
Arguments LittleEndian_Uint32 : simpl never.
Arguments LittleEndian_PutUint32 : simpl never.

(** * Properties *)

(** ** Machine integers *)

Lemma uint32_range z : 0 <= uint32 z < 2 ^ 32.
Proof. unfold uint32. apply Z.mod_pos_bound. lia. Qed.

Lemma uint32_small z : 0 <= z < 2 ^ 32 -> uint32 z = z.
Proof. intros H. unfold uint32. apply Z.mod_small. exact H. Qed.

Lemma byte_to_Z_range b : 0 <= byte_to_Z b < 256.
Proof.
  unfold byte_to_Z. pose proof (Byte.to_N_bounded b). lia.
Qed.

Lemma byte_to_Z_uint8 z : byte_to_Z (uint8 z) = z mod 256.
Proof.
  unfold byte_to_Z, uint8.
  assert (Hr : 0 <= z mod 256 < 256) by (apply Z.mod_pos_bound; lia).
  destruct (Byte.of_N (Z.to_N (z mod 256))) as [b|] eqn:E.
  - apply Byte.to_of_N in E. rewrite E. lia.
  - apply Byte.of_N_None_iff in E. lia.
Qed.

Lemma byte_to_Z_uint8_small z : 0 <= z < 256 -> byte_to_Z (uint8 z) = z.
Proof. intros H. rewrite byte_to_Z_uint8. apply Z.mod_small. exact H. Qed.

(** ** Size-class arithmetic *)

Lemma smear_filled s w m x :
  0 <= s <= w -> filled w m x -> filled (w + s) m (smear s x).
Proof.
  intros Hs [Hhi Hlo]. unfold smear. split.
  - intros i Hi. destruct (Z_lt_dec i 0) as [Hneg|Hpos].
    { apply Z.testbit_neg_r. lia. }
    rewrite Z.lor_spec, Z.shiftr_spec by lia.
    rewrite !Hhi by lia. reflexivity.
  - intros i Hi0 Hi. rewrite Z.lor_spec, Z.shiftr_spec by lia.
    destruct (Z_lt_dec (m - w) i) as [Hin|Hout].
    + rewrite (Hlo i) by lia. reflexivity.
    + rewrite (Hlo (i + s)) by lia. apply orb_true_r.
Qed.

Lemma filled_ones m x : 0 <= m -> filled (m + 1) m x -> x = 2 ^ (m + 1) - 1.
Proof.
  intros Hm [Hhi Hlo].
  replace (2 ^ (m + 1) - 1) with (Z.ones (m + 1))
    by (rewrite Z.ones_equiv; lia).
  apply Z.bits_inj'.
  intros i Hi. destruct (Z_lt_dec m i) as [Hgt|Hle].
  - rewrite Hhi by lia. symmetry. apply Z.ones_spec_high. lia.
  - rewrite Hlo by lia. symmetry. apply Z.ones_spec_low. lia.
Qed.

Lemma filled_weaken w w' m x : w' <= w -> filled w m x -> filled w' m x.
Proof. intros Hw [Hhi Hlo]. split; [exact Hhi|]. intros i ? ?. apply Hlo; lia. Qed.

Lemma filled_log2 x : 0 < x -> filled 1 (Z.log2 x) x.
Proof.
  intros Hx. split.
  - intros i Hi. apply Z.bits_above_log2; lia.
  - intros i _ Hi. replace i with (Z.log2 x) by lia. apply Z.bit_log2. lia.
Qed.

(** Above 8, and as long as the result fits 32 bits, [nextPowerOf2GT8]
    is the least power of two that is at least its argument. *)
Lemma nextPowerOf2GT8_pow2 v :
  8 <= v <= 2 ^ 31 ->
  exists k, 3 <= k <= 31 /\ nextPowerOf2GT8 v = 2 ^ k /\ 2 ^ (k - 1) < v <= 2 ^ k.
Proof.
  intros Hv. unfold nextPowerOf2GT8.
  destruct (Z.ltb_spec v 8) as [?|_]; [lia|].
  rewrite (uint32_small (v - 1)) by lia.
  set (x := v - 1). assert (Hx : 7 <= x < 2 ^ 31) by (unfold x; lia).
  set (m := Z.log2 x).
  assert (Hm : 2 <= m < 31).
  { unfold m. split.
    - change 2 with (Z.log2 7). apply Z.log2_le_mono. lia.
    - apply Z.log2_lt_pow2; lia. }
  destruct (Z.log2_spec x) as [Hlo Hhi]; [lia|]. fold m in Hlo, Hhi.
  replace (Z.succ m) with (m + 1) in Hhi by lia.
  assert (Hf : filled 32 m (smear 16 (smear 8 (smear 4 (smear 2 (smear 1 x)))))).
  { change 32 with (16 + 16). apply smear_filled; [lia|].
    change 16 with (8 + 8) at 1. apply smear_filled; [lia|].
    change 8 with (4 + 4) at 1. apply smear_filled; [lia|].
    change 4 with (2 + 2) at 1. apply smear_filled; [lia|].
    change 2 with (1 + 1) at 1. apply smear_filled; [lia|].
    apply filled_log2. lia. }
  apply (filled_weaken 32 (m + 1)) in Hf; [|lia].
  apply filled_ones in Hf; [|lia]. rewrite Hf.
  assert (Hp : 2 ^ (m + 1) <= 2 ^ 31) by (apply Z.pow_le_mono_r; lia).
  exists (m + 1). replace (m + 1 - 1) with m by lia.
  split; [lia|]. split.
  - replace (2 ^ (m + 1) - 1 + 1) with (2 ^ (m + 1)) by lia.
    apply uint32_small. lia.
  - unfold x in *. lia.
Qed.

Lemma tz_scan_finds fuel i k x :
  0 <= i <= k ->
  (Z.to_nat (k - i) < fuel)%nat ->
  (forall j, i <= j < k -> Z.testbit x j = false) ->
  Z.testbit x k = true ->
  tz_scan fuel i x = k.
Proof.
  revert i. induction fuel as [|fuel IH]; intros i Hi Hf Hz Hk; [lia|].
  simpl. destruct (Z.eq_dec i k) as [->|Hne].
  - rewrite Hk. reflexivity.
  - rewrite Hz by lia. apply IH; [lia | lia | | exact Hk].
    intros j Hj. apply Hz. lia.
Qed.

Lemma TrailingZeros32_pow2 k : 0 <= k < 32 -> TrailingZeros32 (2 ^ k) = k.
Proof.
  intros Hk. unfold TrailingZeros32. apply tz_scan_finds; try lia.
  - intros j Hj. apply Z.pow2_bits_false. lia.
  - apply Z.pow2_bits_true. lia.
Qed.

Lemma size_class_facts size :
  size <= MAX_POSSIBLE_ALLOCATION ->
  0 <= class_index size < N /\
  nextPowerOf2GT8 size = 8 * 2 ^ class_index size /\
  get_item_size_from_index (class_index size) = nextPowerOf2GT8 size /\
  8 <= nextPowerOf2GT8 size <= MAX_POSSIBLE_ALLOCATION.
Proof.
  unfold MAX_POSSIBLE_ALLOCATION, N. intros Hs.
  assert (Hk : exists k, 3 <= k <= 24 /\ nextPowerOf2GT8 size = 2 ^ k).
  { destruct (Z_lt_dec size 8) as [Hlt|Hge].
    - exists 3. split; [lia|]. unfold nextPowerOf2GT8.
      destruct (Z.ltb_spec size 8); [reflexivity|lia].
    - destruct (nextPowerOf2GT8_pow2 size) as (k & Hk & Hv & Hlo & Hhi); [lia|].
      exists k. split; [|exact Hv]. split; [lia|].
      assert (k - 1 < 24); [|lia].
      apply Z.pow_lt_mono_r_iff with (a := 2); lia. }
  destruct Hk as (k & Hk & Hv). unfold class_index. rewrite Hv.
  rewrite TrailingZeros32_pow2 by lia.
  assert (H8 : 8 * 2 ^ (k - 3) = 2 ^ k).
  { change 8 with (2 ^ 3). rewrite <- Z.pow_add_r by lia. f_equal. lia. }
  assert (Hp : 2 ^ 3 <= 2 ^ k <= 2 ^ 24) by (split; apply Z.pow_le_mono_r; lia).
  repeat split; try lia.
  unfold get_item_size_from_index, uint64.
  rewrite !Z.shiftl_mul_pow2 by lia. change (1 * 2 ^ 3) with 8.
  rewrite H8. apply Z.mod_small. lia.
Qed.

(** ** Reasoning about the monad *)

Ltac zbool :=
  repeat match goal with
  | H : (_ && _) = true |- _ => apply andb_true_iff in H; destruct H
  | H : (_ <? _) = true |- _ => apply Z.ltb_lt in H
  | H : (_ <? _) = false |- _ => apply Z.ltb_ge in H
  | H : (_ <=? _) = true |- _ => apply Z.leb_le in H
  | H : (_ <=? _) = false |- _ => apply Z.leb_gt in H
  | H : (_ =? _) = true |- _ => apply Z.eqb_eq in H
  | H : (_ =? _) = false |- _ => apply Z.eqb_neq in H
  | H : negb _ = true |- _ => apply negb_true_iff in H
  | H : negb _ = false |- _ => apply negb_false_iff in H
  end.

Lemma bind_val {A B} (m : M A) (k : A -> M B) s b s' :
  bind m k s = (Val b, s') ->
  exists a s1, m s = (Val a, s1) /\ k a s1 = (Val b, s').
Proof.
  unfold bind. destruct (m s) as [[a|e|] s1]; intros H;
    [eauto | discriminate | discriminate].
Qed.

Lemma never_errs_bind {A B} (m : M A) (k : A -> M B) :
  never_errs m -> (forall a, never_errs (k a)) -> never_errs (bind m k).
Proof.
  intros Hm Hk s e s' H. unfold bind in H.
  destruct (m s) as [[a|e1|] s1] eqn:E.
  - exact (Hk a s1 e s' H).
  - exact (Hm s e1 s1 E).
  - discriminate.
Qed.

Lemma never_errs_ret {A} (a : A) : never_errs (ret a).
Proof. intros s e s' H. discriminate. Qed.

Lemma never_errs_gets {A} (f : FreeingBumpHeapAllocator -> A) :
  never_errs (gets f).
Proof. intros s e s' H. discriminate. Qed.

Lemma never_errs_modify f : never_errs (modify f).
Proof. intros s e s' H. discriminate. Qed.

Lemma never_errs_heads_get i : never_errs (heads_get i).
Proof.
  intros s e s' H. unfold heads_get in H.
  destruct ((0 <=? i) && (i <? N)); [|discriminate].
  destruct (heads s !! Z.to_nat i); discriminate.
Qed.

Lemma never_errs_heads_set i v : never_errs (heads_set i v).
Proof.
  intros s e s' H. unfold heads_set in H.
  destruct ((0 <=? i) && (i <? N) && (i <? Z.of_nat (length (heads s))));
    discriminate.
Qed.

Lemma never_errs_set_heap ptr v : never_errs (set_heap ptr v).
Proof.
  intros s e s' H. unfold set_heap in H.
  destruct (uint32 (ptr_offset s + ptr) <? heap_len s); discriminate.
Qed.

Lemma never_errs_get_heap_byte ptr : never_errs (get_heap_byte ptr).
Proof.
  intros s e s' H. unfold get_heap_byte in H.
  destruct (heap s !! Z.to_nat (uint32 (ptr_offset s + ptr))); discriminate.
Qed.

Lemma never_errs_set_heap_4bytes ptr v : never_errs (set_heap_4bytes ptr v).
Proof.
  intros s e s' H. unfold set_heap_4bytes in H.
  destruct (_ && _); discriminate.
Qed.

Lemma never_errs_get_heap_4bytes ptr : never_errs (get_heap_4bytes ptr).
Proof.
  intros s e s' H. unfold get_heap_4bytes in H.
  destruct (_ && _); discriminate.
Qed.

Create HintDb never_errs_db.
#[local] Hint Resolve never_errs_ret never_errs_gets never_errs_modify
  never_errs_heads_get never_errs_heads_set never_errs_set_heap
  never_errs_get_heap_byte never_errs_set_heap_4bytes
  never_errs_get_heap_4bytes : never_errs_db.

Ltac never_errs_tac :=
  repeat (apply never_errs_bind; [|intros ?]); auto with never_errs_db.

Lemma never_errs_bump n : never_errs (bump n).
Proof. unfold bump. never_errs_tac. Qed.

Lemma never_errs_write_sentinels n i ptr : never_errs (write_sentinels n i ptr).
Proof.
  revert i. induction n as [|n IH]; intros i; simpl.
  - apply never_errs_ret.
  - apply never_errs_bind; [apply never_errs_set_heap|]. intros _. apply IH.
Qed.

#[local] Hint Resolve never_errs_bump never_errs_write_sentinels
  : never_errs_db.

Lemma never_errs_take_from_free_list i item :
  never_errs (take_from_free_list i item).
Proof. unfold take_from_free_list. never_errs_tac. Qed.

Lemma never_errs_take_from_bump n : never_errs (take_from_bump n).
Proof. unfold take_from_bump. never_errs_tac. Qed.

#[local] Hint Resolve never_errs_take_from_free_list never_errs_take_from_bump
  : never_errs_db.

(** ** The primitives, when they return *)

Lemma heads_get_val i s h s' :
  heads_get i s = (Val h, s') ->
  s' = s /\ 0 <= i < N /\ heads s !! Z.to_nat i = Some h.
Proof.
  unfold heads_get. destruct ((0 <=? i) && (i <? N)) eqn:E; [|discriminate].
  destruct (heads s !! Z.to_nat i) eqn:E2; [|discriminate].
  intros H. injection H as <- <-. zbool. auto with lia.
Qed.

Lemma heads_set_val i v s s' :
  heads_set i v s = (Val tt, s') ->
  s' = with_heads (<[Z.to_nat i := v]> (heads s)) s.
Proof.
  unfold heads_set. destruct (_ && _); [|discriminate].
  intros H. injection H as <-. reflexivity.
Qed.

Lemma set_heap_val ptr v s s' :
  set_heap ptr v s = (Val tt, s') ->
  uint32 (ptr_offset s + ptr) < heap_len s /\
  s' = with_heap (<[Z.to_nat (uint32 (ptr_offset s + ptr)) := v]> (heap s)) s.
Proof.
  unfold set_heap.
  destruct (uint32 (ptr_offset s + ptr) <? heap_len s) eqn:E; [|discriminate].
  intros H. injection H as <-. zbool. auto.
Qed.

Lemma get_heap_byte_val ptr s b s' :
  get_heap_byte ptr s = (Val b, s') ->
  s' = s /\ heap s !! Z.to_nat (uint32 (ptr_offset s + ptr)) = Some b.
Proof.
  unfold get_heap_byte.
  destruct (heap s !! Z.to_nat (uint32 (ptr_offset s + ptr))) eqn:E;
    [|discriminate].
  intros H. injection H as <- <-. auto.
Qed.

Lemma set_heap_4bytes_val ptr v s s' :
  set_heap_4bytes ptr v s = (Val tt, s') ->
  let lo := uint32 (ptr_offset s + ptr) in
  let hi := uint32 (lo + 4) in
  lo <= hi <= heap_len s /\
  s' = with_heap (store_bytes (Z.to_nat lo) (take (Z.to_nat (hi - lo)) v)
                    (heap s)) s.
Proof.
  unfold set_heap_4bytes. cbv zeta.
  destruct (_ && _) eqn:E; [|discriminate].
  intros H. injection H as <-. zbool. auto.
Qed.

Lemma get_heap_4bytes_val ptr s bs s' :
  get_heap_4bytes ptr s = (Val bs, s') ->
  let lo := uint32 (ptr_offset s + ptr) in
  let hi := uint32 (lo + 4) in
  lo <= hi <= heap_len s /\ s' = s /\
  bs = take (Z.to_nat (hi - lo)) (drop (Z.to_nat lo) (heap s)).
Proof.
  unfold get_heap_4bytes. cbv zeta.
  destruct (_ && _) eqn:E; [|discriminate].
  intros H. injection H as <- <-. zbool. auto.
Qed.

Lemma take_from_bump_val n s ptr s' :
  take_from_bump n s = (Val ptr, s') ->
  ptr = uint32 (bumper s + 8) /\
  s' = with_bumper (uint32 (bumper s + uint32 (n + 8))) s.
Proof.
  unfold take_from_bump, bump, bind, gets, modify, ret. simpl.
  intros H. injection H as <- <-. auto.
Qed.

Lemma take_from_free_list_val i item s ptr s' :
  take_from_free_list i item s = (Val ptr, s') ->
  let lo := uint32 (ptr_offset s + item) in
  let hi := uint32 (lo + 4) in
  lo <= hi <= heap_len s /\
  ptr = uint32 (item + 8) /\
  s' = with_heads
         (<[Z.to_nat i :=
              LittleEndian_Uint32
                (take (Z.to_nat (hi - lo)) (drop (Z.to_nat lo) (heap s)))]>
            (heads s)) s.
Proof.
  unfold take_from_free_list. intros H.
  apply bind_val in H as (bs & s1 & H1 & H).
  apply get_heap_4bytes_val in H1 as (Hb & -> & ->).
  apply bind_val in H as ([] & s2 & H2 & H).
  apply heads_set_val in H2 as ->.
  unfold ret in H. injection H as <- <-. auto.
Qed.

(** ** Heap bytes *)

Lemma store_bytes_length a bs (m : list byte) :
  length (store_bytes a bs m) = length m.
Proof.
  revert a m. induction bs as [|b bs IH]; intros a m; simpl; [reflexivity|].
  rewrite IH. apply length_insert.
Qed.

Lemma store_bytes_lookup_out a bs (m : list byte) (j : nat) :
  (j < a \/ a + length bs <= j)%nat -> store_bytes a bs m !! j = m !! j.
Proof.
  revert a m. induction bs as [|b bs IH]; intros a m Hj; simpl; [reflexivity|].
  rewrite IH by (simpl in Hj; lia).
  apply list_lookup_insert_ne. simpl in Hj. lia.
Qed.

Lemma store_bytes_read a bs (m : list byte) :
  (a + length bs <= length m)%nat ->
  take (length bs) (drop a (store_bytes a bs m)) = bs.
Proof.
  revert a m. induction bs as [|b bs IH]; intros a m Hlen; simpl in *.
  - reflexivity.
  - assert (Hb : store_bytes (S a) bs (<[a:=b]> m) !! a = Some b).
    { rewrite store_bytes_lookup_out by lia.
      apply list_lookup_insert_eq. lia. }
    rewrite (drop_S _ _ _ Hb). simpl. f_equal.
    apply IH. rewrite length_insert. lia.
Qed.

Lemma take_drop_agree (m m' : list byte) a n :
  (forall j, (a <= j < a + n)%nat -> m' !! j = m !! j) ->
  take n (drop a m') = take n (drop a m).
Proof.
  intros H. apply list_eq. intros i.
  destruct (Nat.lt_ge_cases i n) as [Hlt|Hge].
  - rewrite !lookup_take_lt, !lookup_drop by lia. apply H. lia.
  - rewrite !lookup_take_ge by lia. reflexivity.
Qed.

Lemma read_link_frame (m m' : list byte) a :
  (forall j, (Z.to_nat a <= j < Z.to_nat a + 4)%nat -> m' !! j = m !! j) ->
  read_link m' a = read_link m a.
Proof. intros H. unfold read_link. f_equal. apply take_drop_agree. exact H. Qed.

Lemma testbit_byte x i :
  0 <= i -> Z.testbit (x mod 256) i = if i <? 8 then Z.testbit x i else false.
Proof.
  intros Hi. change 256 with (2 ^ 8).
  destruct (Z.ltb_spec i 8).
  - apply Z.mod_pow2_bits_low. lia.
  - apply Z.mod_pow2_bits_high. lia.
Qed.

Lemma LittleEndian_roundtrip v :
  0 <= v < 2 ^ 32 -> LittleEndian_Uint32 (LittleEndian_PutUint32 v) = v.
Proof.
  intros Hv. unfold LittleEndian_Uint32, LittleEndian_PutUint32.
  rewrite !byte_to_Z_uint8. apply Z.bits_inj'. intros i Hi.
  rewrite !Z.lor_spec, !Z.shiftl_spec by lia.
  assert (Hhigh : 32 <= i -> Z.testbit v i = false).
  { intros H32. rewrite <- (Z.mod_small v (2 ^ 32)) by lia.
    apply Z.mod_pow2_bits_high. lia. }
  destruct (Z_lt_dec i 8); [|destruct (Z_lt_dec i 16);
    [|destruct (Z_lt_dec i 24); [|destruct (Z_lt_dec i 32)]]].
  - rewrite testbit_byte by lia.
    rewrite !(Z.testbit_neg_r _ (i - _)) by lia.
    destruct (Z.ltb_spec i 8); [|lia]. rewrite !orb_false_r. reflexivity.
  - rewrite (testbit_byte v) by lia. rewrite (testbit_byte _ (i - 8)) by lia.
    rewrite !(Z.testbit_neg_r _ (i - 16)), !(Z.testbit_neg_r _ (i - 24)) by lia.
    destruct (Z.ltb_spec i 8); [lia|]. destruct (Z.ltb_spec (i - 8) 8); [|lia].
    rewrite Z.shiftr_spec by lia. rewrite !orb_false_r. simpl.
    f_equal. lia.
  - rewrite (testbit_byte v) by lia. rewrite (testbit_byte _ (i - 8)) by lia.
    rewrite (testbit_byte _ (i - 16)) by lia.
    rewrite !(Z.testbit_neg_r _ (i - 24)) by lia.
    destruct (Z.ltb_spec i 8); [lia|]. destruct (Z.ltb_spec (i - 8) 8); [lia|].
    destruct (Z.ltb_spec (i - 16) 8); [|lia].
    rewrite Z.shiftr_spec by lia. rewrite !orb_false_r. simpl.
    f_equal. lia.
  - rewrite (testbit_byte v) by lia. rewrite (testbit_byte _ (i - 8)) by lia.
    rewrite (testbit_byte _ (i - 16)) by lia.
    rewrite (testbit_byte _ (i - 24)) by lia.
    destruct (Z.ltb_spec i 8); [lia|]. destruct (Z.ltb_spec (i - 8) 8); [lia|].
    destruct (Z.ltb_spec (i - 16) 8); [lia|].
    destruct (Z.ltb_spec (i - 24) 8); [|lia].
    rewrite Z.shiftr_spec by lia. simpl. f_equal. lia.
  - rewrite (testbit_byte v) by lia. rewrite (testbit_byte _ (i - 8)) by lia.
    rewrite (testbit_byte _ (i - 16)) by lia.
    rewrite (testbit_byte _ (i - 24)) by lia.
    destruct (Z.ltb_spec i 8); [lia|]. destruct (Z.ltb_spec (i - 8) 8); [lia|].
    destruct (Z.ltb_spec (i - 16) 8); [lia|].
    destruct (Z.ltb_spec (i - 24) 8); [lia|].
    rewrite Hhigh by lia. reflexivity.
Qed.

Lemma with_heap_id s : with_heap (heap s) s = s.
Proof. destruct s. reflexivity. Qed.

Lemma write_sentinels_val n i ptr s s' :
  write_sentinels n i ptr s = (Val tt, s') ->
  exists h',
    s' = with_heap h' s /\ length h' = length (heap s) /\
    (forall k, i <= k < i + Z.of_nat n -> hdr_addr s ptr k < heap_len s) /\
    (forall j : nat,
       (forall k, i <= k < i + Z.of_nat n -> j <> Z.to_nat (hdr_addr s ptr k)) ->
       h' !! j = heap s !! j).
Proof.
  revert i s. induction n as [|n IH]; intros i s H.
  - simpl in H. unfold ret in H. injection H as <-.
    exists (heap s). rewrite with_heap_id.
    repeat split; try reflexivity. intros k Hk. lia.
  - simpl in H. apply bind_val in H as ([] & s1 & H1 & H).
    apply set_heap_val in H1 as (Hlt & ->).
    apply IH in H as (h' & -> & Hlen & Hin & Hout).
    simpl in Hlen. rewrite length_insert in Hlen.
    exists h'. split; [reflexivity|]. split; [exact Hlen|]. split.
    + intros k Hk. destruct (Z.eq_dec k i) as [->|Hne]; [exact Hlt|].
      specialize (Hin k). unfold hdr_addr, heap_len in Hin. simpl in Hin.
      rewrite length_insert in Hin. apply Hin. lia.
    + intros j Hj. rewrite Hout.
      * simpl. apply list_lookup_insert_ne.
        intros Heq. apply (Hj i); [lia|]. symmetry. exact Heq.
      * intros k Hk. apply Hj. lia.
Qed.

(** ** [allocate] and [deallocate], case by case *)

Lemma allocate_too_large size s :
  MAX_POSSIBLE_ALLOCATION < size ->
  allocate size s = (Err err_size_too_large, s).
Proof.
  intros H. unfold allocate.
  destruct (Z.ltb_spec MAX_POSSIBLE_ALLOCATION size); [reflexivity|lia].
Qed.

Lemma allocate_out_of_space size s :
  size <= MAX_POSSIBLE_ALLOCATION ->
  max_heap_size s < uint32 (nextPowerOf2GT8 size + 8 + total_size s) ->
  allocate size s = (Err err_out_of_space, s).
Proof.
  intros H1 H2. unfold allocate.
  destruct (Z.ltb_spec MAX_POSSIBLE_ALLOCATION size); [lia|].
  unfold bind at 1 2. unfold gets at 1 2.
  destruct (Z.ltb_spec (max_heap_size s)
              (uint32 (nextPowerOf2GT8 size + 8 + total_size s)));
    [reflexivity|lia].
Qed.

Lemma allocate_passes size s :
  size <= MAX_POSSIBLE_ALLOCATION ->
  uint32 (nextPowerOf2GT8 size + 8 + total_size s) <= max_heap_size s ->
  allocate size s = allocate_body size s.
Proof.
  intros H1 H2. unfold allocate.
  destruct (Z.ltb_spec MAX_POSSIBLE_ALLOCATION size); [lia|].
  unfold bind at 1 2. unfold gets at 1 2.
  destruct (Z.ltb_spec (max_heap_size s)
              (uint32 (nextPowerOf2GT8 size + 8 + total_size s))); [lia|].
  reflexivity.
Qed.

Lemma never_errs_allocate_body size : never_errs (allocate_body size).
Proof.
  unfold allocate_body. cbv zeta.
  apply never_errs_bind; [auto with never_errs_db|]. intros head.
  apply never_errs_bind.
  { destruct (negb (head =? 0)); auto with never_errs_db. }
  intros ptr. never_errs_tac.
Qed.

(** The three ways through the checks of [allocate]. *)
Lemma allocate_cases size s :
  (MAX_POSSIBLE_ALLOCATION < size /\
   allocate size s = (Err err_size_too_large, s)) \/
  (size <= MAX_POSSIBLE_ALLOCATION /\
   max_heap_size s < uint32 (nextPowerOf2GT8 size + 8 + total_size s) /\
   allocate size s = (Err err_out_of_space, s)) \/
  (size <= MAX_POSSIBLE_ALLOCATION /\
   uint32 (nextPowerOf2GT8 size + 8 + total_size s) <= max_heap_size s /\
   allocate size s = allocate_body size s).
Proof.
  destruct (Z_lt_dec MAX_POSSIBLE_ALLOCATION size) as [Hbig|Hok].
  - left. split; [exact Hbig|]. apply allocate_too_large. exact Hbig.
  - right.
    destruct (Z_lt_dec (max_heap_size s)
                (uint32 (nextPowerOf2GT8 size + 8 + total_size s)))
      as [Hfull|Hfits].
    + left. split; [lia|]. split; [exact Hfull|].
      apply allocate_out_of_space; [lia | exact Hfull].
    + right. split; [lia|]. split; [lia|]. apply allocate_passes; lia.
Qed.

Lemma allocate_err size s e s' :
  allocate size s = (Err e, s') ->
  s' = s /\
  ((e = err_size_too_large /\ MAX_POSSIBLE_ALLOCATION < size) \/
   (e = err_out_of_space /\ size <= MAX_POSSIBLE_ALLOCATION /\
    max_heap_size s < uint32 (nextPowerOf2GT8 size + 8 + total_size s))).
Proof.
  intros H.
  destruct (allocate_cases size s) as [(Hb & E)|[(Hb & Hf & E)|(Hb & Hf & E)]];
    rewrite E in H.
  - injection H as <- <-. auto.
  - injection H as <- <-. auto.
  - exfalso. exact (never_errs_allocate_body size s e s' H).
Qed.

(** What a returning [allocate] did: the head it read, the branch it
    took, the header it wrote and the pointer it returned. *)
Lemma allocate_val size s p s' :
  allocate size s = (Val p, s') ->
  exists head ptr s1 h',
    size <= MAX_POSSIBLE_ALLOCATION /\
    uint32 (nextPowerOf2GT8 size + 8 + total_size s) <= max_heap_size s /\
    0 <= class_index size < N /\
    heads s !! Z.to_nat (class_index size) = Some head /\
    ((head <> 0 /\
      take_from_free_list (class_index size) head s = (Val ptr, s1)) \/
     (head = 0 /\
      take_from_bump (nextPowerOf2GT8 size) s = (Val ptr, s1))) /\
    length h' = length (heap s1) /\
    (forall k, 1 <= k <= 8 -> hdr_addr s1 ptr k < heap_len s1) /\
    (forall j : nat,
       (forall k, 1 <= k <= 8 -> j <> Z.to_nat (hdr_addr s1 ptr k)) ->
       h' !! j = heap s1 !! j) /\
    h' !! Z.to_nat (hdr_addr s1 ptr 8) = Some (uint8 (class_index size)) /\
    s' = with_total_size (uint32 (total_size s1 + nextPowerOf2GT8 size + 8))
           (with_heap h' s1) /\
    p = uint32 (ptr_offset s1 + ptr).
Proof.
  intros H.
  destruct (allocate_cases size s) as [(Hb & E)|[(Hb & Hf & E)|(Hb & Hf & E)]];
    rewrite E in H; try discriminate.
  unfold allocate_body in H. cbv zeta in H.
  fold (class_index size) in H.
  apply bind_val in H as (head & s0 & Hh & H).
  apply heads_get_val in Hh as (-> & Hidx & Hhead).
  apply bind_val in H as (ptr & s1 & Hp & H).
  apply bind_val in H as ([] & s2 & Hw & H).
  apply write_sentinels_val in Hw as (h1 & -> & Hlen1 & Hin1 & Hout1).
  apply bind_val in H as ([] & s3 & Hs & H).
  apply set_heap_val in Hs as (Hlt8 & ->).
  unfold bind, modify, gets, ret in H. simpl in H. injection H as <- <-.
  simpl in Hlt8. unfold heap_len in Hlt8. simpl in Hlt8.
  fold (hdr_addr s1 ptr 8) in Hlt8 |- *.
  exists head, ptr, s1,
    (<[Z.to_nat (hdr_addr s1 ptr 8) := uint8 (class_index size)]> h1).
  split; [exact Hb|]. split; [exact Hf|]. split; [exact Hidx|].
  split; [exact Hhead|]. split.
  { destruct (Z.eqb_spec head 0) as [->|Hne]; simpl in Hp; [right|left]; auto. }
  split. { rewrite length_insert. exact Hlen1. }
  split. { intros k Hk. apply Hin1. simpl. lia. }
  split.
  { intros j Hj. rewrite list_lookup_insert_ne.
    - apply Hout1. intros k Hk. apply Hj. simpl in Hk. lia.
    - intros Heq. apply (Hj 8); [lia|]. symmetry. exact Heq. }
  split.
  { apply list_lookup_insert_eq.
    pose proof (uint32_range (ptr_offset s1 + uint32 (ptr - 8))) as Hr.
    unfold hdr_addr in *. lia. }
  split; reflexivity.
Qed.

Lemma deallocate_invalid pointer s :
  uint32 (pointer - ptr_offset s) < 8 ->
  deallocate pointer s = (Err err_invalid_pointer, s).
Proof.
  intros H. unfold deallocate. unfold bind at 1. unfold gets at 1.
  destruct (Z.ltb_spec (uint32 (pointer - ptr_offset s)) 8); [reflexivity|lia].
Qed.

Lemma deallocate_passes pointer s :
  8 <= uint32 (pointer - ptr_offset s) ->
  deallocate pointer s = deallocate_body (uint32 (pointer - ptr_offset s)) s.
Proof.
  intros H. unfold deallocate. unfold bind at 1. unfold gets at 1.
  destruct (Z.ltb_spec (uint32 (pointer - ptr_offset s)) 8); [lia|].
  reflexivity.
Qed.

Lemma never_errs_deallocate_body ptr : never_errs (deallocate_body ptr).
Proof. unfold deallocate_body. cbv zeta. never_errs_tac. Qed.

Lemma deallocate_err pointer s e s' :
  deallocate pointer s = (Err e, s') ->
  s' = s /\ e = err_invalid_pointer /\ uint32 (pointer - ptr_offset s) < 8.
Proof.
  intros H. destruct (Z_lt_dec (uint32 (pointer - ptr_offset s)) 8) as [Hlt|Hge].
  - rewrite deallocate_invalid in H by exact Hlt. injection H as <- <-. auto.
  - rewrite deallocate_passes in H by lia.
    exfalso. exact (never_errs_deallocate_body _ s e s' H).
Qed.

(** What a returning [deallocate] did. *)
Lemma deallocate_val pointer s s' :
  deallocate pointer s = (Val tt, s') ->
  let ptr := uint32 (pointer - ptr_offset s) in
  let lo := uint32 (ptr_offset s + uint32 (ptr - 8)) in
  let hi := uint32 (lo + 4) in
  exists b tail,
    8 <= ptr /\
    heap s !! Z.to_nat lo = Some b /\
    0 <= byte_to_Z b < N /\
    heads s !! Z.to_nat (byte_to_Z b) = Some tail /\
    lo <= hi <= heap_len s /\
    s' = mkFBHA (bumper s)
           (<[Z.to_nat (byte_to_Z b) := uint32 (ptr - 8)]> (heads s))
           (store_bytes (Z.to_nat lo)
              (take (Z.to_nat (hi - lo)) (LittleEndian_PutUint32 tail))
              (heap s))
           (max_heap_size s) (ptr_offset s)
           (uint32 (total_size s
                    - uint32 (get_item_size_from_index (byte_to_Z b) + 8))).
Proof.
  intros H. cbv zeta.
  destruct (Z_lt_dec (uint32 (pointer - ptr_offset s)) 8) as [Hlt|Hge].
  { rewrite deallocate_invalid in H by exact Hlt. discriminate. }
  rewrite deallocate_passes in H by lia.
  unfold deallocate_body in H. cbv zeta in H.
  apply bind_val in H as (b & s0 & Hb & H).
  apply get_heap_byte_val in Hb as (-> & Hb).
  apply bind_val in H as (tail & s0 & Ht & H).
  apply heads_get_val in Ht as (-> & Hidx & Ht).
  apply bind_val in H as ([] & s1 & Hs & H).
  apply heads_set_val in Hs as ->.
  apply bind_val in H as ([] & s2 & Hw & H).
  apply set_heap_4bytes_val in Hw as (Hlohi & ->).
  unfold bind, modify, ret in H. simpl in H. injection H as <-.
  simpl in Hlohi. unfold heap_len in Hlohi. simpl in Hlohi.
  exists b, tail. split; [lia|]. split; [exact Hb|]. split; [exact Hidx|].
  split; [exact Ht|]. split; [exact Hlohi|]. reflexivity.
Qed.

(** ** Arithmetic modulo [2^32] *)

Lemma uint32_eq_inv a b : uint32 a = uint32 b -> exists k, a = b + k * 2 ^ 32.
Proof.
  unfold uint32. intros H. exists (a / 2 ^ 32 - b / 2 ^ 32).
  pose proof (Z.div_mod a (2 ^ 32)). pose proof (Z.div_mod b (2 ^ 32)). lia.
Qed.

Lemma mod8_step a b : a mod 8 = 0 -> b mod 8 = 0 -> a < b -> a + 8 <= b.
Proof.
  intros Ha Hb Hlt.
  pose proof (Z.div_mod a 8). pose proof (Z.div_mod b 8). lia.
Qed.

Lemma mod8_add a b : a mod 8 = 0 -> b mod 8 = 0 -> (a + b) mod 8 = 0.
Proof.
  intros Ha Hb. rewrite Z.add_mod by lia. rewrite Ha, Hb. reflexivity.
Qed.

Lemma lor_bound n a b :
  0 <= n -> 0 <= a < 2 ^ n -> 0 <= b < 2 ^ n -> 0 <= Z.lor a b < 2 ^ n.
Proof.
  intros Hn Ha Hb.
  assert (H0 : 0 <= Z.lor a b) by (apply Z.lor_nonneg; lia).
  split; [exact H0|].
  destruct (Z.eq_dec (Z.lor a b) 0) as [->|Hne].
  { apply Z.pow_pos_nonneg; lia. }
  assert (Hn0 : 0 < n).
  { destruct (Z.eq_dec n 0) as [->|]; [|lia].
    change (2 ^ 0) with 1 in Ha, Hb.
    assert (a = 0) as -> by lia. assert (b = 0) as -> by lia.
    exfalso. apply Hne. reflexivity. }
  apply Z.log2_lt_pow2; [lia|]. rewrite Z.log2_lor by lia.
  apply Z.max_lub_lt.
  - destruct (Z.eq_dec a 0) as [->|]; [simpl; lia|].
    apply Z.log2_lt_pow2; lia.
  - destruct (Z.eq_dec b 0) as [->|]; [simpl; lia|].
    apply Z.log2_lt_pow2; lia.
Qed.

Lemma LittleEndian_Uint32_range bs : 0 <= LittleEndian_Uint32 bs < 2 ^ 32.
Proof.
  unfold LittleEndian_Uint32.
  destruct bs as [|b0 [|b1 [|b2 [|b3 bs]]]]; try lia.
  pose proof (byte_to_Z_range b0). pose proof (byte_to_Z_range b1).
  pose proof (byte_to_Z_range b2). pose proof (byte_to_Z_range b3).
  rewrite !Z.shiftl_mul_pow2 by lia.
  repeat apply lor_bound; lia.
Qed.

(** ** Geometry of the bump cursor *)

Ltac simpl_state :=
  cbn [bumper heads heap max_heap_size ptr_offset total_size
       with_bumper with_heads with_heap with_total_size] in *.

Lemma geom_bounds s :
  geom s -> bumper s + 8 < 2 ^ 32 /\ ptr_offset s + bumper s + 8 <= 2 ^ 32.
Proof.
  intros [Ho Ho8 Hb Hb8 Hl Hr].
  pose proof (Z.div_mod (ptr_offset s) 8).
  assert (0 <= heap_len s) by (unfold heap_len; lia).
  lia.
Qed.

(** A returning [allocate] that found its free list empty. *)
Lemma allocate_bump_path size s p s' :
  geom s ->
  allocate size s = (Val p, s') ->
  heads s !! Z.to_nat (class_index size) = Some 0 ->
  let a := ptr_offset s + bumper s in
  a + 8 <= heap_len s /\ p = a + 8 /\ size <= MAX_POSSIBLE_ALLOCATION /\
  uint32 (nextPowerOf2GT8 size + 8 + total_size s) <= max_heap_size s /\
  exists h',
    length h' = length (heap s) /\
    (forall j : nat,
       Z.of_nat j < a \/ a + 8 <= Z.of_nat j -> h' !! j = heap s !! j) /\
    h' !! Z.to_nat a = Some (uint8 (class_index size)) /\
    s' = mkFBHA (bumper s + (nextPowerOf2GT8 size + 8)) (heads s) h'
           (max_heap_size s) (ptr_offset s)
           (uint32 (total_size s + nextPowerOf2GT8 size + 8)).
Proof.
  intros G H Hhead. cbv zeta.
  apply allocate_val in H
    as (head & ptr & s1 & h' & Hsz & Hfit & Hidx & Hh & Hpath & Hlen & Hin
        & Hout & Hhdr & -> & ->).
  rewrite Hhead in Hh. injection Hh as <-.
  destruct Hpath as [[Hne _]|[_ Hb]]; [congruence|].
  apply take_from_bump_val in Hb as (-> & ->).
  destruct (size_class_facts size Hsz) as (_ & _ & _ & Hrange).
  destruct (geom_bounds s G) as (B1 & B2). destruct G as [Ho Ho8 Hb Hb8 Hl Hr].
  unfold hdr_addr, heap_len, MAX_POSSIBLE_ALLOCATION in *.
  destruct s as [b hs h mx off tot]. simpl_state.
  assert (Haddr : forall k, 1 <= k <= 8 ->
            uint32 (off + uint32 (uint32 (b + 8) - k)) = off + b + 8 - k).
  { intros k Hk. rewrite (uint32_small (b + 8)) by lia.
    rewrite (uint32_small (b + 8 - k)) by lia.
    rewrite uint32_small by lia. lia. }
  pose proof (Hin 1 ltac:(lia)) as Hin1. rewrite Haddr in Hin1 by lia.
  rewrite Haddr in Hhdr by lia.
  replace (off + b + 8 - 8) with (off + b) in Hhdr by lia.
  split; [lia|]. split.
  { rewrite (uint32_small (b + 8)) by lia. rewrite uint32_small by lia. lia. }
  split; [exact Hsz|]. split; [exact Hfit|].
  exists h'. split; [exact Hlen|]. split.
  { intros j Hj. apply Hout. intros k Hk. rewrite Haddr by lia. lia. }
  split; [exact Hhdr|].
  rewrite (uint32_small (nextPowerOf2GT8 size + 8)) by lia.
  rewrite (uint32_small (b + _)) by lia. reflexivity.
Qed.

(** A returning [allocate] that found a block at [item] on its free
    list, when that block lies in the heap. *)
Lemma allocate_reuse_path size s p s' item :
  0 <= ptr_offset s ->
  heap_len s < 2 ^ 32 ->
  allocate size s = (Val p, s') ->
  heads s !! Z.to_nat (class_index size) = Some item ->
  item <> 0 -> 0 <= item -> ptr_offset s + item + 8 <= heap_len s ->
  let a := ptr_offset s + item in
  p = a + 8 /\ size <= MAX_POSSIBLE_ALLOCATION /\
  uint32 (nextPowerOf2GT8 size + 8 + total_size s) <= max_heap_size s /\
  exists h',
    length h' = length (heap s) /\
    (forall j : nat,
       Z.of_nat j < a \/ a + 8 <= Z.of_nat j -> h' !! j = heap s !! j) /\
    h' !! Z.to_nat a = Some (uint8 (class_index size)) /\
    s' = mkFBHA (bumper s)
           (<[Z.to_nat (class_index size) := read_link (heap s) a]> (heads s))
           h' (max_heap_size s) (ptr_offset s)
           (uint32 (total_size s + nextPowerOf2GT8 size + 8)).
Proof.
  intros Ho Hl H Hhead Hne Hi Hfit8. cbv zeta.
  apply allocate_val in H
    as (head & ptr & s1 & h' & Hsz & Hfit & Hidx & Hh & Hpath & Hlen & Hin
        & Hout & Hhdr & -> & ->).
  rewrite Hhead in Hh. injection Hh as <-.
  destruct Hpath as [[_ Hf]|[H0 _]]; [|congruence].
  apply take_from_free_list_val in Hf as (Hlohi & -> & ->).
  unfold hdr_addr, heap_len in *.
  destruct s as [b hs h mx off tot]. simpl_state.
  assert (Haddr : forall k, 1 <= k <= 8 ->
            uint32 (off + uint32 (uint32 (item + 8) - k)) = off + item + 8 - k).
  { intros k Hk. rewrite (uint32_small (item + 8)) by lia.
    rewrite (uint32_small (item + 8 - k)) by lia.
    rewrite uint32_small by lia. lia. }
  rewrite Haddr in Hhdr by lia.
  replace (off + item + 8 - 8) with (off + item) in Hhdr by lia.
  rewrite (uint32_small (off + item)) in * by lia.
  rewrite (uint32_small (off + item + 4)) in * by lia.
  replace (Z.to_nat (off + item + 4 - (off + item))) with 4%nat by lia.
  split.
  { rewrite (uint32_small (item + 8)) by lia. rewrite uint32_small by lia.
    lia. }
  split; [exact Hsz|]. split; [exact Hfit|].
  exists h'. split; [exact Hlen|]. split.
  { intros j Hj. apply Hout. intros k Hk. rewrite Haddr by lia. lia. }
  split; [exact Hhdr|]. reflexivity.
Qed.

(** [deallocate] of the pointer of a block at [item] that lies in the
    heap and whose header byte is a size class: it returns, and this is
    the state it leaves. *)
Lemma deallocate_block pointer s item b tail :
  0 <= ptr_offset s ->
  heap_len s < 2 ^ 32 ->
  0 <= item ->
  pointer = ptr_offset s + item + 8 ->
  ptr_offset s + item + 8 <= heap_len s ->
  heap s !! Z.to_nat (ptr_offset s + item) = Some b ->
  0 <= byte_to_Z b < N ->
  heads s !! Z.to_nat (byte_to_Z b) = Some tail ->
  deallocate pointer s =
    (Val tt,
     mkFBHA (bumper s) (<[Z.to_nat (byte_to_Z b) := item]> (heads s))
       (store_bytes (Z.to_nat (ptr_offset s + item))
          (LittleEndian_PutUint32 tail) (heap s))
       (max_heap_size s) (ptr_offset s)
       (uint32 (total_size s
                - uint32 (get_item_size_from_index (byte_to_Z b) + 8)))).
Proof.
  intros Ho Hl Hi -> Hfit Hb Hidx Ht.
  unfold heap_len in *. destruct s as [bm hs h mx off tot]. simpl_state.
  rewrite deallocate_passes; simpl_state;
    replace (off + item + 8 - off) with (item + 8) by lia;
    rewrite (uint32_small (item + 8)) by lia; [|lia].
  unfold deallocate_body.
  replace (item + 8 - 8) with item by lia. rewrite (uint32_small item) by lia.
  unfold bind, get_heap_byte. simpl_state.
  rewrite (uint32_small (off + item)) by lia. rewrite Hb.
  unfold heads_get. simpl_state.
  assert (E1 : (0 <=? byte_to_Z b) && (byte_to_Z b <? N) = true).
  { apply andb_true_iff. split; [apply Z.leb_le|apply Z.ltb_lt]; lia. }
  rewrite E1, Ht. unfold heads_set. simpl_state. rewrite E1.
  assert (E2 : (byte_to_Z b <? Z.of_nat (length hs)) = true).
  { apply Z.ltb_lt. apply lookup_lt_Some in Ht. lia. }
  rewrite E2. simpl andb. cbv iota. simpl_state.
  unfold set_heap_4bytes, heap_len. simpl_state.
  rewrite (uint32_small (off + item)) by lia.
  rewrite (uint32_small (off + item + 4)) by lia.
  destruct ((off + item <=? off + item + 4) &&
            (off + item + 4 <=? Z.of_nat (length h))) eqn:E3.
  2:{ apply andb_false_iff in E3.
      destruct E3 as [E3|E3]; apply Z.leb_gt in E3; lia. }
  replace (Z.to_nat (off + item + 4 - (off + item))) with 4%nat by lia.
  reflexivity.
Qed.

(** ** Preservation of the invariant *)

Lemma chain_frame m m' off h c :
  (forall x, x ∈ c -> read_link m' (off + x) = read_link m (off + x)) ->
  chain m off h c -> chain m' off h c.
Proof.
  revert h. induction c as [|x c IH]; intros h Hf Hc; simpl in *; [exact Hc|].
  destruct Hc as (-> & Hne & Hc). split; [reflexivity|]. split; [exact Hne|].
  rewrite Hf by apply list_elem_of_here.
  apply IH; [|exact Hc]. intros y Hy. apply Hf. apply list_elem_of_further, Hy.
Qed.

Lemma sumZ_app {A} (f : A -> Z) l1 l2 :
  sumZ f (l1 ++ l2) = sumZ f l1 + sumZ f l2.
Proof. induction l1 as [|x l1 IH]; simpl; lia. Qed.

Lemma sumZ_nonneg {A} (f : A -> Z) l : (forall x, 0 <= f x) -> 0 <= sumZ f l.
Proof. intros Hf. induction l as [|x l IH]; simpl; [lia|]. specialize (Hf x). lia. Qed.

Lemma weight_nonneg b : 0 <= weight b.
Proof. unfold weight. pose proof (Z.pow_nonneg 2 b.2). lia. Qed.

Lemma nextPowerOf2GT8_nonneg v : 0 <= nextPowerOf2GT8 v.
Proof.
  unfold nextPowerOf2GT8. destruct (v <? 8); [lia|]. apply uint32_range.
Qed.

Lemma live_bytes_nonneg live : 0 <= live_bytes live.
Proof.
  apply sumZ_nonneg. intros e. unfold block_bytes.
  pose proof (nextPowerOf2GT8_nonneg e.2). lia.
Qed.

(** Block headers do not overlap: two distinct aligned offsets are at
    least 8 apart. *)
Lemma aligned_apart x y :
  x mod 8 = 0 -> y mod 8 = 0 -> x <> y -> x + 8 <= y \/ y + 8 <= x.
Proof.
  intros Hx Hy Hne. destruct (Z_lt_dec x y).
  - left. apply mod8_step; assumption.
  - right. apply mod8_step; try assumption. lia.
Qed.

Lemma block_ok_mono s s' b :
  bumper s <= bumper s' -> ptr_offset s' = ptr_offset s ->
  heap_len s' = heap_len s -> block_ok s b -> block_ok s' b.
Proof.
  intros Hb Ho Hl [H1 H2 H3 H4]. constructor; try assumption; lia.
Qed.

Lemma inv_allocate_bump s live free size p s' :
  inv s live free ->
  allocate size s = (Val p, s') ->
  heads s !! Z.to_nat (class_index size) = Some 0 ->
  inv s' ((p, size) :: live) free.
Proof.
  intros [G Hh Hbl Hnd Hsz Hhdr Hch Htot Hw] H Hhead.
  destruct (allocate_bump_path size s p s' G H Hhead)
    as (Hfit8 & -> & Hmax & Hfit & h' & Hlen & Hout & Hin & ->).
  destruct (size_class_facts size Hmax) as (Hidx & Hpow & _ & Hrange).
  pose proof (live_bytes_nonneg live) as Hlive0.
  assert (Hfree0 : 0 <= sumZ weight free)
    by (apply sumZ_nonneg, weight_nonneg).
  destruct (geom_bounds s G) as (B1 & B2).
  pose proof G as [Ho Ho8 Hb Hb8 Hl Hr].
  unfold MAX_POSSIBLE_ALLOCATION in *.
  assert (Hold : forall b, b ∈ (entry_block (ptr_offset s) <$> live) ++ free ->
            0 <= b.1 /\ b.1 + 8 <= bumper s).
  { intros b Hb'. rewrite Forall_forall in Hbl. destruct (Hbl b Hb') as [H1 H2 _ _].
    split; [lia|]. apply mod8_step; [exact H2 | exact Hb8 | lia]. }
  assert (Hb8' : (bumper s + (nextPowerOf2GT8 size + 8)) mod 8 = 0).
  { apply mod8_add; [exact Hb8|]. rewrite Hpow.
    replace (8 * 2 ^ class_index size + 8) with ((2 ^ class_index size + 1) * 8) by lia.
    apply Z.mod_mul. lia. }
  constructor; simpl_state.
  - (* geom *)
    constructor; simpl_state; unfold heap_len in *; simpl_state;
      try assumption; try lia.
  - exact Hh.
  - (* blocks *)
    rewrite fmap_cons. simpl. apply Forall_cons. split.
    + unfold entry_block. simpl. constructor; simpl_state; simpl;
        unfold heap_len in *; simpl_state; try lia.
      replace (ptr_offset s + bumper s + 8 - ptr_offset s - 8)
        with (bumper s) by lia.
      exact Hb8.
    + eapply Forall_impl; [exact Hbl|]. intros b Hb'.
      apply (block_ok_mono s); simpl_state; unfold heap_len; simpl_state;
        try lia; try assumption.
  - (* nodup *)
    rewrite fmap_cons. simpl. apply NoDup_cons. split; [|exact Hnd].
    intros Hin'. apply list_elem_of_fmap in Hin' as (b & Hb1 & Hb2).
    apply Hold in Hb2. lia.
  - apply Forall_cons. split; [simpl; unfold MAX_POSSIBLE_ALLOCATION; lia|exact Hsz].
  - (* headers *)
    apply Forall_cons. split.
    + simpl. replace (ptr_offset s + bumper s + 8 - 8) with (ptr_offset s + bumper s) by lia.
      exact Hin.
    + rewrite Forall_forall in Hhdr |- *. intros e He. rewrite Hout; [apply Hhdr, He|].
      assert (Hb' : entry_block (ptr_offset s) e ∈ (entry_block (ptr_offset s) <$> live) ++ free).
      { apply elem_of_app. left. apply list_elem_of_fmap_2. exact He. }
      apply Hold in Hb'. unfold entry_block in Hb'. simpl in Hb'. lia.
  - (* chains *)
    intros i Hi. destruct (Hch i Hi) as (h & c & Hh1 & Hc & Hndc & Hfree).
    exists h, c. split; [exact Hh1|]. split; [|split; assumption].
    eapply chain_frame; [|exact Hc]. intros x Hx. apply read_link_frame.
    intros j Hj. apply Hout.
    assert (Hb' : (x, i) ∈ (entry_block (ptr_offset s) <$> live) ++ free).
    { apply elem_of_app. right. apply Hfree, Hx. }
    apply Hold in Hb'. simpl in Hb'. lia.
  - (* total *)
    unfold live_bytes in *. simpl. unfold block_bytes at 1. rewrite Htot.
    rewrite uint32_small; [lia|]. fold (live_bytes live) in *. 
    unfold live_bytes in *. lia.
  - unfold live_bytes in *. simpl. unfold block_bytes at 1. lia.
Qed.

Lemma fst_unique (l : list (Z * Z)) a b b' :
  NoDup (l.*1) -> (a, b) ∈ l -> (a, b') ∈ l -> b = b'.
Proof.
  induction l as [|[x y] l IH]; intros Hnd H1 H2.
  - apply elem_of_nil in H1. destruct H1.
  - rewrite fmap_cons in Hnd. apply NoDup_cons in Hnd as [Hx Hnd].
    apply elem_of_cons in H1, H2. simpl in Hx.
    destruct H1 as [E1|H1], H2 as [E2|H2].
    + congruence.
    + injection E1 as -> ->. exfalso. apply Hx.
      apply list_elem_of_fmap. exists (x, b'). auto.
    + injection E2 as -> ->. exfalso. apply Hx.
      apply list_elem_of_fmap. exists (x, b). auto.
    + apply IH; assumption.
Qed.

Lemma elem_of_middle_ne {A} (l1 l2 : list A) x y :
  y ∈ l1 ++ x :: l2 -> y <> x -> y ∈ l1 ++ l2.
Proof.
  rewrite !elem_of_app, elem_of_cons. intros [?|[?|?]] ?; auto. congruence.
Qed.

Lemma elem_of_middle_weaken {A} (l1 l2 : list A) x y :
  y ∈ l1 ++ l2 -> y ∈ l1 ++ x :: l2.
Proof. rewrite !elem_of_app, elem_of_cons. intros [?|?]; auto. Qed.

Lemma inv_allocate_reuse s live free size p s' item :
  inv s live free ->
  allocate size s = (Val p, s') ->
  heads s !! Z.to_nat (class_index size) = Some item ->
  item <> 0 ->
  exists free', inv s' ((p, size) :: live) free'.
Proof.
  intros [G Hh Hbl Hnd Hsz Hhdr Hch Htot Hw] H Hhead Hne.
  assert (Hmax : size <= MAX_POSSIBLE_ALLOCATION).
  { destruct (allocate_cases size s) as [(Hb & E)|[(Hb & Hf & E)|(Hb & Hf & E)]];
      [rewrite E in H; discriminate | lia | lia]. }
  destruct (size_class_facts size Hmax) as (Hidx & Hpow & _ & Hrange).
  destruct (Hch _ Hidx) as (h & c & Hh1 & Hc & Hndc & Hfree).
  rewrite Hhead in Hh1. injection Hh1 as <-.
  destruct c as [|x c]; simpl in Hc; [congruence|].
  destruct Hc as (<- & _ & Hc).
  assert (Hitem : (item, class_index size) ∈ free)
    by (apply Hfree, list_elem_of_here).
  destruct (list_elem_of_split _ _ Hitem) as (f1 & f2 & ->).
  pose proof Hbl as Hbl'. rewrite Forall_forall in Hbl'.
  assert (Hok : block_ok s (item, class_index size)).
  { apply Hbl'. apply elem_of_app. right. exact Hitem. }
  destruct Hok as [Hi1 Hi2 Hi3 _]. simpl in Hi1, Hi2, Hi3.
  destruct (geom_bounds s G) as (B1 & B2).
  pose proof G as [Ho Ho8 Hb Hb8 Hl Hr].
  assert (Hlen32 : heap_len s < 2 ^ 32) by lia.
  destruct (allocate_reuse_path size s p s' item (proj1 Ho) Hlen32 H Hhead Hne
              (proj1 Hi1) Hi3)
    as (-> & _ & Hfit & h' & Hlen & Hout & Hin & ->).
  pose proof (live_bytes_nonneg live) as Hlive0.
  rewrite !sumZ_app in Hw. simpl in Hw.
  assert (Hf10 : 0 <= sumZ weight f1) by (apply sumZ_nonneg, weight_nonneg).
  assert (Hf20 : 0 <= sumZ weight f2) by (apply sumZ_nonneg, weight_nonneg).
  unfold weight at 2 in Hw. simpl in Hw. rewrite <- Hpow in Hw.
  assert (Hentry : entry_block (ptr_offset s)
                     (ptr_offset s + item + 8, size) = (item, class_index size)).
  { unfold entry_block. simpl. f_equal. lia. }
  rewrite fmap_app in Hnd.
  assert (Hlive_ne : forall e, e ∈ live ->
            (entry_block (ptr_offset s) e).1 <> item).
  { intros e He Heq. apply NoDup_app in Hnd as (_ & Hdis & _).
    apply (Hdis item).
    - rewrite <- Heq. apply list_elem_of_fmap_2, list_elem_of_fmap_2, He.
    - apply list_elem_of_fmap. exists (item, class_index size). auto. }
  assert (Hfree_ne : forall x i, (x, i) ∈ f1 ++ (item, class_index size) :: f2 ->
            (x, i) <> (item, class_index size) -> x <> item).
  { intros x i Hx Hxi ->. apply Hxi. f_equal.
    apply NoDup_app in Hnd as (_ & _ & Hndf).
    exact (fst_unique _ _ _ _ Hndf Hx Hitem). }
  assert (Hframe : forall x, x mod 8 = 0 -> 0 <= x -> x <> item ->
            forall j : nat,
              (Z.to_nat (ptr_offset s + x) <= j < Z.to_nat (ptr_offset s + x) + 8)%nat ->
              h' !! j = heap s !! j).
  { intros x Hx8 Hx0 Hxne j Hj. apply Hout.
    destruct (aligned_apart x item Hx8 Hi2 Hxne); lia. }
  exists (f1 ++ f2). constructor; simpl_state.
  - constructor; simpl_state; unfold heap_len in *; simpl_state;
      try assumption; try lia.
  - rewrite length_insert. exact Hh.
  - rewrite fmap_cons, Hentry. apply Forall_forall. intros b Hb'.
    apply (block_ok_mono s); simpl_state; unfold heap_len; simpl_state;
      try lia.
    apply Hbl'. simpl in Hb'. apply elem_of_cons in Hb' as [->|Hb'].
    + apply elem_of_app. right. exact Hitem.
    + apply elem_of_app in Hb' as [Hb'|Hb'].
      * apply elem_of_app. left. exact Hb'.
      * apply elem_of_app. right. apply elem_of_middle_weaken, Hb'.
  - rewrite fmap_cons, Hentry.
    assert (Hperm :
      (((item, class_index size) :: (entry_block (ptr_offset s) <$> live))
         ++ f1 ++ f2).*1
      ≡ₚ (entry_block (ptr_offset s) <$> live).*1
           ++ (f1 ++ (item, class_index size) :: f2).*1).
    { rewrite !fmap_app, !fmap_cons. simpl.
      rewrite !app_assoc. apply Permutation_middle. }
    rewrite Hperm. exact Hnd.
  - apply Forall_cons. split; [exact Hmax|exact Hsz].
  - apply Forall_cons. split.
    + simpl. replace (ptr_offset s + item + 8 - 8) with (ptr_offset s + item) by lia.
      exact Hin.
    + rewrite Forall_forall in Hhdr |- *. intros e He.
      rewrite <- (Hhdr e He).
      assert (Hbe : block_ok s (entry_block (ptr_offset s) e)).
      { apply Hbl'. apply elem_of_app. left. apply list_elem_of_fmap_2, He. }
      destruct Hbe as [He1 He2 He3 _]. unfold entry_block in He1, He2, He3.
      simpl in He1, He2, He3.
      apply (Hframe (e.1 - ptr_offset s - 8)); try lia.
      apply (Hlive_ne e He).
  - intros i Hi.
    assert (Hchain_frame : forall hd ci,
              chain (heap s) (ptr_offset s) hd ci ->
              (forall x, x ∈ ci -> block_ok s (x, i) /\ x <> item) ->
              chain h' (ptr_offset s) hd ci).
    { intros hd ci Hci Hall. eapply chain_frame; [|exact Hci].
      intros x Hx. destruct (Hall x Hx) as [[Hx1 Hx2 Hx3 _] Hxne].
      simpl in Hx1, Hx2, Hx3.
      apply read_link_frame. intros j Hj.
      apply (Hframe x); try lia; assumption. }
    destruct (Z.eq_dec i (class_index size)) as [->|Hine].
    + exists (read_link (heap s) (ptr_offset s + item)), c.
      apply NoDup_cons in Hndc as [Hnotin Hndc].
      assert (Hcne : forall x, x ∈ c -> x <> item) by (intros x Hx ->; auto).
      split. { apply list_lookup_insert_eq. lia. }
      split.
      { apply Hchain_frame; [exact Hc|]. intros x Hx. split; [|auto].
        apply Hbl'. apply elem_of_app. right. apply Hfree.
        apply list_elem_of_further, Hx. }
      split; [exact Hndc|].
      intros x Hx. eapply elem_of_middle_ne.
      * apply Hfree. apply list_elem_of_further, Hx.
      * intros Heq. injection Heq as ->. exact (Hcne _ Hx eq_refl).
    + destruct (Hch i Hi) as (hd & ci & Hh1 & Hci & Hndci & Hfreei).
      exists hd, ci.
      assert (Hcne : forall x, x ∈ ci -> x <> item).
      { intros x Hx. apply (Hfree_ne x i); [apply Hfreei, Hx|].
        intros Heq. injection Heq as _ ->. auto. }
      split. { rewrite list_lookup_insert_ne; [exact Hh1|lia]. }
      split.
      { apply Hchain_frame; [exact Hci|]. intros x Hx. split; [|auto].
        apply Hbl'. apply elem_of_app. right. apply Hfreei, Hx. }
      split; [exact Hndci|].
      intros x Hx. eapply elem_of_middle_ne; [apply Hfreei, Hx|].
      intros Heq. injection Heq as _ ->. auto.
  - unfold live_bytes in *. simpl. unfold block_bytes at 1. rewrite Htot.
    rewrite uint32_small; [lia|]. lia.
  - unfold live_bytes in *. simpl. unfold block_bytes at 1.
    rewrite sumZ_app. lia.
Qed.

Lemma inv_allocate s live free size p s' :
  inv s live free ->
  allocate size s = (Val p, s') ->
  exists free', inv s' ((p, size) :: live) free'.
Proof.
  intros I H.
  assert (Hmax : size <= MAX_POSSIBLE_ALLOCATION).
  { destruct (allocate_cases size s) as [(Hb & E)|[(Hb & Hf & E)|(Hb & Hf & E)]];
      [rewrite E in H; discriminate | lia | lia]. }
  destruct (size_class_facts size Hmax) as (Hidx & _).
  destruct (i_chain _ _ _ I _ Hidx) as (h & c & Hh & _).
  destruct (Z.eq_dec h 0) as [->|Hne].
  - exists free. eapply inv_allocate_bump; eassumption.
  - eapply inv_allocate_reuse; eassumption.
Qed.

Lemma LittleEndian_PutUint32_length v : length (LittleEndian_PutUint32 v) = 4%nat.
Proof. reflexivity. Qed.

Lemma read_link_store m a v :
  0 <= a -> a + 4 <= Z.of_nat (length m) -> 0 <= v < 2 ^ 32 ->
  read_link (store_bytes (Z.to_nat a) (LittleEndian_PutUint32 v) m) a = v.
Proof.
  intros Ha Hlen Hv. unfold read_link.
  rewrite <- (LittleEndian_PutUint32_length v) at 1.
  rewrite store_bytes_read.
  - apply LittleEndian_roundtrip, Hv.
  - rewrite LittleEndian_PutUint32_length. lia.
Qed.

(** The head of a chain of blocks is a 32-bit value. *)
Lemma chain_head_range s i h c :
  geom s ->
  chain (heap s) (ptr_offset s) h c ->
  (forall x, x ∈ c -> block_ok s (x, i)) ->
  0 <= h < 2 ^ 32.
Proof.
  intros G Hc Hok. destruct (geom_bounds s G) as (B1 & _).
  destruct c as [|x c]; simpl in Hc.
  - subst h. lia.
  - destruct Hc as (-> & _ & _).
    destruct (Hok x (list_elem_of_here _ _)) as [H1 _ _ _]. simpl in H1. lia.
Qed.

Lemma inv_deallocate s l1 l2 free p size :
  inv s (l1 ++ (p, size) :: l2) free ->
  exists s' free',
    deallocate p s = (Val tt, s') /\ inv s' (l1 ++ l2) free'.
Proof.
  intros [G Hh Hbl Hnd Hsz Hhdr Hch Htot Hw].
  set (off := ptr_offset s) in *.
  set (item := p - off - 8).
  set (idx := class_index size).
  assert (He : (p, size) ∈ l1 ++ (p, size) :: l2).
  { apply elem_of_app. right. apply list_elem_of_here. }
  pose proof Hbl as Hbl'. rewrite Forall_forall in Hbl'.
  pose proof Hsz as Hsz'. rewrite Forall_forall in Hsz'.
  pose proof Hhdr as Hhdr'. rewrite Forall_forall in Hhdr'.
  assert (Hmax : size <= MAX_POSSIBLE_ALLOCATION) by exact (Hsz' _ He).
  destruct (size_class_facts size Hmax) as (Hidx & Hpow & Hget & Hrange).
  fold idx in Hidx, Hpow, Hget.
  assert (Hok : block_ok s (item, idx)).
  { apply (Hbl' (entry_block off (p, size))).
    apply elem_of_app. left. apply list_elem_of_fmap_2, He. }
  destruct Hok as [Hi1 Hi2 Hi3 _]. simpl in Hi1, Hi2, Hi3.
  destruct (geom_bounds s G) as (B1 & B2).
  pose proof G as [Ho Ho8 Hb Hb8 Hl Hr]. fold off in Ho, Ho8, Hr, B2, Hi3.
  assert (Hlen32 : heap_len s < 2 ^ 32) by lia.
  destruct (Hch _ Hidx) as (tail & c & Hh1 & Hc & Hndc & Hfree).
  assert (Htail : 0 <= tail < 2 ^ 32).
  { apply (chain_head_range s idx tail c G Hc). intros x Hx.
    apply Hbl'. apply elem_of_app. right. apply Hfree, Hx. }
  assert (Hbyte : byte_to_Z (uint8 idx) = idx).
  { apply byte_to_Z_uint8_small. unfold N in Hidx. lia. }
  assert (Hb0 : heap s !! Z.to_nat (off + item) = Some (uint8 idx)).
  { replace (off + item) with (p - 8) by (unfold item; lia).
    exact (Hhdr' _ He). }
  pose proof (deallocate_block p s item (uint8 idx) tail) as Hrun.
  fold off in Hrun. rewrite Hbyte in Hrun.
  specialize (Hrun (proj1 Ho) Hlen32 (proj1 Hi1) ltac:(unfold item; lia) Hi3
                Hb0 Hidx Hh1).
  rewrite Hget in Hrun.
  set (h' := store_bytes (Z.to_nat (off + item)) (LittleEndian_PutUint32 tail)
               (heap s)) in *.
  assert (Hlen : length h' = length (heap s)) by apply store_bytes_length.
  assert (Hout : forall j : nat,
            Z.of_nat j < off + item \/ off + item + 4 <= Z.of_nat j ->
            h' !! j = heap s !! j).
  { intros j Hj. apply store_bytes_lookup_out.
    rewrite LittleEndian_PutUint32_length. lia. }
  assert (Hlink : read_link h' (off + item) = tail).
  { apply read_link_store; unfold heap_len in *; lia. }
  (* bytes in use *)
  unfold live_bytes in Htot, Hw. rewrite sumZ_app in Htot, Hw.
  simpl in Htot, Hw. unfold block_bytes at 2 in Htot.
  unfold block_bytes at 2 in Hw.
  fold (live_bytes l1) in Htot, Hw. fold (live_bytes l2) in Htot, Hw.
  pose proof (live_bytes_nonneg l1) as Hl10.
  pose proof (live_bytes_nonneg l2) as Hl20.
  assert (Hfree0 : 0 <= sumZ weight free) by (apply sumZ_nonneg, weight_nonneg).
  unfold MAX_POSSIBLE_ALLOCATION in Hrange.
  rewrite (uint32_small (nextPowerOf2GT8 size + 8)) in Hrun by lia.
  rewrite Htot in Hrun.
  replace (live_bytes l1 + (nextPowerOf2GT8 size + 8 + live_bytes l2)
           - (nextPowerOf2GT8 size + 8))
    with (live_bytes l1 + live_bytes l2) in Hrun by lia.
  rewrite (uint32_small (live_bytes l1 + live_bytes l2)) in Hrun by lia.
  (* the other blocks *)
  assert (Hperm :
    (entry_block off <$> l1 ++ (p, size) :: l2) ++ free
    ≡ₚ (item, idx) :: (entry_block off <$> l1 ++ l2) ++ free).
  { rewrite !fmap_app, fmap_cons. rewrite <- !app_assoc. simpl.
    symmetry. apply Permutation_middle. }
  rewrite Hperm in Hnd. rewrite fmap_cons in Hnd. simpl in Hnd.
  apply NoDup_cons in Hnd as [Hfresh Hnd].
  assert (Hrest : forall b, b ∈ (entry_block off <$> l1 ++ l2) ++ free ->
            block_ok s b /\ b.1 <> item).
  { intros b Hb'. split.
    - apply Hbl'. rewrite Hperm. apply list_elem_of_further, Hb'.
    - intros Heq. apply Hfresh. rewrite <- Heq.
      apply list_elem_of_fmap_2, Hb'. }
  assert (Hframe : forall b, b ∈ (entry_block off <$> l1 ++ l2) ++ free ->
            forall j : nat,
              (Z.to_nat (off + b.1) <= j < Z.to_nat (off + b.1) + 8)%nat ->
              h' !! j = heap s !! j).
  { intros b Hb' j Hj. destruct (Hrest b Hb') as [[Hb1 Hb2 _ _] Hbne].
    apply Hout. destruct (aligned_apart b.1 item Hb2 Hi2 Hbne); lia. }
  assert (Hchain_frame : forall i hd ci,
            chain (heap s) off hd ci ->
            (forall x, x ∈ ci -> (x, i) ∈ free) ->
            chain h' off hd ci).
  { intros i hd ci Hci Hall. eapply chain_frame; [|exact Hci].
    intros x Hx. apply read_link_frame. intros j Hj.
    apply (Hframe (x, i)); [|simpl; lia].
    apply elem_of_app. right. apply Hall, Hx. }
  exists (mkFBHA (bumper s) (<[Z.to_nat idx := item]> (heads s)) h'
            (max_heap_size s) off (live_bytes l1 + live_bytes l2)),
    (if Z.eq_dec item 0 then free else (item, idx) :: free).
  split; [exact Hrun|].
  constructor; simpl_state.
  - constructor; simpl_state; unfold heap_len in *; simpl_state;
      try assumption; try lia.
  - rewrite length_insert. exact Hh.
  - apply Forall_forall. intros b Hb'.
    apply (block_ok_mono s); simpl_state; unfold heap_len; simpl_state;
      try lia; try reflexivity.
    apply elem_of_app in Hb' as [Hb'|Hb'].
    + apply Hrest. apply elem_of_app. left. exact Hb'.
    + destruct (Z.eq_dec item 0).
      * apply Hrest. apply elem_of_app. right. exact Hb'.
      * apply elem_of_cons in Hb' as [->|Hb'].
        -- apply (Hbl' (entry_block off (p, size))).
           apply elem_of_app. left. apply list_elem_of_fmap_2, He.
        -- apply Hrest. apply elem_of_app. right. exact Hb'.
  - destruct (Z.eq_dec item 0); [exact Hnd|].
    rewrite fmap_app, fmap_cons. simpl.
    rewrite <- Permutation_middle. rewrite <- fmap_app.
    apply NoDup_cons. split; assumption.
  - apply Forall_app in Hsz as [Hs1 Hs2]. apply Forall_cons in Hs2 as [_ Hs2].
    apply Forall_app. split; assumption.
  - apply Forall_forall. intros e He'.
    assert (Hin_old : e ∈ l1 ++ (p, size) :: l2)
      by (apply elem_of_middle_weaken, He').
    rewrite <- (Hhdr' e Hin_old).
    apply (Hframe (entry_block off e)).
    + apply elem_of_app. left. apply list_elem_of_fmap_2, He'.
    + unfold entry_block. simpl.
      destruct (Hrest (entry_block off e)) as [[Hb1 _ _ _] _].
      { apply elem_of_app. left. apply list_elem_of_fmap_2, He'. }
      unfold entry_block in Hb1. simpl in Hb1.
      replace (off + (e.1 - off - 8)) with (e.1 - 8) by lia. lia.
  - intros i Hi. destruct (Z.eq_dec i idx) as [->|Hine].
    + destruct (Z.eq_dec item 0) as [Hz|Hnz].
      * exists item, []. split. { apply list_lookup_insert_eq. unfold N in *. lia. }
        split; [exact Hz|]. split; [apply NoDup_nil_2|].
        intros x Hx. apply elem_of_nil in Hx. destruct Hx.
      * exists item, (item :: c).
        assert (Hnotin : item ∉ c).
        { intros Hin. apply Hfresh. apply list_elem_of_fmap.
          exists (item, idx). split; [reflexivity|].
          apply elem_of_app. right. apply Hfree, Hin. }
        split. { apply list_lookup_insert_eq. unfold N in *. lia. }
        split.
        { simpl. split; [reflexivity|]. split; [exact Hnz|].
          rewrite Hlink. eapply Hchain_frame; eassumption. }
        split. { apply NoDup_cons. split; assumption. }
        intros x Hx. apply elem_of_cons in Hx as [->|Hx].
        -- apply list_elem_of_here.
        -- apply list_elem_of_further, Hfree, Hx.
    + destruct (Hch i Hi) as (hd & ci & Hh2 & Hci & Hndci & Hfreei).
      exists hd, ci.
      split. { rewrite list_lookup_insert_ne; [exact Hh2|lia]. }
      split. { eapply Hchain_frame; eassumption. }
      split; [exact Hndci|].
      intros x Hx. destruct (Z.eq_dec item 0).
      * apply Hfreei, Hx.
      * apply list_elem_of_further, Hfreei, Hx.
  - unfold live_bytes. rewrite sumZ_app. reflexivity.
  - unfold live_bytes. rewrite sumZ_app.
    fold (live_bytes l1). fold (live_bytes l2).
    destruct (Z.eq_dec item 0); [lia|].
    simpl. unfold weight at 1. simpl. lia.
Qed.

Lemma lookup_live_split p live size :
  lookup_live p live = Some size ->
  exists l1 l2, live = l1 ++ (p, size) :: l2 /\ remove_live p live = l1 ++ l2.
Proof.
  induction live as [|[q sz] live IH]; simpl; intros H; [discriminate|].
  destruct (Z.eqb_spec q p) as [->|Hne].
  - injection H as ->. exists [], live. split; reflexivity.
  - destruct (IH H) as (l1 & l2 & -> & Hr).
    exists ((q, sz) :: l1), l2. simpl. rewrite Hr. split; reflexivity.
Qed.

Lemma uint32_mod8 z : uint32 z mod 8 = z mod 8.
Proof.
  unfold uint32. change (2 ^ 32) with (8 * 2 ^ 29).
  rewrite Z.rem_mul_r by lia.
  rewrite Z.add_mod by lia. rewrite Z.mul_comm, Z.mod_mul by lia.
  rewrite Z.add_0_r. rewrite Z.mod_mod by lia. apply Z.mod_mod. lia.
Qed.

Lemma newAllocator_geom mem off :
  0 <= off < 2 ^ 32 ->
  Z.of_nat (length mem) + 2 ^ 24 + 16 <= 2 ^ 32 ->
  geom (newAllocator mem off).
Proof.
  intros Hoff Hlen. unfold newAllocator, ALIGNMENT.
  constructor; simpl_state; unfold heap_len; simpl_state; try lia.
  - destruct (Z.eqb_spec (off mod 8) 0); simpl; [lia|]. apply uint32_range.
  - destruct (Z.eqb_spec (off mod 8) 0) as [E|E]; simpl; [exact E|].
    rewrite uint32_mod8. pose proof (Z.div_mod off 8 ltac:(lia)) as Hd.
    replace (off + (8 - off mod 8)) with ((off / 8 + 1) * 8) by lia.
    apply Z.mod_mul. lia.
  - reflexivity.
Qed.

Lemma newAllocator_inv mem off :
  0 <= off < 2 ^ 32 ->
  Z.of_nat (length mem) + 2 ^ 24 + 16 <= 2 ^ 32 ->
  inv (newAllocator mem off) [] [].
Proof.
  intros Hoff Hlen. constructor.
  - apply newAllocator_geom; assumption.
  - reflexivity.
  - constructor.
  - constructor.
  - constructor.
  - constructor.
  - intros i Hi. exists 0, []. unfold newAllocator. simpl_state. split.
    + apply lookup_replicate_2. unfold N in *. lia.
    + split; [reflexivity|]. split; [constructor|].
      intros x Hx. apply elem_of_nil in Hx. destruct Hx.
  - reflexivity.
  - unfold live_bytes, newAllocator. simpl. lia.
Qed.

Lemma run_live_inv ops :
  forall s live free s' live',
    inv s live free ->
    run_live ops s live = Some (s', live') ->
    exists free', inv s' live' free'.
Proof.
  induction ops as [|[size|p] ops IH]; intros s live free s' live' I H;
    simpl in H.
  - injection H as <- <-. exists free. exact I.
  - destruct (allocate size s) as [[q|e|] s1] eqn:E; [| |discriminate].
    + destruct (inv_allocate _ _ _ _ _ _ I E) as (free1 & I1).
      exact (IH _ _ _ _ _ I1 H).
    + apply allocate_err in E as [-> _]. exact (IH _ _ _ _ _ I H).
  - destruct (lookup_live p live) as [size|] eqn:L; [|discriminate].
    apply lookup_live_split in L as (l1 & l2 & -> & Hr).
    destruct (inv_deallocate _ _ _ _ _ _ I) as (s1 & free1 & E & I1).
    rewrite E, Hr in H. exact (IH _ _ _ _ _ I1 H).
Qed.

(** ** The cursor under arbitrary calls *)

Lemma Forall_insert_Z (P : Z -> Prop) (l : list Z) i x :
  Forall P l -> P x -> Forall P (<[i := x]> l).
Proof.
  intros Hl Hx. apply Forall_lookup. intros j y Hj.
  destruct (decide (i = j)) as [->|Hne].
  - destruct (decide (j < length l)%nat).
    + rewrite list_lookup_insert_eq in Hj by assumption. congruence.
    + rewrite list_insert_ge in Hj by lia.
      rewrite Forall_lookup in Hl. eauto.
  - rewrite list_lookup_insert_ne in Hj by assumption.
    rewrite Forall_lookup in Hl. eauto.
Qed.

Lemma cursor_allocate s size p s' :
  cursor_inv s ->
  allocate size s = (Val p, s') ->
  cursor_inv s' /\ ptr_offset s' = ptr_offset s /\ bumper s <= bumper s' /\
  (0 < bumper s -> p <> uint32 (ptr_offset s + 8)).
Proof.
  intros [G Hhd] H. pose proof H as H0.
  apply allocate_val in H
    as (head & ptr & s1 & h' & Hsz & Hfit & Hidx & Hh & Hpath & Hlen & Hin
        & Hout & Hhdr & -> & ->).
  destruct Hpath as [[Hne Hf]|[-> Hb]].
  - apply take_from_free_list_val in Hf as (Hlohi & -> & ->).
    assert (Hhead : 0 <= head < 2 ^ 32).
    { rewrite Forall_lookup in Hhd. eauto. }
    destruct G as [Ho Ho8 Hb Hb8 Hl Hr].
    simpl_state. split; [|split; [reflexivity|split; [lia|]]].
    + constructor; simpl_state.
      * constructor; simpl_state; unfold heap_len in *; simpl_state;
          try assumption; try lia.
      * apply Forall_insert_Z; [exact Hhd|]. apply LittleEndian_Uint32_range.
    + intros _ Heq. apply uint32_eq_inv in Heq as (k & Hk).
      pose proof (uint32_range (head + 8)) as Hr8.
      assert (Hk0 : uint32 (head + 8) = uint32 8).
      { rewrite (uint32_small 8) by lia. lia. }
      apply uint32_eq_inv in Hk0 as (k' & Hk'). lia.
  - destruct (allocate_bump_path size s _ _ G H0 Hh)
      as (Hfit8 & Hp & _ & _ & h2 & Hlen2 & _ & _ & Hs').
    destruct (size_class_facts size Hsz) as (_ & Hpow & _ & Hrange).
    destruct (geom_bounds s G) as (B1 & B2).
    destruct G as [Ho Ho8 Hb' Hb8 Hl Hr].
    rewrite Hs', Hp. simpl_state.
    unfold MAX_POSSIBLE_ALLOCATION in *.
    split; [|split; [reflexivity|split; [lia|]]].
    + constructor; simpl_state; [|exact Hhd].
      constructor; simpl_state; unfold heap_len in *; simpl_state;
        try assumption; try lia.
      apply mod8_add; [exact Hb8|]. rewrite Hpow.
      replace (8 * 2 ^ class_index size + 8)
        with ((2 ^ class_index size + 1) * 8) by lia.
      apply Z.mod_mul. lia.
    + intros Hpos Heq. rewrite uint32_small in Heq by lia. lia.
Qed.

Lemma cursor_deallocate s pointer s' :
  cursor_inv s ->
  deallocate pointer s = (Val tt, s') ->
  cursor_inv s' /\ ptr_offset s' = ptr_offset s /\ bumper s' = bumper s.
Proof.
  intros [G Hhd] H.
  apply deallocate_val in H as (b & tail & H8 & Hb & Hidx & Ht & Hlohi & ->).
  simpl_state. split; [|split; reflexivity].
  destruct G as [Ho Ho8 Hb' Hb8 Hl Hr].
  constructor; simpl_state.
  - constructor; simpl_state; unfold heap_len in *; simpl_state;
      rewrite ?store_bytes_length; try assumption; try lia.
  - apply Forall_insert_Z; [exact Hhd|]. apply uint32_range.
Qed.

(** One call, whatever it is and however it ends (short of a panic),
    keeps the cursor invariant and never moves the cursor back. *)
Lemma cursor_step_allocate s size o s' :
  cursor_inv s -> allocate size s = (o, s') -> o <> Panic ->
  cursor_inv s' /\ ptr_offset s' = ptr_offset s /\ bumper s <= bumper s'.
Proof.
  intros I H Hnp. destruct o as [p|e|]; [| |congruence].
  - destruct (cursor_allocate _ _ _ _ I H) as (I' & Ho & Hb & _). auto.
  - apply allocate_err in H as [-> _]. split; [exact I|]. split; [reflexivity|lia].
Qed.

Lemma cursor_step_deallocate s pointer o s' :
  cursor_inv s -> deallocate pointer s = (o, s') -> o <> Panic ->
  cursor_inv s' /\ ptr_offset s' = ptr_offset s /\ bumper s <= bumper s'.
Proof.
  intros I H Hnp. destruct o as [[]|e|]; [| |congruence].
  - destruct (cursor_deallocate _ _ _ I H) as (I' & Ho & Hb). split; [exact I'|].
    split; [exact Ho|lia].
  - apply deallocate_err in H as [-> _]. split; [exact I|]. split; [reflexivity|lia].
Qed.

Lemma run_cursor ops :
  forall s s', cursor_inv s -> run ops s = Some s' ->
    cursor_inv s' /\ ptr_offset s' = ptr_offset s /\ bumper s <= bumper s'.
Proof.
  induction ops as [|[size|p] ops IH]; intros s s' I H; simpl in H.
  - injection H as <-. split; [exact I|]. split; [reflexivity|lia].
  - destruct (allocate size s) as [o s1] eqn:E.
    assert (Hnp : o <> Panic) by (intros ->; discriminate).
    destruct (cursor_step_allocate _ _ _ _ I E Hnp) as (I1 & Ho1 & Hb1).
    assert (Hrun : run ops s1 = Some s') by (destruct o; [exact H|exact H|congruence]).
    destruct (IH _ _ I1 Hrun) as (I' & Ho & Hb).
    split; [exact I'|]. split; [congruence|lia].
  - destruct (deallocate p s) as [o s1] eqn:E.
    assert (Hnp : o <> Panic) by (intros ->; discriminate).
    destruct (cursor_step_deallocate _ _ _ _ I E Hnp) as (I1 & Ho1 & Hb1).
    assert (Hrun : run ops s1 = Some s') by (destruct o; [exact H|exact H|congruence]).
    destruct (IH _ _ I1 Hrun) as (I' & Ho & Hb).
    split; [exact I'|]. split; [congruence|lia].
Qed.

Lemma returned_pointers_fresh ops :
  forall s, cursor_inv s -> 0 < bumper s ->
    uint32 (ptr_offset s + 8) ∉ returned_pointers ops s.
Proof.
  induction ops as [|[size|p] ops IH]; intros s I Hpos; simpl.
  - apply not_elem_of_nil.
  - destruct (allocate size s) as [[q|e|] s1] eqn:E.
    + destruct (cursor_allocate _ _ _ _ I E) as (I1 & Ho & Hb & Hq).
      apply not_elem_of_cons. split.
      * intros Heq. apply (Hq Hpos). congruence.
      * rewrite <- Ho. apply IH; [exact I1|lia].
    + apply allocate_err in E as [-> _]. apply IH; assumption.
    + apply not_elem_of_nil.
  - destruct (deallocate p s) as [[[]|e|] s1] eqn:E.
    + destruct (cursor_deallocate _ _ _ I E) as (I1 & Ho & Hb).
      rewrite <- Ho. apply IH; [exact I1|lia].
    + apply deallocate_err in E as [-> _]. apply IH; assumption.
    + apply not_elem_of_nil.
Qed.

Lemma newAllocator_cursor mem off :
  0 <= off < 2 ^ 32 ->
  Z.of_nat (length mem) + 2 ^ 24 + 16 <= 2 ^ 32 ->
  cursor_inv (newAllocator mem off).
Proof.
  intros Hoff Hlen. constructor; [apply newAllocator_geom; assumption|].
  unfold newAllocator. simpl_state. apply Forall_replicate. lia.
Qed.

(** * The statements of the specification *)

(** ** Size classes and the size check *)

Lemma uint32_add_idemp a b : uint32 (a + uint32 b) = uint32 (a + b).
Proof. unfold uint32. apply Zplus_mod_idemp_r. Qed.

(** Claim C8.  [allocate size] returns the error "size to large" exactly
    when [size > 16777216], so a request of exactly 16 MiB passes the size
    check.  Otherwise the block size is [nextPowerOf2GT8 size]: 8 when
    [size < 8], and for [size >= 8] the power of two [2^k] with
    [2^(k-1) < size <= 2^k], which is the least power of two that is at
    least [size].  The free-list index [TrailingZeros32 block_size - 3]
    lies in [0, N) and satisfies [block_size = 8 * 2^index].  A returning
    call uses exactly these: it adds [block_size + 8] to [total_size] and
    stores [index] in the header byte at [p - 8]. *)
Theorem size_classes_of_allocate (size : Z) (s : FreeingBumpHeapAllocator) :
  ((exists s', allocate size s = (Err err_size_too_large, s'))
   <-> MAX_POSSIBLE_ALLOCATION < size) /\
  (size <= MAX_POSSIBLE_ALLOCATION ->
   let block_size := nextPowerOf2GT8 size in
   let index := TrailingZeros32 block_size - 3 in
   (size < 8 -> block_size = 8) /\
   (8 <= size ->
    exists k, block_size = 2 ^ k /\ 2 ^ (k - 1) < size <= 2 ^ k /\
              forall j, 0 <= j -> size <= 2 ^ j -> 2 ^ k <= 2 ^ j) /\
   0 <= index < N /\ block_size = 8 * 2 ^ index /\
   forall p s',
     allocate size s = (Val p, s') ->
     total_size s' = uint32 (total_size s + block_size + 8) /\
     heap s' !! Z.to_nat (uint32 (p - 8)) = Some (uint8 index)).
Proof.
  split.
  - split.
    + intros [s' H]. apply allocate_err in H as [_ [[_ H]|[H _]]];
        [exact H|discriminate].
    + intros H. exists s. apply allocate_too_large, H.
  - intros Hmax. cbv zeta. fold (class_index size).
    destruct (size_class_facts size Hmax) as (Hidx & Hpow & _ & Hrange).
    split; [|split; [|split; [exact Hidx|split; [exact Hpow|]]]].
    + intros Hlt. unfold nextPowerOf2GT8.
      destruct (Z.ltb_spec size 8); [reflexivity|lia].
    + intros Hge. unfold MAX_POSSIBLE_ALLOCATION in Hmax.
      destruct (nextPowerOf2GT8_pow2 size) as (k & Hk & Hv & Hlo & Hhi); [lia|].
      exists k. split; [exact Hv|]. split; [lia|].
      intros j Hj Hsj. apply Z.pow_le_mono_r; [lia|].
      destruct (Z_le_gt_dec k j) as [|Hgt]; [assumption|].
      assert (2 ^ j <= 2 ^ (k - 1)) by (apply Z.pow_le_mono_r; lia). lia.
    + intros p s' H.
      apply allocate_val in H
        as (head & ptr & s1 & h' & _ & _ & _ & _ & Hpath & _ & _ & _ & Hhdr
            & -> & ->).
      assert (Ht : total_size s1 = total_size s).
      { destruct Hpath as [[_ Hf]|[_ Hb]].
        - apply take_from_free_list_val in Hf as (_ & _ & ->). reflexivity.
        - apply take_from_bump_val in Hb as (_ & ->). reflexivity. }
      simpl_state. split; [rewrite Ht; reflexivity|].
      unfold hdr_addr in Hhdr.
      replace (uint32 (uint32 (ptr_offset s1 + ptr) - 8))
        with (uint32 (ptr_offset s1 + uint32 (ptr - 8))); [exact Hhdr|].
      rewrite uint32_add_idemp. unfold uint32.
      rewrite Zminus_mod_idemp_l. f_equal. lia.
Qed.

Lemma size_classes_of_allocate_witness :
  nextPowerOf2GT8 100 = 8 * 2 ^ (TrailingZeros32 (nextPowerOf2GT8 100) - 3) /\
  ((exists s', allocate 16777217 (newAllocator (zero_mem 64) 0)
               = (Err err_size_too_large, s'))
   <-> MAX_POSSIBLE_ALLOCATION < 16777217).
Proof.
  split.
  - destruct (size_classes_of_allocate 100 (newAllocator (zero_mem 64) 0))
      as [_ H].
    destruct H as (_ & _ & _ & H & _); [vm_compute; discriminate|]. exact H.
  - exact (proj1 (size_classes_of_allocate 16777217
                    (newAllocator (zero_mem 64) 0))).
Defined.

(** ** Calls that return an error *)

(** Claim C6.  A call that returns an error leaves the allocator as it
    was: when [allocate] or [deallocate] returns an [error] value, the
    state after the call (cursor, free-list heads, [total_size] and the
    whole heap) equals the state before it, and the error is one of the
    three the code creates. *)
Theorem failed_calls_change_nothing (s s' : FreeingBumpHeapAllocator)
    (e : string) :
  (forall size,
     allocate size s = (Err e, s') ->
     s' = s /\ (e = err_size_too_large \/ e = err_out_of_space)) /\
  (forall pointer,
     deallocate pointer s = (Err e, s') ->
     s' = s /\ e = err_invalid_pointer).
Proof.
  split.
  - intros size H. apply allocate_err in H as [-> [[-> _]|[-> _]]]; auto.
  - intros pointer H. apply deallocate_err in H as (-> & -> & _). auto.
Qed.

Lemma failed_calls_change_nothing_witness :
  snd (allocate 16777217 (newAllocator (zero_mem 64) 0))
  = newAllocator (zero_mem 64) 0 /\
  snd (deallocate 3 (newAllocator (zero_mem 64) 0))
  = newAllocator (zero_mem 64) 0.
Proof.
  split.
  - apply (proj1 (failed_calls_change_nothing
                    (newAllocator (zero_mem 64) 0)
                    (snd (allocate 16777217 (newAllocator (zero_mem 64) 0)))
                    err_size_too_large) 16777217).
    reflexivity.
  - apply (proj2 (failed_calls_change_nothing
                    (newAllocator (zero_mem 64) 0)
                    (snd (deallocate 3 (newAllocator (zero_mem 64) 0)))
                    err_invalid_pointer) 3).
    reflexivity.
Defined.

(** A panic, unlike a returned error, can leave a call half done: here
    the last [allocate 4] advances the cursor from 40 to 56 and then
    panics on the first header byte, which lies outside the 32-byte
    heap. *)
Example panic_after_bump :
  exists s,
    (do allocate 4 then do deallocate 8 then do allocate 9 then
     deallocate 24) (newAllocator (zero_mem 32) 0) = (Val tt, s) /\
    bumper s = 40 /\
    fst (allocate 4 s) = Panic /\ bumper (snd (allocate 4 s)) = 56.
Proof.
  eexists. split; [vm_compute; reflexivity|].
  split; [reflexivity|]. split; vm_compute; reflexivity.
Qed.

(** ** Bytes in use *)

Lemma live_bytes_cons p size live :
  live_bytes ((p, size) :: live) = nextPowerOf2GT8 size + 8 + live_bytes live.
Proof. reflexivity. Qed.

(** The counter of bytes in use where the 32-bit arithmetic cannot
    wrap.  Start from a fresh allocator over a heap of at most
    [2^32 - 2^24 - 16] bytes and make any sequence of calls in which
    [deallocate] is only given live pointers and nothing panics.  Then [total_size] is the sum, over the
    live allocations, of the rounded size plus 8; it is 0 when nothing is
    live; a further returning [allocate size] adds exactly
    [nextPowerOf2GT8 size + 8]; and [deallocate] of any live pointer
    returns and subtracts exactly [8 * 2^index + 8], where [index] is the
    size class of that allocation. *)
Theorem bytes_in_use_invariant mem off ops s live :
  0 <= off < 2 ^ 32 ->
  Z.of_nat (length mem) + 2 ^ 24 + 16 <= 2 ^ 32 ->
  run_live ops (newAllocator mem off) [] = Some (s, live) ->
  total_size s = live_bytes live /\
  (live = [] -> total_size s = 0) /\
  (forall size p s2,
     allocate size s = (Val p, s2) ->
     total_size s2 = total_size s + (nextPowerOf2GT8 size + 8)) /\
  (forall p size,
     lookup_live p live = Some size ->
     exists s2,
       deallocate p s = (Val tt, s2) /\
       total_size s2 = total_size s - (8 * 2 ^ class_index size + 8)).
Proof.
  intros Hoff Hlen Hrun.
  destruct (run_live_inv ops _ _ _ _ _ (newAllocator_inv mem off Hoff Hlen) Hrun)
    as (free & I).
  pose proof (i_total _ _ _ I) as Htot.
  split; [exact Htot|]. split; [intros ->; exact Htot|]. split.
  - intros size p s2 H.
    destruct (inv_allocate _ _ _ _ _ _ I H) as (free2 & I2).
    rewrite (i_total _ _ _ I2), live_bytes_cons, Htot. lia.
  - intros p size L.
    apply lookup_live_split in L as (l1 & l2 & -> & _).
    destruct (inv_deallocate _ _ _ _ _ _ I) as (s2 & free2 & E & I2).
    exists s2. split; [exact E|].
    rewrite (i_total _ _ _ I2), Htot.
    pose proof (i_size _ _ _ I) as Hsz. rewrite Forall_forall in Hsz.
    assert (Hmax : size <= MAX_POSSIBLE_ALLOCATION).
    { apply (Hsz (p, size)). apply elem_of_app. right. apply list_elem_of_here. }
    destruct (size_class_facts size Hmax) as (_ & Hpow & _).
    unfold live_bytes. rewrite !sumZ_app. simpl. unfold block_bytes. lia.
Qed.

Lemma bytes_in_use_invariant_witness :
  from_option (fun r => total_size r.1 = live_bytes r.2 /\ r.2 = [])
    False
    (run_live [Allocate 4; Allocate 20; Deallocate 24; Deallocate 8]
       (newAllocator (zero_mem 128) 0) []).
Proof.
  destruct (run_live [Allocate 4; Allocate 20; Deallocate 24; Deallocate 8]
              (newAllocator (zero_mem 128) 0) []) as [[s live]|] eqn:E.
  - simpl. split.
    + apply (bytes_in_use_invariant (zero_mem 128) 0
               [Allocate 4; Allocate 20; Deallocate 24; Deallocate 8] s live);
        [lia | vm_compute; discriminate | exact E].
    + vm_compute in E. injection E as _ <-. reflexivity.
  - vm_compute in E. discriminate E.
Defined.

(** ** The block at offset 0 *)

(** The block at offset 0 where the cursor cannot wrap.  Take a fresh
    allocator over a heap of at most [2^32 - 2^24 - 16] bytes and let
    [p0] be the pointer of its first returning [allocate]: the block at relative offset 0, so
    [p0 = ptr_offset + 8].  Whatever calls follow, no later [allocate]
    returns [p0].  In particular, when [p0] is deallocated, the head of
    the free list of its size class becomes 0, which [allocate] reads as
    an empty list: an [allocate] of that class that returns from that
    state takes its block at the cursor, advances the cursor, and returns
    a pointer other than [p0]. *)
Theorem first_block_never_returned mem off size0 p0 s1 :
  0 <= off < 2 ^ 32 ->
  Z.of_nat (length mem) + 2 ^ 24 + 16 <= 2 ^ 32 ->
  allocate size0 (newAllocator mem off) = (Val p0, s1) ->
  p0 = ptr_offset s1 + 8 /\
  (forall ops, p0 ∉ returned_pointers ops s1) /\
  (forall ops s s2,
     run ops s1 = Some s ->
     deallocate p0 s = (Val tt, s2) ->
     exists b,
       heap s !! Z.to_nat (ptr_offset s) = Some b /\
       heads s2 !! Z.to_nat (byte_to_Z b) = Some 0 /\
       bumper s2 = bumper s /\
       forall size p s3,
         class_index size = byte_to_Z b ->
         allocate size s2 = (Val p, s3) ->
         p = ptr_offset s2 + bumper s2 + 8 /\
         bumper s3 = bumper s2 + (nextPowerOf2GT8 size + 8) /\
         p <> p0).
Proof.
  intros Hoff Hlen H0.
  pose proof (newAllocator_cursor mem off Hoff Hlen) as I0.
  set (s0 := newAllocator mem off) in *.
  assert (Hbump0 : bumper s0 = 0) by reflexivity.
  assert (Hmax : size0 <= MAX_POSSIBLE_ALLOCATION).
  { destruct (allocate_cases size0 s0)
      as [(Hb & E)|[(Hb & Hf & E)|(Hb & Hf & E)]];
      [rewrite E in H0; discriminate | lia | lia]. }
  destruct (size_class_facts size0 Hmax) as (Hidx0 & _ & _ & Hrange0).
  assert (Hhead0 : heads s0 !! Z.to_nat (class_index size0) = Some 0).
  { unfold s0, newAllocator. simpl_state. apply lookup_replicate_2.
    unfold N in *. lia. }
  destruct (cursor_allocate _ _ _ _ I0 H0) as (I1 & Ho1 & _ & _).
  destruct (allocate_bump_path _ _ _ _ (c_geom _ I0) H0 Hhead0)
    as (Hfit0 & Hp0 & _ & _ & h1 & _ & _ & _ & Hs1).
  rewrite Hbump0 in Hfit0, Hp0, Hs1.
  assert (Hb1 : 0 < bumper s1).
  { rewrite Hs1. simpl_state. lia. }
  assert (Hp0' : p0 = ptr_offset s1 + 8).
  { rewrite Hp0, Ho1. lia. }
  assert (Hp0u : p0 = uint32 (ptr_offset s1 + 8)).
  { rewrite uint32_small; [exact Hp0'|].
    pose proof (c_geom _ I0) as [G1 _ _ _ G5 _].
    rewrite Ho1. lia. }
  split; [exact Hp0'|]. split.
  - intros ops. rewrite Hp0u. apply returned_pointers_fresh; assumption.
  - intros ops s s2 Hrun Hd.
    destruct (run_cursor ops _ _ I1 Hrun) as (I & Ho & Hb).
    destruct (cursor_deallocate _ _ _ I Hd) as (I2 & Ho2 & Hb2).
    apply deallocate_val in Hd as (b & tail & _ & Hbyte & Hidx & Ht & _ & Hs2).
    replace (uint32 (p0 - ptr_offset s)) with 8 in Hbyte, Hs2
      by (rewrite Ho, Hp0'; replace (ptr_offset s1 + 8 - ptr_offset s1) with 8 by lia;
          reflexivity).
    change (uint32 (8 - 8)) with 0 in Hbyte, Hs2.
    pose proof (c_geom _ I) as [Go _ _ _ _ _].
    rewrite Z.add_0_r, (uint32_small (ptr_offset s)) in Hbyte by lia.
    exists b. split; [exact Hbyte|]. split.
    { rewrite Hs2. simpl_state. apply list_lookup_insert_eq.
      apply lookup_lt_Some in Ht. exact Ht. }
    split; [exact Hb2|].
    intros size p s3 Hcls Ha.
    assert (Hhead : heads s2 !! Z.to_nat (class_index size) = Some 0).
    { rewrite Hcls, Hs2. simpl_state. apply list_lookup_insert_eq.
      apply lookup_lt_Some in Ht. exact Ht. }
    destruct (allocate_bump_path _ _ _ _ (c_geom _ I2) Ha Hhead)
      as (_ & Hp & _ & _ & h3 & _ & _ & _ & Hs3).
    split; [exact Hp|]. split.
    { rewrite Hs3. reflexivity. }
    rewrite Hp, Hp0', Ho2, Ho, Hb2. lia.
Qed.

Lemma first_block_never_returned_witness :
  8 ∉ returned_pointers [Deallocate 8; Allocate 4; Allocate 4]
        (snd (allocate 4 (newAllocator (zero_mem 64) 0))).
Proof.
  refine (proj1 (proj2 (first_block_never_returned (zero_mem 64) 0 4 8
                          (snd (allocate 4 (newAllocator (zero_mem 64) 0)))
                          _ _ _)) _).
  - lia.
  - vm_compute. discriminate.
  - vm_compute. reflexivity.
Defined.

(** ** Where the code departs from the specification *)

(** Claim C1.  The bump path has no bound of its own.  On a 32-byte heap,
    after [allocate 4] and [deallocate 8] the cursor is at 16 while
    [total_size] is back to 0; [allocate 9] then finds its free list
    empty, passes the only space check, advances the cursor to 40 and
    returns 24: the block occupies bytes 16..39 of a 32-byte region. *)
Theorem bump_leaves_usable_region :
  exists s1 s2 s3,
    allocate 4 (newAllocator (zero_mem 32) 0) = (Val 8, s1) /\
    deallocate 8 s1 = (Val tt, s2) /\
    heads s2 !! Z.to_nat (class_index 9) = Some 0 /\
    max_heap_size s2 < bumper s2 + (nextPowerOf2GT8 9 + 8) /\
    allocate 9 s2 = (Val 24, s3) /\
    bumper s3 = 40 /\ max_heap_size s3 = 32 /\ heap_len s3 = 32.
Proof.
  eexists _, _, _. split; [vm_compute; reflexivity|].
  split; [vm_compute; reflexivity|].
  split; [vm_compute; reflexivity|].
  split; [vm_compute; reflexivity|].
  split; [vm_compute; reflexivity|].
  split; [vm_compute; reflexivity|]. split; vm_compute; reflexivity.
Qed.

(** Claim C2.  The scenario of the specification, on a heap of 1024
    bytes with base offset 0: [allocate 4] returns 8, [allocate 4] returns
    24, [deallocate 8] sets the head of class 0 to 0, and the next
    [allocate 4] does not return 8: it bumps, returns 40 and moves the
    cursor from 32 to 48. *)
Theorem first_block_not_reused :
  exists s1 s2 s3 s4,
    max_heap_size (newAllocator (zero_mem 1024) 0) = 1024 /\
    allocate 4 (newAllocator (zero_mem 1024) 0) = (Val 8, s1) /\
    total_size s1 = 16 /\
    allocate 4 s1 = (Val 24, s2) /\ total_size s2 = 32 /\
    deallocate 8 s2 = (Val tt, s3) /\
    heads s3 !! 0%nat = Some 0 /\ total_size s3 = 16 /\ bumper s3 = 32 /\
    allocate 4 s3 = (Val 40, s4) /\ bumper s4 = 48 /\ total_size s4 = 32.
Proof.
  eexists _, _, _, _.
  repeat (split; [vm_compute; reflexivity|]). vm_compute. reflexivity.
Qed.

(** Every other freed block is reused: in a run from a fresh allocator,
    after [deallocate] of a live pointer [p] whose block is not the one at
    offset 0, a returning [allocate] of the same size class returns [p]
    and leaves the cursor where it was. *)
Lemma freed_block_reused mem off ops s live p size size' :
  0 <= off < 2 ^ 32 ->
  Z.of_nat (length mem) + 2 ^ 24 + 16 <= 2 ^ 32 ->
  run_live ops (newAllocator mem off) [] = Some (s, live) ->
  lookup_live p live = Some size ->
  p <> ptr_offset s + 8 ->
  class_index size' = class_index size ->
  exists s2,
    deallocate p s = (Val tt, s2) /\
    forall q s3,
      allocate size' s2 = (Val q, s3) -> q = p /\ bumper s3 = bumper s2.
Proof.
  intros Hoff Hlen Hrun L Hp Hcls.
  destruct (run_live_inv ops _ _ _ _ _ (newAllocator_inv mem off Hoff Hlen) Hrun)
    as (free & I).
  apply lookup_live_split in L as (l1 & l2 & -> & _).
  destruct (inv_deallocate _ _ _ _ _ _ I) as (s2 & free2 & E & I2).
  exists s2. split; [exact E|]. intros q s3 Ha.
  assert (He : (p, size) ∈ l1 ++ (p, size) :: l2).
  { apply elem_of_app. right. apply list_elem_of_here. }
  pose proof (i_blocks _ _ _ I) as Hbl. rewrite Forall_forall in Hbl.
  pose proof (i_size _ _ _ I) as Hsz. rewrite Forall_forall in Hsz.
  pose proof (i_hdr _ _ _ I) as Hhdr. rewrite Forall_forall in Hhdr.
  destruct (size_class_facts size (Hsz _ He)) as (Hidx & _).
  destruct (Hbl (entry_block (ptr_offset s) (p, size))) as [Hi1 _ Hi3 _].
  { apply elem_of_app. left. apply list_elem_of_fmap_2, He. }
  unfold entry_block in Hi1, Hi3. simpl in Hi1, Hi3.
  pose proof (i_geom _ _ _ I) as [Ho _ _ _ Hl _].
  assert (Hheap : 0 <= heap_len s) by (unfold heap_len; lia).
  apply deallocate_val in E as (b & tail & _ & Hb & _ & Ht & _ & Hs2).
  replace (uint32 (p - ptr_offset s)) with (p - ptr_offset s) in Hb, Hs2
    by (rewrite uint32_small; lia).
  replace (uint32 (p - ptr_offset s - 8)) with (p - ptr_offset s - 8)
    in Hb, Hs2 by (rewrite uint32_small; lia).
  replace (ptr_offset s + (p - ptr_offset s - 8)) with (p - 8) in Hb, Hs2
    by lia.
  rewrite (uint32_small (p - 8)) in Hb, Hs2 by lia.
  pose proof (Hhdr _ He) as Hb'. simpl in Hb'. rewrite Hb' in Hb.
  injection Hb as <-.
  rewrite byte_to_Z_uint8_small in Ht, Hs2 by (unfold N in Hidx; lia).
  assert (Hhead : heads s2 !! Z.to_nat (class_index size')
                  = Some (p - ptr_offset s - 8)).
  { rewrite Hcls, Hs2. simpl_state. apply list_lookup_insert_eq.
    apply lookup_lt_Some in Ht. exact Ht. }
  assert (Ho2 : ptr_offset s2 = ptr_offset s) by (rewrite Hs2; reflexivity).
  assert (Hl2 : heap_len s2 = heap_len s).
  { rewrite Hs2. unfold heap_len. simpl_state.
    rewrite store_bytes_length. reflexivity. }
  destruct (allocate_reuse_path size' s2 q s3 (p - ptr_offset s - 8))
    as (Hq & _ & _ & h3 & _ & _ & _ & Hs3); try assumption; try lia.
  split; [lia|]. rewrite Hs3. reflexivity.
Qed.

(** Claim C3.  A pointer below the base offset is not rejected: with
    base offset 16, [deallocate 8] computes [8 - 16] modulo [2^32], finds
    it at least 8, and goes on to push a block, changing the head of
    class 0 and [total_size]. *)
Theorem deallocate_below_base_offset :
  exists s',
    ptr_offset (newAllocator (zero_mem 64) 16) = 16 /\
    deallocate 8 (newAllocator (zero_mem 64) 16) = (Val tt, s') /\
    heads s' !! 0%nat = Some 4294967280 /\
    total_size s' = 4294967280 /\
    s' <> newAllocator (zero_mem 64) 16.
Proof.
  eexists. split; [reflexivity|]. split; [vm_compute; reflexivity|].
  split; [reflexivity|]. split; [reflexivity|].
  intros H. apply (f_equal total_size) in H. vm_compute in H. discriminate H.
Qed.

(** Pointers from the base offset up to 7 bytes past it are rejected
    with the state unchanged. *)
Lemma deallocate_near_base pointer s :
  0 <= ptr_offset s -> ptr_offset s <= pointer < ptr_offset s + 8 ->
  deallocate pointer s = (Err err_invalid_pointer, s).
Proof.
  intros Ho Hp. apply deallocate_invalid. rewrite uint32_small; lia.
Qed.

(** [newAllocator] computes [max_heap_size] from the offset it is given,
    before that offset is aligned. *)
Lemma newAllocator_max_heap_size mem off :
  max_heap_size (newAllocator mem off)
  = uint32 (uint32 (Z.of_nat (length mem)) - off).
Proof. reflexivity. Qed.

(** Claim C5.  With a 64-byte heap and a requested offset of 3 the base
    offset becomes 8, but [max_heap_size] is 61, not [64 - 8 = 56]. *)
Theorem usable_size_before_alignment :
  ptr_offset (newAllocator (zero_mem 64) 3) = 8 /\
  max_heap_size (newAllocator (zero_mem 64) 3) = 61 /\
  max_heap_size (newAllocator (zero_mem 64) 3)
  <> Z.of_nat (length (zero_mem 64))
     - ptr_offset (newAllocator (zero_mem 64) 3).
Proof.
  split; [reflexivity|]. split; [reflexivity|]. vm_compute. discriminate.
Qed.

(** ** The size-class byte of a header *)

(** Claim C4, as the code has it.  [deallocate] does not validate the
    header byte: it indexes [heads] with it, and a byte of 22 or more makes
    that index expression panic, before anything is written; no [error] is
    returned. *)
Theorem deallocate_unchecked_class pointer s b :
  8 <= uint32 (pointer - ptr_offset s) ->
  heap s !! Z.to_nat (uint32 (ptr_offset s
                              + uint32 (uint32 (pointer - ptr_offset s) - 8)))
    = Some b ->
  N <= byte_to_Z b ->
  deallocate pointer s = (Panic, s).
Proof.
  intros H8 Hb HN. rewrite deallocate_passes by exact H8.
  unfold deallocate_body, bind, get_heap_byte. rewrite Hb.
  unfold heads_get.
  destruct (Z.ltb_spec (byte_to_Z b) N); [lia|].
  rewrite andb_false_r. reflexivity.
Qed.

Lemma deallocate_unchecked_class_counterexample :
  heap (newAllocator corrupt_mem 0) !! 0%nat = Some x16 /\
  byte_to_Z x16 = 22 /\
  deallocate 8 (newAllocator corrupt_mem 0)
  = (Panic, newAllocator corrupt_mem 0) /\
  ~ exists e s', deallocate 8 (newAllocator corrupt_mem 0) = (Err e, s').
Proof.
  split; [reflexivity|]. split; [reflexivity|]. split; [reflexivity|].
  intros (e & s' & H). vm_compute in H. discriminate H.
Qed.

Lemma deallocate_unchecked_class_witness :
  deallocate 8 (newAllocator corrupt_mem 0)
  = (Panic, newAllocator corrupt_mem 0).
Proof.
  apply (deallocate_unchecked_class 8 (newAllocator corrupt_mem 0) x16).
  - vm_compute. discriminate.
  - reflexivity.
  - vm_compute. discriminate.
Defined.

(** ** The median *)

Lemma sort_Slice_sorted l : Sorted Z.le (sort_Slice l).
Proof. unfold sort_Slice. apply Sorted_merge_sort. apply _. Qed.

Lemma sort_Slice_perm l : sort_Slice l ≡ₚ l.
Proof. unfold sort_Slice. apply merge_sort_Permutation. Qed.

Lemma sort_Slice_length l : length (sort_Slice l) = length l.
Proof. apply Permutation_length, sort_Slice_perm. Qed.

Lemma median_two_panics x y : median [x; y] = Panic.
Proof.
  unfold median. rewrite sort_Slice_length.
  change (Z.of_nat (length [x; y])) with 2.
  change (2 =? 0) with false. change (2 mod 2 =? 0) with true. cbv iota.
  change (Z.to_nat (2 / 2 + 1)) with 2%nat.
  rewrite (lookup_ge_None_2 (sort_Slice [x; y]) 2)
    by (rewrite sort_Slice_length; simpl; lia).
  destruct (sort_Slice [x; y] !! Z.to_nat (2 / 2 - 1)); reflexivity.
Qed.

(** What [median] computes when it returns.  It sorts its argument; the
    empty list yields an error; a list of odd length [m] yields the sorted
    element at index [m/2]; a list of even length [m >= 4] yields half the
    64-bit sum of the sorted elements at indices [m/2 - 1] and
    [m/2 + 1]. *)
Theorem median_of_sorted (l : list Z) :
  let sorted := sort_Slice l in
  let m := Z.of_nat (length l) in
  Sorted Z.le sorted /\ sorted ≡ₚ l /\
  (m = 0 -> median l = Err err_empty_list) /\
  (m mod 2 = 1 ->
   exists x, sorted !! Z.to_nat (m / 2) = Some x /\ median l = Val x) /\
  (m mod 2 = 0 -> 4 <= m ->
   exists a b,
     sorted !! Z.to_nat (m / 2 - 1) = Some a /\
     sorted !! Z.to_nat (m / 2 + 1) = Some b /\
     median l = Val (uint64 (a + b) / 2)).
Proof.
  cbv zeta. split; [apply sort_Slice_sorted|]. split; [apply sort_Slice_perm|].
  unfold median. rewrite sort_Slice_length.
  set (m := Z.of_nat (length l)).
  assert (Hm : 0 <= m) by (unfold m; lia).
  assert (Hlen : length (sort_Slice l) = Z.to_nat m)
    by (rewrite sort_Slice_length; unfold m; lia).
  split; [|split].
  - intros ->. reflexivity.
  - intros Hodd. destruct (Z.eqb_spec m 0) as [->|Hne]; [discriminate|].
    rewrite Hodd. simpl.
    pose proof (Z.div_mod m 2 ltac:(lia)) as Hd.
    destruct (lookup_lt_is_Some_2 (sort_Slice l) (Z.to_nat (m / 2))) as [x Hx];
      [lia|].
    exists x. rewrite Hx. auto.
  - intros Heven H4. destruct (Z.eqb_spec m 0) as [->|Hne]; [lia|].
    rewrite Heven. simpl.
    pose proof (Z.div_mod m 2 ltac:(lia)) as Hd.
    destruct (lookup_lt_is_Some_2 (sort_Slice l) (Z.to_nat (m / 2 - 1)))
      as [a Ha]; [lia|].
    destruct (lookup_lt_is_Some_2 (sort_Slice l) (Z.to_nat (m / 2 + 1)))
      as [b Hb]; [lia|].
    exists a, b. rewrite Ha, Hb. auto.
Qed.

(** Claim C9.  The even branch of [median] reads the sorted slice at
    index [m/2 + 1].  On the two-element list [[1; 2]] that index is 2,
    one past the end: the call panics and yields neither the average of
    two elements nor an error. *)
Theorem median_length_two_counterexample :
  Z.of_nat (length [1; 2]) mod 2 = 0 /\ median [1; 2] = Panic /\
  ~ exists v, median [1; 2] = Val v.
Proof.
  split; [reflexivity|]. split; [reflexivity|].
  intros [v H]. vm_compute in H. discriminate H.
Qed.

Lemma median_of_sorted_witness :
  median [5; 1; 9; 7] = Val 7 /\ median [5; 1; 9] = Val 5 /\
  median [] = Err err_empty_list.
Proof.
  split; [|split].
  - destruct (median_of_sorted [5; 1; 9; 7]) as (_ & _ & _ & _ & H).
    destruct H as (a & b & Ha & Hb & ->); [reflexivity|simpl; lia|].
    vm_compute in Ha, Hb. injection Ha as <-. injection Hb as <-. reflexivity.
  - destruct (median_of_sorted [5; 1; 9]) as (_ & _ & _ & H & _).
    destruct H as (x & Hx & ->); [reflexivity|].
    vm_compute in Hx. injection Hx as <-. reflexivity.
  - destruct (median_of_sorted []) as (_ & _ & H & _). apply H. reflexivity.
Defined.

(** * Further properties of the code *)

(** ** [slotOffset] *)

(** [slotOffset] returns its error exactly when the end is not after the
    start; otherwise it returns the distance, which is positive and is not
    affected by the 64-bit wrap-around of the subtraction. *)
Theorem slotOffset_distance (start end_ : Z) :
  0 <= start < 2 ^ 64 -> 0 <= end_ < 2 ^ 64 ->
  (end_ <= start -> slotOffset start end_ = Err err_slot_offset) /\
  (start < end_ ->
   exists os, slotOffset start end_ = Val os /\ 0 < os /\ start + os = end_).
Proof.
  intros Hs He. unfold slotOffset. split.
  - intros Hle. destruct (Z.leb_spec end_ start); [reflexivity|lia].
  - intros Hlt. destruct (Z.leb_spec end_ start); [lia|].
    exists (end_ - start). unfold uint64. rewrite Z.mod_small by lia.
    split; [reflexivity|lia].
Qed.

Lemma slotOffset_distance_witness :
  slotOffset 7 7 = Err err_slot_offset /\ slotOffset 3 10 = Val 7.
Proof.
  split.
  - apply (proj1 (slotOffset_distance 7 7 ltac:(lia) ltac:(lia))). lia.
  - destruct (proj2 (slotOffset_distance 3 10 ltac:(lia) ltac:(lia)))
      as (os & -> & _ & H); [lia|]. f_equal. lia.
Defined.

(** ** Heap accessors *)

(** A byte stored with [set_heap] is the byte [get_heap_byte] reads back
    at the same offset, and reads at every other heap address give what
    they gave before the store. *)
Theorem set_heap_then_get_heap_byte ptr v s s' :
  set_heap ptr v s = (Val tt, s') ->
  get_heap_byte ptr s' = (Val v, s') /\
  forall ptr' b,
    uint32 (ptr_offset s + ptr') <> uint32 (ptr_offset s + ptr) ->
    get_heap_byte ptr' s = (Val b, s) ->
    get_heap_byte ptr' s' = (Val b, s').
Proof.
  intros H. apply set_heap_val in H as (Hlt & ->).
  pose proof (uint32_range (ptr_offset s + ptr)) as Hr.
  unfold heap_len in Hlt. split.
  - unfold get_heap_byte. simpl_state.
    rewrite list_lookup_insert_eq by lia. reflexivity.
  - intros ptr' b Hne Hget. apply get_heap_byte_val in Hget as (_ & Hb).
    unfold get_heap_byte. simpl_state.
    pose proof (uint32_range (ptr_offset s + ptr')) as Hr'.
    rewrite list_lookup_insert_ne by lia. rewrite Hb. reflexivity.
Qed.

Lemma set_heap_then_get_heap_byte_witness :
  get_heap_byte 5 (snd (set_heap 5 xff (newAllocator (zero_mem 16) 0)))
  = (Val xff, snd (set_heap 5 xff (newAllocator (zero_mem 16) 0))).
Proof.
  apply (proj1 (set_heap_then_get_heap_byte 5 xff
                  (newAllocator (zero_mem 16) 0) _ eq_refl)).
Defined.

Lemma hi_is_lo_plus_4 lo :
  0 <= lo < 2 ^ 32 -> lo <= uint32 (lo + 4) -> uint32 (lo + 4) = lo + 4.
Proof.
  intros Hlo Hle. destruct (Z_lt_dec (lo + 4) (2 ^ 32)).
  - apply uint32_small. lia.
  - exfalso. assert (uint32 (lo + 4) = lo + 4 - 2 ^ 32); [|lia].
    unfold uint32. symmetry. apply (Z.mod_unique _ _ 1); lia.
Qed.

(** A 32-bit value stored little-endian with [set_heap_4bytes] is the
    value decoded from what [get_heap_4bytes] returns at the same
    offset. *)
Theorem set_heap_4bytes_then_get ptr v s s' :
  0 <= v < 2 ^ 32 ->
  set_heap_4bytes ptr (LittleEndian_PutUint32 v) s = (Val tt, s') ->
  exists bs,
    get_heap_4bytes ptr s' = (Val bs, s') /\ LittleEndian_Uint32 bs = v.
Proof.
  intros Hv H. apply set_heap_4bytes_val in H. cbv zeta in H.
  destruct H as (Hlohi & ->).
  pose proof (uint32_range (ptr_offset s + ptr)) as Hr.
  pose proof (hi_is_lo_plus_4 _ Hr (proj1 Hlohi)) as Hhi.
  rewrite Hhi in Hlohi |- *.
  replace (Z.to_nat (uint32 (ptr_offset s + ptr) + 4
                     - uint32 (ptr_offset s + ptr))) with 4%nat by lia.
  change (take 4 (LittleEndian_PutUint32 v)) with (LittleEndian_PutUint32 v).
  unfold get_heap_4bytes, heap_len in *. simpl_state.
  rewrite store_bytes_length. rewrite Hhi.
  destruct ((uint32 (ptr_offset s + ptr) <=? uint32 (ptr_offset s + ptr) + 4)
            && (uint32 (ptr_offset s + ptr) + 4 <=? Z.of_nat (length (heap s))))
    eqn:E.
  2:{ apply andb_false_iff in E. destruct E as [E|E]; apply Z.leb_gt in E; lia. }
  eexists. split; [reflexivity|].
  replace (Z.to_nat (uint32 (ptr_offset s + ptr) + 4
                     - uint32 (ptr_offset s + ptr))) with 4%nat by lia.
  change 4%nat with (length (LittleEndian_PutUint32 v)) at 1.
  rewrite store_bytes_read.
  - apply LittleEndian_roundtrip, Hv.
  - change (length (LittleEndian_PutUint32 v)) with 4%nat. lia.
Qed.

Lemma set_heap_4bytes_then_get_witness :
  exists bs,
    get_heap_4bytes 8
      (snd (set_heap_4bytes 8 (LittleEndian_PutUint32 305419896)
              (newAllocator (zero_mem 16) 0)))
    = (Val bs,
       snd (set_heap_4bytes 8 (LittleEndian_PutUint32 305419896)
              (newAllocator (zero_mem 16) 0))) /\
    LittleEndian_Uint32 bs = 305419896.
Proof.
  apply (set_heap_4bytes_then_get 8 305419896
           (newAllocator (zero_mem 16) 0)); [lia|reflexivity].
Defined.

(** ** Size classes *)

Lemma pow2_lt_inv a b : 0 <= b -> 2 ^ a < 2 ^ b -> a < b.
Proof.
  intros Hb H. destruct (Z_lt_ge_dec a b) as [|Hge]; [assumption|].
  assert (2 ^ b <= 2 ^ a) by (apply Z.pow_le_mono_r; lia). lia.
Qed.

Lemma nextPowerOf2GT8_fixed k :
  3 <= k <= 31 -> nextPowerOf2GT8 (2 ^ k) = 2 ^ k.
Proof.
  intros Hk.
  assert (2 ^ 3 <= 2 ^ k <= 2 ^ 31) by (split; apply Z.pow_le_mono_r; lia).
  destruct (nextPowerOf2GT8_pow2 (2 ^ k)) as (j & Hj & -> & Hlo & Hhi);
    [lia|].
  f_equal. apply pow2_lt_inv in Hlo; [|lia].
  assert (k <= j); [|lia].
  destruct (Z_le_gt_dec k j) as [|Hgt]; [assumption|].
  assert (2 ^ j < 2 ^ k) by (apply Z.pow_lt_mono_r; lia). lia.
Qed.

(** [nextPowerOf2GT8] leaves the powers of two from 8 to [2^31] as they
    are, so rounding twice is rounding once. *)
Theorem nextPowerOf2GT8_idempotent v :
  v <= 2 ^ 31 ->
  (forall k, 3 <= k <= 31 -> nextPowerOf2GT8 (2 ^ k) = 2 ^ k) /\
  nextPowerOf2GT8 (nextPowerOf2GT8 v) = nextPowerOf2GT8 v.
Proof.
  intros Hv. split; [exact nextPowerOf2GT8_fixed|].
  destruct (Z_lt_dec v 8) as [Hlt|Hge].
  - assert (E : nextPowerOf2GT8 v = 8).
    { unfold nextPowerOf2GT8. destruct (Z.ltb_spec v 8); [reflexivity|lia]. }
    rewrite E. exact (nextPowerOf2GT8_fixed 3 ltac:(lia)).
  - destruct (nextPowerOf2GT8_pow2 v) as (k & Hk & -> & _); [lia|].
    apply nextPowerOf2GT8_fixed, Hk.
Qed.

Lemma nextPowerOf2GT8_idempotent_witness :
  nextPowerOf2GT8 (nextPowerOf2GT8 1000) = nextPowerOf2GT8 1000.
Proof.
  apply (proj2 (nextPowerOf2GT8_idempotent 1000 ltac:(lia))).
Defined.

(** Above [2^31] the increment at the end of [nextPowerOf2GT8] wraps:
    the result is 0, not a power of two. *)
Theorem nextPowerOf2GT8_wraps v :
  2 ^ 31 < v < 2 ^ 32 -> nextPowerOf2GT8 v = 0.
Proof.
  intros Hv. unfold nextPowerOf2GT8.
  destruct (Z.ltb_spec v 8) as [?|_]; [lia|].
  rewrite (uint32_small (v - 1)) by lia.
  set (x := v - 1). assert (Hx : 2 ^ 31 <= x < 2 ^ 32) by (unfold x; lia).
  assert (Hm : Z.log2 x = 31).
  { apply Z.log2_unique; [lia|]. change (31 + 1) with 32. lia. }
  assert (Hf : filled 32 31 (smear 16 (smear 8 (smear 4 (smear 2 (smear 1 x)))))).
  { change 32 with (16 + 16). apply smear_filled; [lia|].
    change 16 with (8 + 8) at 1. apply smear_filled; [lia|].
    change 8 with (4 + 4) at 1. apply smear_filled; [lia|].
    change 4 with (2 + 2) at 1. apply smear_filled; [lia|].
    change 2 with (1 + 1) at 1. apply smear_filled; [lia|].
    rewrite <- Hm. apply filled_log2. lia. }
  change 32 with (31 + 1) in Hf. apply filled_ones in Hf; [|lia]. rewrite Hf.
  reflexivity.
Qed.

Lemma nextPowerOf2GT8_wraps_witness : nextPowerOf2GT8 3000000000 = 0.
Proof. apply nextPowerOf2GT8_wraps. lia. Defined.

(** The size [deallocate] derives from a class index with
    [get_item_size_from_index] is the size [allocate] maps back to the
    same index: for every index in [0, N) the item size is [8 * 2^index],
    it is its own rounding, and its class index is that index. *)
Theorem item_size_class_round_trip index :
  0 <= index < N ->
  get_item_size_from_index index = 8 * 2 ^ index /\
  get_item_size_from_index index <= MAX_POSSIBLE_ALLOCATION /\
  nextPowerOf2GT8 (get_item_size_from_index index)
  = get_item_size_from_index index /\
  class_index (get_item_size_from_index index) = index.
Proof.
  unfold N, MAX_POSSIBLE_ALLOCATION. intros Hi.
  assert (Hsz : get_item_size_from_index index = 2 ^ (index + 3)).
  { unfold get_item_size_from_index, uint64.
    rewrite !Z.shiftl_mul_pow2 by lia. change (1 * 2 ^ 3) with (2 ^ 3).
    rewrite <- Z.pow_add_r by lia. rewrite (Z.add_comm 3).
    apply Z.mod_small. split; [apply Z.pow_nonneg; lia|].
    apply Z.pow_lt_mono_r; lia. }
  assert (Hp : 2 ^ (index + 3) <= 2 ^ 24) by (apply Z.pow_le_mono_r; lia).
  assert (Hfix : nextPowerOf2GT8 (2 ^ (index + 3)) = 2 ^ (index + 3)).
  { apply nextPowerOf2GT8_fixed. lia. }
  rewrite Hsz. split.
  { rewrite Z.pow_add_r by lia. change (2 ^ 3) with 8. lia. }
  split; [lia|]. split; [exact Hfix|].
  unfold class_index. rewrite Hfix, TrailingZeros32_pow2 by lia. lia.
Qed.

Lemma item_size_class_round_trip_witness :
  class_index (get_item_size_from_index 21) = 21.
Proof.
  apply (item_size_class_round_trip 21). unfold N. lia.
Defined.

(** ** [newAllocator] *)

(** The base offset [newAllocator] stores is a multiple of 8; when the
    requested offset is at most [2^32 - 8] it is the least multiple of 8
    that is not below the request, and above that an unaligned request
    wraps to base offset 0.  The fresh allocator has its cursor at 0, no
    bytes in use and all [N] free lists empty. *)
Theorem newAllocator_aligns mem off :
  0 <= off < 2 ^ 32 ->
  let a := newAllocator mem off in
  ptr_offset a mod 8 = 0 /\
  (off <= 2 ^ 32 - 8 -> off <= ptr_offset a < off + 8) /\
  (2 ^ 32 - 8 < off -> ptr_offset a = 0) /\
  bumper a = 0 /\ total_size a = 0 /\ heap a = mem /\
  length (heads a) = Z.to_nat N /\ Forall (fun h => h = 0) (heads a).
Proof.
  intros Hoff. cbv zeta.
  pose proof (Z.div_mod off 8 ltac:(lia)) as Hd.
  pose proof (Z.mod_pos_bound off 8 ltac:(lia)) as Hm.
  unfold newAllocator, ALIGNMENT. simpl_state.
  split; [|split; [|split]].
  - destruct (Z.eqb_spec (off mod 8) 0) as [E|E]; simpl; [exact E|].
    rewrite uint32_mod8.
    replace (off + (8 - off mod 8)) with ((off / 8 + 1) * 8) by lia.
    apply Z.mod_mul. lia.
  - intros Hle. destruct (Z.eqb_spec (off mod 8) 0) as [E|E]; simpl; [lia|].
    rewrite uint32_small by lia. lia.
  - intros Hgt. destruct (Z.eqb_spec (off mod 8) 0) as [E|E]; simpl; [lia|].
    assert (off + (8 - off mod 8) = 2 ^ 32) as -> by lia. reflexivity.
  - split; [reflexivity|]. split; [reflexivity|]. split; [reflexivity|].
    split; [apply length_replicate|]. apply Forall_replicate. reflexivity.
Qed.

Lemma newAllocator_aligns_witness :
  3 <= ptr_offset (newAllocator (zero_mem 64) 3) < 3 + 8.
Proof.
  destruct (newAllocator_aligns (zero_mem 64) 3 ltac:(lia)) as (_ & H & _).
  apply H. lia.
Defined.

(** ** The allocator over sequences of calls *)

(** What no call changes: the base offset, the usable size and the
    length of the heap. *)
Lemma allocate_keeps_layout size s o s' :
  allocate size s = (o, s') -> o <> Panic ->
  ptr_offset s' = ptr_offset s /\ max_heap_size s' = max_heap_size s /\
  length (heap s') = length (heap s).
Proof.
  intros H Hnp. destruct o as [p|e|]; [| |congruence].
  - apply allocate_val in H
      as (head & ptr & s1 & h' & _ & _ & _ & _ & Hpath & Hlen & _ & _ & _
          & -> & _).
    simpl_state. rewrite Hlen.
    destruct Hpath as [[_ Hf]|[_ Hb]].
    + apply take_from_free_list_val in Hf as (_ & _ & ->). auto.
    + apply take_from_bump_val in Hb as (_ & ->). auto.
  - apply allocate_err in H as [-> _]. auto.
Qed.

Lemma deallocate_keeps_layout pointer s o s' :
  deallocate pointer s = (o, s') -> o <> Panic ->
  ptr_offset s' = ptr_offset s /\ max_heap_size s' = max_heap_size s /\
  length (heap s') = length (heap s) /\ bumper s' = bumper s.
Proof.
  intros H Hnp. destruct o as [[]|e|]; [| |congruence].
  - apply deallocate_val in H as (b & tail & _ & _ & _ & _ & _ & ->).
    simpl_state. rewrite store_bytes_length. auto.
  - apply deallocate_err in H as [-> _]. auto.
Qed.

Lemma run_keeps_layout ops :
  forall s s', run ops s = Some s' ->
    ptr_offset s' = ptr_offset s /\ max_heap_size s' = max_heap_size s /\
    length (heap s') = length (heap s).
Proof.
  induction ops as [|[size|p] ops IH]; intros s s' H; simpl in H.
  - injection H as <-. auto.
  - destruct (allocate size s) as [o s1] eqn:E.
    assert (Hnp : o <> Panic) by (intros ->; discriminate).
    destruct (allocate_keeps_layout _ _ _ _ E Hnp) as (H1 & H2 & H3).
    assert (Hrun : run ops s1 = Some s')
      by (destruct o; [exact H|exact H|congruence]).
    destruct (IH _ _ Hrun) as (H4 & H5 & H6).
    split; [congruence|]. split; congruence.
  - destruct (deallocate p s) as [o s1] eqn:E.
    assert (Hnp : o <> Panic) by (intros ->; discriminate).
    destruct (deallocate_keeps_layout _ _ _ _ E Hnp) as (H1 & H2 & H3 & _).
    assert (Hrun : run ops s1 = Some s')
      by (destruct o; [exact H|exact H|congruence]).
    destruct (IH _ _ Hrun) as (H4 & H5 & H6).
    split; [congruence|]. split; congruence.
Qed.

(** Under any sequence of calls on a fresh allocator (heap of at most
    [2^32 - 2^24 - 16] bytes), whatever pointers [deallocate] is given:
    the cursor never moves back and stays a multiple of 8, and the base
    offset, the usable size and the length of the heap never change. *)
Theorem cursor_never_moves_back mem off ops1 ops2 s1 s2 :
  0 <= off < 2 ^ 32 ->
  Z.of_nat (length mem) + 2 ^ 24 + 16 <= 2 ^ 32 ->
  run ops1 (newAllocator mem off) = Some s1 ->
  run ops2 s1 = Some s2 ->
  bumper s1 <= bumper s2 /\ bumper s2 mod 8 = 0 /\
  0 <= bumper s2 < 2 ^ 32 /\
  ptr_offset s2 = ptr_offset s1 /\ max_heap_size s2 = max_heap_size s1 /\
  length (heap s2) = length mem.
Proof.
  intros Hoff Hlen H1 H2.
  pose proof (newAllocator_cursor mem off Hoff Hlen) as I0.
  destruct (run_cursor ops1 _ _ I0 H1) as (I1 & _ & _).
  destruct (run_cursor ops2 _ _ I1 H2) as (I2 & Ho & Hb).
  destruct (run_keeps_layout ops1 _ _ H1) as (_ & _ & L1).
  destruct (run_keeps_layout ops2 _ _ H2) as (_ & Hm & L2).
  destruct (geom_bounds _ (c_geom _ I2)) as (B1 & _).
  pose proof (c_geom _ I2) as [_ _ G3 G4 _ _].
  split; [exact Hb|]. split; [exact G4|]. split; [lia|]. split; [exact Ho|].
  split; [exact Hm|]. rewrite L2, L1. reflexivity.
Qed.

Lemma cursor_never_moves_back_witness :
  from_option
    (fun s1 =>
       from_option (fun s2 => bumper s1 <= bumper s2) False
         (run [Deallocate 8; Allocate 4; Deallocate 77] s1))
    False
    (run [Allocate 4; Allocate 100] (newAllocator (zero_mem 256) 0)).
Proof.
  destruct (run [Allocate 4; Allocate 100] (newAllocator (zero_mem 256) 0))
    as [s1|] eqn:E1; [|vm_compute in E1; discriminate E1].
  cbn [from_option].
  destruct (run [Deallocate 8; Allocate 4; Deallocate 77] s1)
    as [s2|] eqn:E2; cbn [from_option].
  - apply (cursor_never_moves_back (zero_mem 256) 0
             [Allocate 4; Allocate 100]
             [Deallocate 8; Allocate 4; Deallocate 77] s1 s2);
      [lia | vm_compute; discriminate | exact E1 | exact E2].
  - vm_compute in E1. injection E1 as <-. vm_compute in E2. discriminate E2.
Defined.

Lemma run_live_bounded ops :
  forall s live free s' live',
    inv s live free ->
    total_size s <= max_heap_size s ->
    run_live ops s live = Some (s', live') ->
    total_size s' <= max_heap_size s' /\ max_heap_size s' = max_heap_size s.
Proof.
  induction ops as [|[size|p] ops IH]; intros s live free s' live' I Hle H;
    simpl in H.
  - injection H as <- <-. auto.
  - destruct (allocate size s) as [[q|e|] s1] eqn:E; [| |discriminate].
    + destruct (inv_allocate _ _ _ _ _ _ I E) as (free1 & I1).
      destruct (allocate_keeps_layout _ _ _ _ E ltac:(discriminate))
        as (_ & Hm & _).
      assert (Hle1 : total_size s1 <= max_heap_size s1).
      { pose proof E as E'.
        apply allocate_val in E'
          as (head & ptr & s0 & h' & _ & Hfit & _ & _ & Hpath & _ & _ & _ & _
              & Hs1 & _).
        assert (Ht : total_size s0 = total_size s).
        { destruct Hpath as [[_ Hf]|[_ Hb]].
          - apply take_from_free_list_val in Hf as (_ & _ & ->). reflexivity.
          - apply take_from_bump_val in Hb as (_ & ->). reflexivity. }
        rewrite Hm. rewrite Hs1. simpl_state. rewrite Ht.
        replace (total_size s + nextPowerOf2GT8 size + 8)
          with (nextPowerOf2GT8 size + 8 + total_size s) by lia.
        exact Hfit. }
      destruct (IH _ _ _ _ _ I1 Hle1 H) as (R1 & R2).
      split; [exact R1|congruence].
    + apply allocate_err in E as [-> _]. exact (IH _ _ _ _ _ I Hle H).
  - destruct (lookup_live p live) as [size|] eqn:L; [|discriminate].
    apply lookup_live_split in L as (l1 & l2 & -> & Hr).
    destruct (inv_deallocate _ _ _ _ _ _ I) as (s1 & free1 & E & I1).
    rewrite E, Hr in H.
    destruct (deallocate_keeps_layout _ _ _ _ E ltac:(discriminate))
      as (_ & Hm & _).
    assert (Hle1 : total_size s1 <= max_heap_size s1).
    { rewrite Hm, (i_total _ _ _ I1). rewrite (i_total _ _ _ I) in Hle.
      unfold live_bytes in *. rewrite sumZ_app in *. simpl in Hle.
      unfold block_bytes at 2 in Hle.
      pose proof (nextPowerOf2GT8_nonneg size). lia. }
    destruct (IH _ _ _ _ _ I1 Hle1 H) as (R1 & R2).
    split; [exact R1|congruence].
Qed.

(** In a run on a fresh allocator with [deallocate] only given live
    pointers, the bytes in use never exceed the usable size, which stays
    what the constructor computed. *)
Theorem bytes_in_use_bounded mem off ops s live :
  0 <= off < 2 ^ 32 ->
  Z.of_nat (length mem) + 2 ^ 24 + 16 <= 2 ^ 32 ->
  run_live ops (newAllocator mem off) [] = Some (s, live) ->
  0 <= total_size s <= max_heap_size s /\
  max_heap_size s = uint32 (uint32 (Z.of_nat (length mem)) - off).
Proof.
  intros Hoff Hlen Hrun.
  pose proof (newAllocator_inv mem off Hoff Hlen) as I0.
  assert (H0 : total_size (newAllocator mem off)
               <= max_heap_size (newAllocator mem off)).
  { unfold newAllocator. simpl_state. apply uint32_range. }
  destruct (run_live_bounded ops _ _ _ _ _ I0 H0 Hrun) as (R1 & R2).
  destruct (run_live_inv ops _ _ _ _ _ I0 Hrun) as (free & I).
  split; [|exact R2]. split; [|exact R1].
  rewrite (i_total _ _ _ I). apply live_bytes_nonneg.
Qed.

Lemma bytes_in_use_bounded_witness :
  from_option (fun r => 0 <= total_size r.1 <= max_heap_size r.1) False
    (run_live [Allocate 4; Allocate 20; Deallocate 8]
       (newAllocator (zero_mem 128) 0) []).
Proof.
  destruct (run_live [Allocate 4; Allocate 20; Deallocate 8]
              (newAllocator (zero_mem 128) 0) []) as [[s live]|] eqn:E.
  - cbn [from_option].
    apply (bytes_in_use_bounded (zero_mem 128) 0
             [Allocate 4; Allocate 20; Deallocate 8] s live);
      [lia | vm_compute; discriminate | exact E].
  - vm_compute in E. discriminate E.
Defined.

(** The live pointers of such a run are pairwise distinct and 8-byte
    aligned, and the 8 header bytes before each of them lie inside the
    heap, at or after the base offset. *)
Theorem live_pointers_well_formed mem off ops s live :
  0 <= off < 2 ^ 32 ->
  Z.of_nat (length mem) + 2 ^ 24 + 16 <= 2 ^ 32 ->
  run_live ops (newAllocator mem off) [] = Some (s, live) ->
  NoDup (live.*1) /\
  forall p size, (p, size) ∈ live ->
    p mod 8 = 0 /\ ptr_offset s + 8 <= p <= heap_len s /\
    p < ptr_offset s + bumper s + 8 /\ size <= MAX_POSSIBLE_ALLOCATION.
Proof.
  intros Hoff Hlen Hrun.
  destruct (run_live_inv ops _ _ _ _ _ (newAllocator_inv mem off Hoff Hlen) Hrun)
    as (free & I).
  split.
  - pose proof (i_nodup _ _ _ I) as Hnd.
    rewrite fmap_app in Hnd. apply NoDup_app in Hnd as (Hnd & _ & _).
    rewrite <- list_fmap_compose in Hnd.
    assert (Hext : (fst ∘ entry_block (ptr_offset s)) <$> live
                   = (fun x => x - ptr_offset s - 8) <$> (live.*1)).
    { rewrite <- list_fmap_compose. apply list_fmap_ext. intros i [q sz] _.
      reflexivity. }
    rewrite Hext in Hnd. eapply NoDup_fmap_1. exact Hnd.
  - intros p size He.
    pose proof (i_blocks _ _ _ I) as Hbl. rewrite Forall_forall in Hbl.
    pose proof (i_size _ _ _ I) as Hsz. rewrite Forall_forall in Hsz.
    destruct (Hbl (entry_block (ptr_offset s) (p, size))) as [H1 H2 H3 _].
    { apply elem_of_app. left. apply list_elem_of_fmap_2, He. }
    unfold entry_block in H1, H2, H3. simpl in H1, H2, H3.
    pose proof (i_geom _ _ _ I) as [_ Ho8 _ _ _ _].
    split.
    { replace p with ((p - ptr_offset s - 8) + (ptr_offset s + 8)) by lia.
      apply mod8_add; [exact H2|]. apply mod8_add; [exact Ho8|reflexivity]. }
    split; [lia|]. split; [lia|]. exact (Hsz _ He).
Qed.

Lemma live_pointers_well_formed_witness :
  from_option (fun r => NoDup (r.2.*1)) False
    (run_live [Allocate 4; Allocate 20; Deallocate 8; Allocate 5]
       (newAllocator (zero_mem 128) 0) []).
Proof.
  destruct (run_live [Allocate 4; Allocate 20; Deallocate 8; Allocate 5]
              (newAllocator (zero_mem 128) 0) []) as [[s live]|] eqn:E.
  - cbn [from_option].
    apply (live_pointers_well_formed (zero_mem 128) 0
             [Allocate 4; Allocate 20; Deallocate 8; Allocate 5] s live);
      [lia | vm_compute; discriminate | exact E].
  - vm_compute in E. discriminate E.
Defined.

(** ** What [allocate] and [deallocate] write *)

Lemma write_sentinels_written n i ptr s s' :
  write_sentinels n i ptr s = (Val tt, s') ->
  forall k, i <= k < i + Z.of_nat n ->
    (forall k', k < k' < i + Z.of_nat n ->
       hdr_addr s ptr k' <> hdr_addr s ptr k) ->
    heap s' !! Z.to_nat (hdr_addr s ptr k) = Some xff.
Proof.
  revert i s. induction n as [|n IH]; intros i s H k Hk Hd; [lia|].
  simpl in H. apply bind_val in H as ([] & s1 & H1 & H).
  apply set_heap_val in H1 as (Hlt & ->).
  fold (hdr_addr s ptr i) in Hlt, H.
  assert (Hr : forall j, 0 <= hdr_addr s ptr j)
    by (intros j; apply uint32_range).
  destruct (Z.eq_dec k i) as [->|Hne].
  - apply write_sentinels_val in H as (h' & -> & _ & _ & Hout).
    simpl_state. rewrite Hout.
    + simpl_state. apply list_lookup_insert_eq. unfold heap_len in Hlt.
      pose proof (Hr i). lia.
    + intros k' Hk' Heq. apply (Hd k'); [lia|].
      change (hdr_addr (with_heap _ s) ptr k') with (hdr_addr s ptr k') in Heq.
      pose proof (Hr i). pose proof (Hr k'). lia.
  - apply (IH (i + 1) _ H k); [lia|].
    intros k' Hk'. apply Hd. lia.
Qed.

(** A returning [allocate] in a state of the invariant: where the block
    is, and what the heap looks like afterwards. *)
Lemma allocate_in_inv s live free size p s' :
  inv s live free ->
  allocate size s = (Val p, s') ->
  exists item,
    0 <= item /\ p = ptr_offset s + item + 8 /\ p <= heap_len s /\
    heap_len s < 2 ^ 32 /\ 0 <= ptr_offset s /\
    length (heap s') = length (heap s) /\
    (forall j : nat,
       Z.of_nat j < p - 8 \/ p <= Z.of_nat j -> heap s' !! j = heap s !! j) /\
    heap s' !! Z.to_nat (p - 8) = Some (uint8 (class_index size)).
Proof.
  intros I H.
  assert (Hmax : size <= MAX_POSSIBLE_ALLOCATION).
  { destruct (allocate_cases size s) as [(Hb & E)|[(Hb & Hf & E)|(Hb & Hf & E)]];
      [rewrite E in H; discriminate | lia | lia]. }
  destruct (size_class_facts size Hmax) as (Hidx & _).
  destruct (i_chain _ _ _ I _ Hidx) as (h & c & Hh & Hc & _ & Hfree).
  pose proof (i_geom _ _ _ I) as G. pose proof G as [Ho _ Hb _ Hl _].
  assert (Hheap : 0 <= heap_len s) by (unfold heap_len; lia).
  destruct (Z.eq_dec h 0) as [->|Hne].
  - destruct (allocate_bump_path _ _ _ _ G H Hh)
      as (Hfit & Hp & _ & _ & h' & Hlen & Hout & Hin & ->).
    exists (bumper s). simpl_state.
    split; [lia|]. split; [exact Hp|]. split; [lia|]. split; [lia|].
    split; [lia|]. split; [exact Hlen|]. split.
    + intros j Hj. apply Hout. lia.
    + replace (p - 8) with (ptr_offset s + bumper s) by lia. exact Hin.
  - destruct c as [|x c]; simpl in Hc; [congruence|].
    destruct Hc as (<- & _ & _).
    pose proof (i_blocks _ _ _ I) as Hbl. rewrite Forall_forall in Hbl.
    destruct (Hbl (h, class_index size)) as [H1 _ H3 _].
    { apply elem_of_app. right. apply Hfree, list_elem_of_here. }
    simpl in H1, H3.
    destruct (allocate_reuse_path size s p s' h (proj1 Ho) ltac:(lia) H Hh Hne
                (proj1 H1) H3)
      as (Hp & _ & _ & h' & Hlen & Hout & Hin & ->).
    exists h. simpl_state.
    split; [lia|]. split; [exact Hp|]. split; [lia|]. split; [lia|].
    split; [lia|]. split; [exact Hlen|]. split.
    + intros j Hj. apply Hout. lia.
    + replace (p - 8) with (ptr_offset s + h) by lia. exact Hin.
Qed.

(** The sentinel bytes of a returning [allocate], in any state. *)
Lemma allocate_sentinels size s p s' :
  allocate size s = (Val p, s') ->
  exists ptr s1,
    0 <= ptr < 2 ^ 32 /\ ptr_offset s1 = ptr_offset s /\
    p = uint32 (ptr_offset s + ptr) /\
    forall k, 1 <= k <= 7 ->
      (forall k', k < k' <= 8 -> hdr_addr s1 ptr k' <> hdr_addr s1 ptr k) ->
      heap s' !! Z.to_nat (hdr_addr s1 ptr k) = Some xff.
Proof.
  intros H.
  destruct (allocate_cases size s) as [(Hb & E)|[(Hb & Hf & E)|(Hb & Hf & E)]];
    rewrite E in H; try discriminate.
  unfold allocate_body in H. cbv zeta in H.
  apply bind_val in H as (head & s0 & Hh & H).
  apply heads_get_val in Hh as (-> & Hidx & Hhead).
  apply bind_val in H as (ptr & s1 & Hp & H).
  assert (Hptr : 0 <= ptr < 2 ^ 32 /\ ptr_offset s1 = ptr_offset s).
  { destruct (negb (head =? 0)).
    - apply take_from_free_list_val in Hp as (_ & -> & ->).
      split; [apply uint32_range|reflexivity].
    - apply take_from_bump_val in Hp as (-> & ->).
      split; [apply uint32_range|reflexivity]. }
  destruct Hptr as (Hptr & Ho1).
  apply bind_val in H as ([] & s2 & Hw & H).
  pose proof (write_sentinels_written _ _ _ _ _ Hw) as Hff.
  apply write_sentinels_val in Hw as (h1 & -> & Hlen1 & _ & _).
  apply bind_val in H as ([] & s3 & Hs & H).
  apply set_heap_val in Hs as (_ & ->).
  unfold bind, modify, gets, ret in H. simpl in H. injection H as <- <-.
  exists ptr, s1. split; [exact Hptr|]. split; [exact Ho1|].
  split; [rewrite Ho1; reflexivity|].
  intros k Hk Hd. simpl_state. fold (hdr_addr s1 ptr 8).
  rewrite list_lookup_insert_ne.
  - apply (Hff k); [simpl; lia|]. intros k' Hk'. apply Hd. simpl in Hk'. lia.
  - intros Heq. apply (Hd 8); [lia|].
    pose proof (uint32_range (ptr_offset s1 + uint32 (ptr - 8))).
    pose proof (uint32_range (ptr_offset s1 + uint32 (ptr - k))).
    unfold hdr_addr in *. lia.
Qed.

(** In a run on a fresh allocator with [deallocate] only given live
    pointers, a returning [allocate] writes the 8 header bytes of the
    block it returns and nothing else: byte [p - 8] holds the size class,
    bytes [p - 7 .. p - 1] hold 255, and every other byte of the heap,
    the payload of every block included, is what it was. *)
Theorem allocate_writes_only_header mem off ops s live size p s' :
  0 <= off < 2 ^ 32 ->
  Z.of_nat (length mem) + 2 ^ 24 + 16 <= 2 ^ 32 ->
  run_live ops (newAllocator mem off) [] = Some (s, live) ->
  allocate size s = (Val p, s') ->
  length (heap s') = length (heap s) /\
  heap s' !! Z.to_nat (p - 8) = Some (uint8 (class_index size)) /\
  (forall k, 1 <= k <= 7 -> heap s' !! Z.to_nat (p - k) = Some xff) /\
  (forall j : nat,
     Z.of_nat j < p - 8 \/ p <= Z.of_nat j -> heap s' !! j = heap s !! j).
Proof.
  intros Hoff Hlen Hrun H.
  destruct (run_live_inv ops _ _ _ _ _ (newAllocator_inv mem off Hoff Hlen) Hrun)
    as (free & I).
  destruct (allocate_in_inv _ _ _ _ _ _ I H)
    as (item & Hi & Hp & Hple & Hl32 & Ho & Hlen' & Hout & Hin).
  split; [exact Hlen'|]. split; [exact Hin|]. split; [|exact Hout].
  destruct (allocate_sentinels _ _ _ _ H) as (ptr & s1 & Hptr & Ho1 & Hp' & Hff).
  assert (Hptr' : ptr = item + 8).
  { rewrite Hp in Hp'. symmetry in Hp'.
    rewrite <- (uint32_small (ptr_offset s + item + 8)) in Hp' by lia.
    apply uint32_eq_inv in Hp' as (k & Hk).
    assert (Hk0 : k = 0) by nia. subst k. lia. }
  subst ptr.
  assert (Haddr : forall k, 1 <= k <= 8 -> hdr_addr s1 (item + 8) k = p - k).
  { intros k Hk. unfold hdr_addr. rewrite Ho1.
    rewrite (uint32_small (item + 8 - k)) by lia.
    rewrite uint32_small by lia. lia. }
  intros k Hk. rewrite <- (Haddr k) by lia. apply Hff; [exact Hk|].
  intros k' Hk'. rewrite !Haddr by lia. lia.
Qed.

Lemma allocate_writes_only_header_witness :
  heap (snd (allocate 4 (newAllocator (zero_mem 64) 0))) !! Z.to_nat (8 - 3)
  = Some xff.
Proof.
  refine (proj1 (proj2 (proj2
            (allocate_writes_only_header (zero_mem 64) 0 []
               (newAllocator (zero_mem 64) 0) [] 4 8
               (snd (allocate 4 (newAllocator (zero_mem 64) 0)))
               _ _ _ _))) 3 _).
  - lia.
  - vm_compute. discriminate.
  - vm_compute. reflexivity.
  - vm_compute. reflexivity.
  - lia.
Defined.

(** In such a run, [deallocate] of a live pointer [p] returns; it makes
    the block the head of the free list of its class, stores the previous
    head as a little-endian link in bytes [p - 8 .. p - 5], and changes no
    other byte of the heap and no other free list; the cursor stays where
    it is. *)
Theorem deallocate_writes_only_link mem off ops s live p size :
  0 <= off < 2 ^ 32 ->
  Z.of_nat (length mem) + 2 ^ 24 + 16 <= 2 ^ 32 ->
  run_live ops (newAllocator mem off) [] = Some (s, live) ->
  lookup_live p live = Some size ->
  exists s' tail,
    deallocate p s = (Val tt, s') /\
    heads s !! Z.to_nat (class_index size) = Some tail /\
    heads s' = <[Z.to_nat (class_index size) := p - ptr_offset s - 8]> (heads s) /\
    read_link (heap s') (p - 8) = tail /\
    length (heap s') = length (heap s) /\
    (forall j : nat,
       Z.of_nat j < p - 8 \/ p - 4 <= Z.of_nat j ->
       heap s' !! j = heap s !! j) /\
    bumper s' = bumper s.
Proof.
  intros Hoff Hlen Hrun L.
  destruct (run_live_inv ops _ _ _ _ _ (newAllocator_inv mem off Hoff Hlen) Hrun)
    as (free & I).
  apply lookup_live_split in L as (l1 & l2 & -> & _).
  assert (He : (p, size) ∈ l1 ++ (p, size) :: l2).
  { apply elem_of_app. right. apply list_elem_of_here. }
  pose proof (i_blocks _ _ _ I) as Hbl. rewrite Forall_forall in Hbl.
  pose proof (i_size _ _ _ I) as Hsz. rewrite Forall_forall in Hsz.
  pose proof (i_hdr _ _ _ I) as Hhdr. rewrite Forall_forall in Hhdr.
  destruct (size_class_facts size (Hsz _ He)) as (Hidx & _).
  destruct (Hbl (entry_block (ptr_offset s) (p, size))) as [Hi1 _ Hi3 _].
  { apply elem_of_app. left. apply list_elem_of_fmap_2, He. }
  unfold entry_block in Hi1, Hi3. simpl in Hi1, Hi3.
  pose proof (i_geom _ _ _ I) as G. pose proof G as [Ho _ _ _ Hl _].
  assert (Hheap : 0 <= heap_len s) by (unfold heap_len; lia).
  destruct (i_chain _ _ _ I _ Hidx) as (tail & c & Hh1 & Hc & _ & Hfree).
  assert (Htail : 0 <= tail < 2 ^ 32).
  { apply (chain_head_range s (class_index size) tail c G Hc). intros x Hx.
    apply Hbl. apply elem_of_app. right. apply Hfree, Hx. }
  assert (Hbyte : byte_to_Z (uint8 (class_index size)) = class_index size).
  { apply byte_to_Z_uint8_small. unfold N in Hidx. lia. }
  pose proof (Hhdr _ He) as Hb0. simpl in Hb0.
  pose proof (deallocate_block p s (p - ptr_offset s - 8)
                (uint8 (class_index size)) tail) as Hrun'.
  rewrite Hbyte in Hrun'.
  replace (ptr_offset s + (p - ptr_offset s - 8)) with (p - 8) in Hrun' by lia.
  specialize (Hrun' (proj1 Ho) ltac:(lia) (proj1 Hi1) ltac:(lia) ltac:(lia)
                Hb0 Hidx Hh1).
  eexists _, tail. split; [exact Hrun'|]. simpl_state.
  split; [exact Hh1|]. split; [reflexivity|]. split.
  { apply read_link_store; unfold heap_len in *; lia. }
  split; [apply store_bytes_length|]. split; [|reflexivity].
  intros j Hj. apply store_bytes_lookup_out.
  rewrite LittleEndian_PutUint32_length. lia.
Qed.

Lemma deallocate_writes_only_link_witness :
  exists s' tail,
    deallocate 8 (snd (allocate 4 (newAllocator (zero_mem 64) 0)))
    = (Val tt, s') /\
    heads (snd (allocate 4 (newAllocator (zero_mem 64) 0)))
      !! Z.to_nat (class_index 4) = Some tail.
Proof.
  destruct (deallocate_writes_only_link (zero_mem 64) 0 [Allocate 4]
              (snd (allocate 4 (newAllocator (zero_mem 64) 0)))
              [(8, 4)] 8 4)
    as (s' & tail & H1 & H2 & _).
  - lia.
  - vm_compute. discriminate.
  - vm_compute. reflexivity.
  - vm_compute. reflexivity.
  - exists s', tail. split; assumption.
Defined.

(** ** When [allocate] returns and when it panics *)

Lemma write_sentinels_returns n i ptr s :
  (forall k, i <= k < i + Z.of_nat n -> hdr_addr s ptr k < heap_len s) ->
  exists s', write_sentinels n i ptr s = (Val tt, s').
Proof.
  revert i s. induction n as [|n IH]; intros i s Hk; simpl.
  - exists s. reflexivity.
  - unfold bind. unfold set_heap at 1. fold (hdr_addr s ptr i).
    destruct (Z.ltb_spec (hdr_addr s ptr i) (heap_len s)) as [_|Hge].
    2:{ specialize (Hk i ltac:(lia)). lia. }
    destruct (IH (i + 1)
                (with_heap (<[Z.to_nat (hdr_addr s ptr i) := xff]> (heap s)) s))
      as (s' & E).
    { intros k Hk'. unfold hdr_addr, heap_len. simpl_state.
      rewrite length_insert. apply Hk. lia. }
    rewrite E. exists s'. reflexivity.
Qed.

Lemma bind_run {A B} (m : M A) (k : A -> M B) s a s1 :
  m s = (Val a, s1) -> bind m k s = k a s1.
Proof. intros E. unfold bind. rewrite E. reflexivity. Qed.

Lemma bind_panic {A B} (m : M A) (k : A -> M B) s s1 :
  m s = (Panic, s1) -> bind m k s = (Panic, s1).
Proof. intros E. unfold bind. rewrite E. reflexivity. Qed.

Lemma heads_get_run i s h :
  0 <= i < N -> heads s !! Z.to_nat i = Some h -> heads_get i s = (Val h, s).
Proof.
  intros Hi Hh. unfold heads_get.
  destruct ((0 <=? i) && (i <? N)) eqn:E1.
  2:{ apply andb_false_iff in E1.
      destruct E1 as [E|E]; [apply Z.leb_gt in E|apply Z.ltb_ge in E]; lia. }
  rewrite Hh. reflexivity.
Qed.

Lemma take_from_free_list_run i item s tail :
  0 <= i < N -> heads s !! Z.to_nat i = Some tail ->
  0 <= ptr_offset s -> 0 <= item -> heap_len s < 2 ^ 32 ->
  ptr_offset s + item + 8 <= heap_len s ->
  exists hs,
    take_from_free_list i item s = (Val (item + 8), with_heads hs s).
Proof.
  intros Hi Hh Ho Hitem Hl Hfit.
  unfold take_from_free_list, bind, get_heap_4bytes.
  rewrite (uint32_small (ptr_offset s + item)) by lia.
  rewrite (uint32_small (ptr_offset s + item + 4)) by lia.
  destruct ((ptr_offset s + item <=? ptr_offset s + item + 4)
            && (ptr_offset s + item + 4 <=? heap_len s)) eqn:E2.
  2:{ apply andb_false_iff in E2.
      destruct E2 as [E|E]; apply Z.leb_gt in E; lia. }
  unfold heads_set.
  destruct ((0 <=? i) && (i <? N) && (i <? Z.of_nat (length (heads s))))
    eqn:E3.
  2:{ apply lookup_lt_Some in Hh. apply andb_false_iff in E3.
      destruct E3 as [E3|E]; [|apply Z.ltb_ge in E; lia].
      apply andb_false_iff in E3.
      destruct E3 as [E|E]; [apply Z.leb_gt in E|apply Z.ltb_ge in E]; lia. }
  unfold ret. rewrite (uint32_small (item + 8)) by lia.
  eexists. reflexivity.
Qed.

Lemma allocate_body_returns size s head x :
  0 <= class_index size < N ->
  heads s !! Z.to_nat (class_index size) = Some head ->
  x = (if Z.eq_dec head 0 then bumper s else head) ->
  0 <= x -> 0 <= ptr_offset s -> heap_len s < 2 ^ 32 ->
  ptr_offset s + x + 8 <= heap_len s ->
  exists p s', allocate_body size s = (Val p, s').
Proof.
  intros Hidx Hhead Hx Hx0 Ho Hl Hfit.
  unfold allocate_body. cbv zeta. fold (class_index size).
  rewrite (bind_run _ _ _ _ _ (heads_get_run _ _ _ Hidx Hhead)).
  assert (Hstep : exists s1,
            (if negb (head =? 0)
             then take_from_free_list (class_index size) head
             else take_from_bump (nextPowerOf2GT8 size)) s
            = (Val (x + 8), s1) /\
            ptr_offset s1 = ptr_offset s /\ heap_len s1 = heap_len s).
  { destruct (Z.eq_dec head 0) as [->|Hne]; subst x.
    - simpl. eexists. split.
      { unfold take_from_bump, bump, bind, gets, modify, ret.
        rewrite (uint32_small (bumper s + 8)) by lia. reflexivity. }
      split; reflexivity.
    - destruct (Z.eqb_spec head 0) as [|_]; [congruence|]. simpl.
      destruct (take_from_free_list_run _ head s head Hidx Hhead Ho Hx0 Hl Hfit)
        as (hs & E).
      eexists. split; [exact E|]. split; reflexivity. }
  destruct Hstep as (s1 & E1 & Ho1 & Hl1).
  rewrite (bind_run _ _ _ _ _ E1).
  assert (Haddr : forall k, 1 <= k <= 8 ->
            hdr_addr s1 (x + 8) k = ptr_offset s + x + 8 - k).
  { intros k Hk. unfold hdr_addr. rewrite Ho1.
    rewrite (uint32_small (x + 8 - k)) by lia. rewrite uint32_small by lia.
    lia. }
  destruct (write_sentinels_returns 8 1 (x + 8) s1) as (s2 & E2).
  { intros k Hk. rewrite Haddr by lia. lia. }
  rewrite (bind_run _ _ _ _ _ E2).
  apply write_sentinels_val in E2 as (h' & -> & Hlen & _ & _).
  unfold bind at 1. unfold set_heap. simpl_state.
  fold (hdr_addr s1 (x + 8) 8). rewrite Haddr by lia.
  unfold heap_len in *. simpl_state. rewrite Hlen.
  destruct (Z.ltb_spec (ptr_offset s + x + 8 - 8) (Z.of_nat (length (heap s1))))
    as [_|Hge]; [|lia].
  eexists _, _. reflexivity.
Qed.

(** In a run on a fresh allocator with [deallocate] only given live
    pointers, a request that passes both checks of [allocate] returns a
    pointer whenever its free list is non-empty or the 8 header bytes at
    the cursor lie inside the heap; it panics, with the cursor already
    advanced, exactly when the free list is empty and the header at the
    cursor does not fit in the heap. *)
Theorem allocate_returns_or_panics mem off ops s live size :
  0 <= off < 2 ^ 32 ->
  Z.of_nat (length mem) + 2 ^ 24 + 16 <= 2 ^ 32 ->
  run_live ops (newAllocator mem off) [] = Some (s, live) ->
  size <= MAX_POSSIBLE_ALLOCATION ->
  uint32 (nextPowerOf2GT8 size + 8 + total_size s) <= max_heap_size s ->
  exists head,
    heads s !! Z.to_nat (class_index size) = Some head /\
    (head <> 0 \/ ptr_offset s + bumper s + 8 <= heap_len s ->
     exists p s', allocate size s = (Val p, s')) /\
    (head = 0 /\ heap_len s < ptr_offset s + bumper s + 8 ->
     fst (allocate size s) = Panic /\
     bumper (snd (allocate size s))
     = uint32 (bumper s + (nextPowerOf2GT8 size + 8))).
Proof.
  intros Hoff Hlen Hrun Hmax Hfit.
  destruct (run_live_inv ops _ _ _ _ _ (newAllocator_inv mem off Hoff Hlen) Hrun)
    as (free & I).
  destruct (size_class_facts size Hmax) as (Hidx & _ & _ & Hrange).
  destruct (i_chain _ _ _ I _ Hidx) as (h & c & Hh & Hc & _ & Hfree).
  pose proof (i_geom _ _ _ I) as G. pose proof G as [Ho _ Hb _ Hl Hreach].
  assert (Hheap : 0 <= heap_len s) by (unfold heap_len; lia).
  exists h. split; [exact Hh|]. rewrite (allocate_passes _ _ Hmax Hfit). split.
  - intros Hcase.
    apply (allocate_body_returns size s h
             (if Z.eq_dec h 0 then bumper s else h)); try assumption;
      try reflexivity; try lia.
    + destruct (Z.eq_dec h 0); [lia|].
      destruct c as [|x c]; simpl in Hc; [congruence|].
      destruct Hc as (<- & _ & _).
      pose proof (i_blocks _ _ _ I) as Hbl. rewrite Forall_forall in Hbl.
      destruct (Hbl (h, class_index size)) as [H1 _ _ _]; [|simpl in H1; lia].
      apply elem_of_app. right. apply Hfree, list_elem_of_here.
    + destruct (Z.eq_dec h 0) as [->|Hne]; [destruct Hcase; [congruence|lia]|].
      destruct c as [|x c]; simpl in Hc; [congruence|].
      destruct Hc as (<- & _ & _).
      pose proof (i_blocks _ _ _ I) as Hbl. rewrite Forall_forall in Hbl.
      destruct (Hbl (h, class_index size)) as [_ _ H3 _]; [|simpl in H3; lia].
      apply elem_of_app. right. apply Hfree, list_elem_of_here.
  - intros [-> Hout].
    destruct (geom_bounds s G) as (B1 & B2).
    unfold MAX_POSSIBLE_ALLOCATION in Hrange.
    assert (E : allocate_body size s
                = (Panic,
                   with_bumper
                     (uint32 (bumper s + (nextPowerOf2GT8 size + 8))) s)).
    { unfold allocate_body. cbv zeta. fold (class_index size).
      rewrite (bind_run _ _ _ _ _ (heads_get_run _ _ _ Hidx Hh)).
      change (negb (0 =? 0)) with false. cbv iota.
      assert (E1 : take_from_bump (nextPowerOf2GT8 size) s
                   = (Val (bumper s + 8),
                      with_bumper
                        (uint32 (bumper s + (nextPowerOf2GT8 size + 8))) s)).
      { unfold take_from_bump, bump, bind, gets, modify, ret.
        rewrite (uint32_small (bumper s + 8)) by lia.
        rewrite (uint32_small (nextPowerOf2GT8 size + 8)) by lia.
        reflexivity. }
      rewrite (bind_run _ _ _ _ _ E1).
      apply bind_panic. cbn [write_sentinels]. apply bind_panic.
      unfold set_heap. simpl_state.
      rewrite (uint32_small (bumper s + 8 - 1)) by lia.
      destruct (Z.ltb_spec (uint32 (ptr_offset s + (bumper s + 8 - 1)))
                  (heap_len (with_bumper
                               (uint32 (bumper s + (nextPowerOf2GT8 size + 8)))
                               s)))
        as [Hlt|_]; [|reflexivity].
      exfalso. unfold heap_len in *. simpl_state.
      rewrite uint32_small in Hlt by lia. lia. }
    rewrite E. split; reflexivity.
Qed.

Lemma allocate_returns_or_panics_witness :
  exists p s',
    allocate 20 (snd (allocate 4 (newAllocator (zero_mem 64) 0)))
    = (Val p, s').
Proof.
  destruct (allocate_returns_or_panics (zero_mem 64) 0 [Allocate 4]
              (snd (allocate 4 (newAllocator (zero_mem 64) 0)))
              [(8, 4)] 20)
    as (head & _ & H & _).
  - lia.
  - vm_compute. discriminate.
  - vm_compute. reflexivity.
  - vm_compute. discriminate.
  - vm_compute. discriminate.
  - apply H. right. vm_compute. discriminate.
Defined.

Lemma freed_block_reused_witness :
  exists s2,
    deallocate 24
      (snd (allocate 4 (snd (allocate 4 (newAllocator (zero_mem 64) 0)))))
    = (Val tt, s2) /\
    forall q s3, allocate 5 s2 = (Val q, s3) -> q = 24 /\ bumper s3 = bumper s2.
Proof.
  apply (freed_block_reused (zero_mem 64) 0 [Allocate 4; Allocate 4]
           (snd (allocate 4 (snd (allocate 4 (newAllocator (zero_mem 64) 0)))))
           [(24, 4); (8, 4)] 24 4 5).
  - lia.
  - vm_compute. discriminate.
  - vm_compute. reflexivity.
  - reflexivity.
  - vm_compute. discriminate.
  - vm_compute. reflexivity.
Defined.

Lemma deallocate_near_base_witness :
  deallocate 19 (newAllocator (zero_mem 64) 16)
  = (Err err_invalid_pointer, newAllocator (zero_mem 64) 16).
Proof.
  apply deallocate_near_base.
  - vm_compute. discriminate.
  - split; vm_compute; [discriminate|reflexivity].
Defined.

(** ** The median *)

(** [median] does not depend on the order of its argument. *)
Theorem median_permutation l l' : l ≡ₚ l' -> median l = median l'.
Proof.
  intros Hp.
  assert (E : sort_Slice l = sort_Slice l').
  { apply (Sorted_unique Z.le); [apply sort_Slice_sorted..|].
    rewrite !sort_Slice_perm. exact Hp. }
  unfold median. rewrite E. reflexivity.
Qed.

Lemma median_permutation_witness : median [3; 1; 2] = median [2; 3; 1].
Proof.
  apply median_permutation.
  eapply perm_trans; [apply perm_skip, perm_swap|apply perm_swap].
Defined.

Lemma median_odd_value (l : list Z) :
  Z.of_nat (length l) mod 2 = 1 ->
  exists x,
    sort_Slice l !! Z.to_nat (Z.of_nat (length l) / 2) = Some x /\
    median l = Val x.
Proof.
  intros Hodd. unfold median. rewrite sort_Slice_length.
  set (m := Z.of_nat (length l)) in *.
  assert (Hlen : length (sort_Slice l) = Z.to_nat m)
    by (rewrite sort_Slice_length; unfold m; lia).
  destruct (Z.eqb_spec m 0) as [E|Hne]; [rewrite E in Hodd; discriminate|].
  rewrite Hodd. simpl.
  pose proof (Z.div_mod m 2 ltac:(lia)) as Hd.
  destruct (lookup_lt_is_Some_2 (sort_Slice l) (Z.to_nat (m / 2))) as [x Hx];
    [unfold m in *; lia|].
  exists x. rewrite Hx. auto.
Qed.

Lemma median_even_value (l : list Z) :
  Z.of_nat (length l) mod 2 = 0 -> 4 <= Z.of_nat (length l) ->
  exists v, median l = Val v.
Proof.
  intros Heven H4. unfold median. rewrite sort_Slice_length.
  set (m := Z.of_nat (length l)) in *.
  assert (Hlen : length (sort_Slice l) = Z.to_nat m)
    by (rewrite sort_Slice_length; unfold m; lia).
  destruct (Z.eqb_spec m 0) as [E|Hne]; [lia|].
  rewrite Heven. simpl.
  pose proof (Z.div_mod m 2 ltac:(lia)) as Hd.
  destruct (lookup_lt_is_Some_2 (sort_Slice l) (Z.to_nat (m / 2 - 1)))
    as [a Ha]; [lia|].
  destruct (lookup_lt_is_Some_2 (sort_Slice l) (Z.to_nat (m / 2 + 1)))
    as [b Hb]; [lia|].
  rewrite Ha, Hb. eauto.
Qed.

(** [median] returns its error exactly on the empty list, panics exactly
    on the lists of length 2, and returns a value on every other list. *)
Theorem median_outcomes (l : list Z) :
  (median l = Err err_empty_list <-> l = []) /\
  (median l = Panic <-> length l = 2%nat) /\
  ((exists v, median l = Val v) <-> l <> [] /\ length l <> 2%nat).
Proof.
  pose proof (median_odd_value l) as Hodd.
  pose proof (median_even_value l) as Heven.
  set (m := Z.of_nat (length l)) in *.
  assert (Hcases : l = [] \/ (m mod 2 = 1) \/ length l = 2%nat
                   \/ (m mod 2 = 0 /\ 4 <= m)).
  { destruct l as [|x l']; [left; reflexivity|right].
    pose proof (Z.mod_pos_bound m 2 ltac:(lia)) as Hb.
    destruct (Z.eq_dec (m mod 2) 1) as [|Hne]; [left; assumption|right].
    destruct (Nat.eq_dec (length (x :: l')) 2%nat) as [|Hn2];
      [left; assumption|].
    right. split; [lia|].
    pose proof (Z.div_mod m 2 ltac:(lia)).
    unfold m in *. simpl length in *. lia. }
  destruct Hcases as [->|[Ho|[H2|[He H4]]]].
  - split; [split; auto; reflexivity|]. split.
    + split; [discriminate|intros H; discriminate H].
    + split; [intros [v H]; discriminate H|intros [H _]; congruence].
  - destruct (Hodd Ho) as (x & _ & E). rewrite E.
    assert (Hl : l <> []) by (intros ->; discriminate Ho).
    assert (Hn : length l <> 2%nat).
    { intros Hn. unfold m in Ho. rewrite Hn in Ho. discriminate Ho. }
    split; [split; [discriminate|congruence]|]. split.
    + split; [discriminate|congruence].
    + split; [auto|eauto].
  - destruct l as [|x [|y [|z l']]]; try discriminate H2.
    rewrite median_two_panics.
    split; [split; discriminate|]. split.
    + split; auto.
    + split; [intros [v H]; discriminate H|intros [_ H]; congruence].
  - destruct (Heven He H4) as (v & E). rewrite E.
    assert (Hl : l <> []) by (intros ->; unfold m in H4; simpl in H4; lia).
    assert (Hn : length l <> 2%nat) by (unfold m in H4; lia).
    split; [split; [discriminate|congruence]|]. split.
    + split; [discriminate|congruence].
    + split; [auto|eauto].
Qed.

Lemma median_outcomes_witness :
  median [4; 9] = Panic /\ exists v, median [4; 9; 1; 7] = Val v.
Proof.
  destruct (median_outcomes [4; 9]) as (_ & H2 & _).
  destruct (median_outcomes [4; 9; 1; 7]) as (_ & _ & H4).
  split.
  - apply H2. reflexivity.
  - apply H4. split; [discriminate|]. simpl. lia.
Defined.

(** On a list of odd length [median] returns one of its elements. *)
Theorem median_odd_member (l : list Z) v :
  Z.of_nat (length l) mod 2 = 1 -> median l = Val v -> v ∈ l.
Proof.
  intros Ho E.
  destruct (median_odd_value l Ho) as (x & Hx & E').
  rewrite E' in E. injection E as <-.
  rewrite <- (sort_Slice_perm l). eapply list_elem_of_lookup_2. exact Hx.
Qed.

Lemma median_odd_member_witness : 5 ∈ [5; 1; 9].
Proof.
  apply (median_odd_member [5; 1; 9] 5); reflexivity.
Defined.

(** * Heaps close to 4 GiB

    A wasm memory can have up to 65535 pages of 64 KiB, and the lengths
    and offsets of the allocator are [uint32]: on such a heap the sums in
    [allocate] and [bump] wrap around. *)

(** A returning [allocate] on the bump path, whatever the size of the
    heap: the state it leaves. *)
Lemma allocate_bump_step size s :
  size <= MAX_POSSIBLE_ALLOCATION ->
  uint32 (nextPowerOf2GT8 size + 8 + total_size s) <= max_heap_size s ->
  heads s !! Z.to_nat (class_index size) = Some 0 ->
  0 <= bumper s -> 0 <= ptr_offset s -> heap_len s < 2 ^ 32 ->
  ptr_offset s + bumper s + 8 <= heap_len s ->
  exists h',
    length h' = length (heap s) /\
    (forall j : nat,
       Z.of_nat j < ptr_offset s + bumper s -> h' !! j = heap s !! j) /\
    h' !! Z.to_nat (ptr_offset s + bumper s)
    = Some (uint8 (class_index size)) /\
    allocate size s
    = (Val (ptr_offset s + bumper s + 8),
       mkFBHA (uint32 (bumper s + block_bytes size)) (heads s) h'
         (max_heap_size s) (ptr_offset s)
         (uint32 (total_size s + nextPowerOf2GT8 size + 8))).
Proof.
  intros Hmax Hfit Hhead Hb Ho Hl Hin.
  destruct (size_class_facts size Hmax) as (Hidx & _ & _ & Hrange).
  unfold MAX_POSSIBLE_ALLOCATION in Hrange.
  destruct (allocate_body_returns size s 0 (bumper s) Hidx Hhead)
    as (p & s' & E); try assumption.
  { destruct (Z.eq_dec 0 0); [reflexivity|congruence]. }
  rewrite <- (allocate_passes _ _ Hmax Hfit) in E. rewrite E.
  apply allocate_val in E
    as (head & ptr & s1 & h' & _ & _ & _ & Hh & Hpath & Hlen & _ & Hout
        & Hhdr & -> & ->).
  rewrite Hhead in Hh. injection Hh as <-.
  destruct Hpath as [[Hne _]|[_ Hbp]]; [congruence|].
  apply take_from_bump_val in Hbp as (-> & ->).
  unfold hdr_addr, heap_len in *. simpl_state.
  assert (Haddr : forall k, 1 <= k <= 8 ->
            uint32 (ptr_offset s + uint32 (uint32 (bumper s + 8) - k))
            = ptr_offset s + bumper s + 8 - k).
  { intros k Hk. rewrite (uint32_small (bumper s + 8)) by lia.
    rewrite (uint32_small (bumper s + 8 - k)) by lia.
    rewrite uint32_small by lia. lia. }
  exists h'. split; [exact Hlen|]. split.
  { intros j Hj. apply Hout. intros k Hk. rewrite Haddr by lia. lia. }
  split.
  { rewrite Haddr in Hhdr by lia.
    replace (ptr_offset s + bumper s + 8 - 8) with (ptr_offset s + bumper s)
      in Hhdr by lia.
    exact Hhdr. }
  rewrite (uint32_small (bumper s + 8)) by lia.
  rewrite (uint32_small (ptr_offset s + (bumper s + 8))) by lia.
  rewrite (uint32_small (nextPowerOf2GT8 size + 8)) by lia.
  unfold block_bytes. f_equal. f_equal. lia.
Qed.

Lemma bump_state_step L lo c size sizes s :
  L < 2 ^ 32 -> 0 <= lo ->
  bump_state L c s ->
  bumps_ok lo L c (size :: sizes) = true ->
  exists s',
    allocate size s = (Val (c + 8), s') /\
    bump_state L (uint32 (c + block_bytes size)) s' /\
    bumps_ok lo L (uint32 (c + block_bytes size)) sizes = true /\
    heap s' !! Z.to_nat c = Some (uint8 (class_index size)) /\
    (forall j : nat, Z.of_nat j < lo -> heap s' !! j = heap s !! j).
Proof.
  intros HL Hlo [Hb Ht Hh Ho Hm Hlen] Hok. simpl in Hok.
  apply andb_true_iff in Hok as [Hok Hrest].
  apply andb_true_iff in Hok as [Hok Hfit].
  apply andb_true_iff in Hok as [Hok Hin].
  apply andb_true_iff in Hok as [Hmax Hc].
  apply Z.leb_le in Hmax, Hc, Hin, Hfit.
  destruct (size_class_facts size Hmax) as (Hidx & _).
  assert (Hhead : heads s !! Z.to_nat (class_index size) = Some 0).
  { rewrite Hh. apply lookup_replicate_2. unfold N in *. lia. }
  destruct (allocate_bump_step size s) as (h' & Hl' & Hout & Hhdr & E);
    rewrite ?Hb, ?Ht, ?Ho, ?Hm, ?Hlen; try assumption; try lia.
  rewrite Hb, Ht, Ho, Hm in E. rewrite Hb, Ho in Hout, Hhdr.
  rewrite Z.add_0_l in E, Hhdr.
  eexists. split; [exact E|]. split.
  - constructor; simpl_state; try reflexivity; try assumption.
    + unfold block_bytes. f_equal. lia.
    + unfold heap_len in *. simpl_state. rewrite Hl'. exact Hlen.
  - split; [exact Hrest|]. split; [exact Hhdr|].
    intros j Hj. simpl_state. apply Hout. lia.
Qed.

Lemma bump_run L lo sizes :
  forall c s,
    L < 2 ^ 32 -> 0 <= lo ->
    bump_state L c s ->
    bumps_ok lo L c sizes = true ->
    exists s',
      run (Allocate <$> sizes) s = Some s' /\
      bump_state L (bumped c sizes) s' /\
      (forall j : nat, Z.of_nat j < lo -> heap s' !! j = heap s !! j).
Proof.
  induction sizes as [|size sizes IH]; intros c s HL Hlo St Hok.
  - exists s. split; [reflexivity|]. split; [exact St|]. reflexivity.
  - destruct (bump_state_step _ _ _ _ _ _ HL Hlo St Hok)
      as (s1 & E & St1 & Hok1 & _ & Hf1).
    destruct (IH _ _ HL Hlo St1 Hok1) as (s' & Hrun & St' & Hf).
    exists s'. rewrite fmap_cons. cbn [run]. rewrite E.
    split; [exact Hrun|]. split; [exact St'|].
    intros j Hj. rewrite Hf by exact Hj. apply Hf1, Hj.
Qed.

Lemma bump_run_live L sizes :
  forall c s live,
    L < 2 ^ 32 ->
    bump_state L c s ->
    bumps_ok 0 L c sizes = true ->
    exists s' live',
      run_live (Allocate <$> sizes) s live = Some (s', live') /\
      bump_state L (bumped c sizes) s' /\
      live_bytes live' = live_bytes live + sumZ block_bytes sizes.
Proof.
  induction sizes as [|size sizes IH]; intros c s live HL St Hok.
  - exists s, live. split; [reflexivity|]. split; [exact St|]. simpl. lia.
  - destruct (bump_state_step _ _ _ _ _ _ HL (Z.le_refl 0) St Hok)
      as (s1 & E & St1 & Hok1 & _).
    destruct (IH _ _ ((c + 8, size) :: live) HL St1 Hok1)
      as (s' & live' & Hrun & St' & Hlb).
    exists s', live'. rewrite fmap_cons. cbn [run_live]. rewrite E.
    split; [exact Hrun|]. split; [exact St'|].
    rewrite Hlb. unfold live_bytes. cbn [sumZ snd]. lia.
Qed.

Lemma big_mem_length : Z.of_nat (length big_mem) = 2 ^ 32 - 2 ^ 16.
Proof.
  unfold big_mem. rewrite length_replicate. apply Z2Nat.id. lia.
Qed.

Lemma big_mem_fresh :
  bump_state (2 ^ 32 - 2 ^ 16) 0 (newAllocator big_mem 0).
Proof.
  constructor; unfold newAllocator; simpl_state.
  - reflexivity.
  - reflexivity.
  - reflexivity.
  - reflexivity.
  - rewrite big_mem_length. reflexivity.
  - unfold heap_len. simpl_state. apply big_mem_length.
Qed.

Lemma run_live_app ops1 ops2 :
  forall s live s' live',
    run_live ops1 s live = Some (s', live') ->
    run_live (ops1 ++ ops2) s live = run_live ops2 s' live'.
Proof.
  induction ops1 as [|[size|p] ops1 IH]; intros s live s' live' H.
  - injection H as <- <-. reflexivity.
  - cbn [app run_live] in *.
    destruct (allocate size s) as [[q|e|] s1]; [| |discriminate];
      apply IH, H.
  - cbn [app run_live] in *.
    destruct (lookup_live p live); [|discriminate].
    destruct (deallocate p s) as [[[]|e|] s1]; try discriminate.
    apply IH, H.
Qed.

Lemma returned_pointers_app ops1 ops2 :
  forall s s',
    run ops1 s = Some s' ->
    returned_pointers (ops1 ++ ops2) s
    = returned_pointers ops1 s ++ returned_pointers ops2 s'.
Proof.
  induction ops1 as [|[size|p] ops1 IH]; intros s s' H.
  - injection H as <-. reflexivity.
  - cbn [app run returned_pointers] in *.
    destruct (allocate size s) as [[q|e|] s1]; [| |discriminate].
    + rewrite (IH _ _ H). reflexivity.
    + apply IH, H.
  - cbn [app run returned_pointers] in *.
    destruct (deallocate p s) as [[[]|e|] s1]; [| |discriminate];
      apply IH, H.
Qed.

(** 255 blocks of 16 MiB fit a heap of [2^32 - 2^16] bytes. *)
Lemma many_blocks_ok :
  bumps_ok 0 (2 ^ 32 - 2 ^ 16) 0 (replicate 255 16777216) = true /\
  bumped 0 (replicate 255 16777216) = 4278192120 /\
  sumZ block_bytes (replicate 255 16777216) = 4278192120 /\
  bumps_ok 0 (2 ^ 32 - 2 ^ 16) 4278192120 [16777216] = true /\
  uint32 (4278192120 + block_bytes 16777216) = 2048.
Proof. vm_compute. repeat split. Qed.

Lemma fill_blocks_ok :
  bumps_ok 0 (2 ^ 32 - 2 ^ 16) 0 [4] = true /\
  uint32 (0 + block_bytes 4) = 16 /\
  bumps_ok 8 (2 ^ 32 - 2 ^ 16) 16 (fill_sizes ++ [16777216]) = true /\
  bumped 16 fill_sizes = 2 ^ 32 - 2 ^ 24 - 8 /\
  bumped 16 (fill_sizes ++ [16777216]) = 0 /\
  uint8 (class_index 4) = x00.
Proof. vm_compute. repeat split. Qed.

(** Claim C7.  On a heap of [2^32 - 2^16] bytes, 255 calls
    [allocate 16777216] return and leave [total_size] at 4278192120, the
    sum over the live allocations.  The next one needs 16777224 bytes,
    more than are left under [max_heap_size], but the sum in the space
    test wraps to 2048: the call returns 4278192128 and leaves [total_size]
    (and the cursor) at 2048, which is neither the previous value plus
    16777224 nor the sum over the 256 live allocations, 4294969344. *)
Theorem bytes_in_use_wraps :
  exists s live s',
    run_live (replicate 255 (Allocate 16777216)) (newAllocator big_mem 0) []
    = Some (s, live) /\
    max_heap_size s = 4294901760 /\
    total_size s = 4278192120 /\
    live_bytes live = 4278192120 /\
    allocate 16777216 s = (Val 4278192128, s') /\
    run_live (replicate 256 (Allocate 16777216)) (newAllocator big_mem 0) []
    = Some (s', (4278192128, 16777216) :: live) /\
    bumper s' = 2048 /\
    total_size s' = 2048 /\
    live_bytes ((4278192128, 16777216) :: live) = 4294969344 /\
    total_size s' <> total_size s + (nextPowerOf2GT8 16777216 + 8) /\
    total_size s' <> live_bytes ((4278192128, 16777216) :: live).
Proof.
  destruct many_blocks_ok as (Hok & Hend & Hsum & Hok1 & Hwrap).
  assert (HL : 2 ^ 32 - 2 ^ 16 < 2 ^ 32) by lia.
  destruct (bump_run_live _ _ _ _ [] HL big_mem_fresh Hok)
    as (s & live & Hrun & St & Hlb).
  rewrite fmap_replicate in Hrun. rewrite Hend in St.
  rewrite Hsum in Hlb. change (live_bytes []) with 0 in Hlb.
  destruct (bump_state_step _ 0 _ _ _ _ HL (Z.le_refl 0) St Hok1)
    as (s' & E & St' & _).
  rewrite Hwrap in St'. change (4278192120 + 8) with 4278192128 in E.
  assert (Hlb' : live_bytes ((4278192128, 16777216) :: live) = 4294969344).
  { unfold live_bytes in *. cbn [sumZ snd]. rewrite Hlb. reflexivity. }
  exists s, live, s'.
  split; [exact Hrun|]. split; [exact (bs_max _ _ _ St)|].
  split; [exact (bs_total _ _ _ St)|]. split; [lia|]. split; [exact E|].
  split.
  { rewrite replicate_S_end, (run_live_app _ _ _ _ _ _ Hrun).
    cbn [run_live]. rewrite E. reflexivity. }
  split; [exact (bs_bumper _ _ _ St')|].
  split; [exact (bs_total _ _ _ St')|]. split; [exact Hlb'|].
  rewrite Hlb', (bs_total _ _ _ St'), (bs_total _ _ _ St).
  split; [|lia].
  change (nextPowerOf2GT8 16777216 + 8) with 16777224. lia.
Qed.

(** Claim C10.  On a heap of [2^32 - 2^16] bytes the first [allocate 4]
    returns 8, the block at relative offset 0.  Further allocations take
    the cursor to [2^32 - 2^24 - 8], and one more [allocate 16777216]
    returns and wraps the cursor to 0.  After [deallocate 8] the head of
    class 0 is 0, the following [allocate 4] takes its block at the
    cursor, and returns 8 again. *)
Theorem first_block_returned_after_wrap :
  exists s1 s s2 s3,
    allocate 4 (newAllocator big_mem 0) = (Val 8, s1) /\
    ptr_offset s1 + 8 = 8 /\
    run (Allocate <$> fill_sizes ++ [16777216]) s1 = Some s /\
    bumper s = 0 /\
    deallocate 8 s = (Val tt, s2) /\
    heads s2 !! 0%nat = Some 0 /\
    allocate 4 s2 = (Val 8, s3) /\
    8 ∈ returned_pointers
          ((Allocate <$> fill_sizes ++ [16777216])
           ++ [Deallocate 8; Allocate 4]) s1.
Proof.
  destruct fill_blocks_ok as (Hok0 & H16 & Hok & _ & Hend & Hcls).
  assert (HL : 2 ^ 32 - 2 ^ 16 < 2 ^ 32) by lia.
  destruct (bump_state_step _ 0 _ _ _ _ HL (Z.le_refl 0) big_mem_fresh Hok0)
    as (s1 & E1 & St1 & _ & Hhdr1 & _).
  rewrite H16 in St1. rewrite Hcls in Hhdr1.
  change (0 + 8) with 8 in E1. change (Z.to_nat 0) with 0%nat in Hhdr1.
  destruct (bump_run _ 8 _ _ _ HL ltac:(lia) St1 Hok)
    as (s & Hrun & St & Hframe).
  rewrite Hend in St.
  destruct St as [Sb St Sh So Sm Sl].
  assert (Hhdr : heap s !! 0%nat = Some x00).
  { rewrite Hframe by (simpl; lia). exact Hhdr1. }
  assert (Hhead : heads s !! 0%nat = Some 0).
  { rewrite Sh. reflexivity. }
  pose proof (deallocate_block 8 s 0 x00 0) as Hd.
  rewrite So, Sl in Hd. change (Z.to_nat (0 + 0)) with 0%nat in Hd.
  change (byte_to_Z x00) with 0 in Hd. change (Z.to_nat 0) with 0%nat in Hd.
  specialize (Hd (Z.le_refl 0) HL (Z.le_refl 0) eq_refl ltac:(lia) Hhdr
                ltac:(unfold N; lia) Hhead).
  rewrite Sb, Sm, St in Hd.
  set (s2 := mkFBHA 0 _ _ _ _ _) in Hd.
  assert (Hhead2 : heads s2 !! 0%nat = Some 0).
  { unfold s2. simpl_state. rewrite Sh. reflexivity. }
  destruct (allocate_bump_step 4 s2) as (h3 & _ & _ & _ & E3).
  - unfold MAX_POSSIBLE_ALLOCATION. lia.
  - unfold s2. simpl_state. vm_compute. discriminate.
  - exact Hhead2.
  - unfold s2. simpl_state. lia.
  - unfold s2. simpl_state. lia.
  - unfold s2, heap_len. simpl_state. rewrite store_bytes_length.
    unfold heap_len in Sl. lia.
  - unfold s2, heap_len. simpl_state. rewrite store_bytes_length.
    unfold heap_len in Sl. lia.
  - change (ptr_offset s2 + bumper s2 + 8) with 8 in E3.
    eexists s1, s, s2, _.
    split; [exact E1|]. split; [rewrite (bs_off _ _ _ St1); reflexivity|].
    split; [exact Hrun|]. split; [exact Sb|]. split; [exact Hd|].
    split; [exact Hhead2|]. split; [exact E3|].
    rewrite (returned_pointers_app _ _ _ _ Hrun). apply elem_of_app. right.
    cbn [returned_pointers]. rewrite Hd, E3. apply list_elem_of_here.
Qed.
